(** * Shunt-sound checker (app.py): the numeric pipeline

    A shallow embedding of the signal-processing code of [app.py]:
    [load_audio_data], [perform_fft_analysis], [plot_spectrum], the
    band-ratio block and the two tabs of [main], [plot_spectrogram], and
    the key lookup [get_api_key].

    Numbers.  Every finite floating-point value is a rational, so array
    elements are values of [Q]; integer samples are values of [Z].

    The band-ratio block of [main] is given twice.  [MainFloat] is the
    block in floating point: every sum, quotient and product is rounded
    to the nearest number of the format, ties to even, and overflows to
    an infinity (module [Ieee], for a binary format of any precision and
    range, binary32 and binary64 among them); the order in which
    [a.sum()] adds the entries is a parameter.  The statements on the
    values of the ratios are made there, and the first tab of [main] is
    built on it.  [Main] is the same block over exact sums and
    quotients; it carries the statements on the masks and on the rules
    of the verdict.

    Elsewhere arithmetic is exact, with one exception that the code
    makes visible: [astype(np.float32)] on a 32-bit integer rounds to 24
    significant bits, and is modelled so.  The transforms of numpy and
    matplotlib that involve sines and cosines ([np.fft.fft], the power
    spectrum of a window) are parameters of the development, constrained
    only by the shape of their result. *)

From Stdlib Require Import String ZArith QArith Qabs Qround Qminmax Qpower
  List Sorted Bool Lia Lqa.
Import ListNotations.

Local Open Scope Q_scope.

(** ** Python exceptions *)

Module Py.

Inductive exn : Type :=
| ValueError          (* np.fft.fft on an empty array; mlab: noverlap >= NFFT *)
| ZeroDivisionError   (* [1/sample_rate] with a zero rate *)
| IndexError.         (* boolean index whose length differs from the array's *)

Definition t (A : Type) : Type := (exn + A)%type.

Definition ret {A} (a : A) : t A := inr a.
Definition raise {A} (e : exn) : t A := inl e.
Definition bind {A B} (c : t A) (k : A -> t B) : t B :=
  match c with
  | inl e => inl e
  | inr a => k a
  end.

End Py.

Notation "x <- c ;; k" := (Py.bind c (fun x => k))
  (at level 61, c at next level, right associativity).
Notation "' p <- c ;; k" := (Py.bind c (fun x => let 'p := x in k))
  (at level 61, p pattern, c at next level, right associativity).

(** ** numpy *)

Module Np.

(** The dtypes [scipy.io.wavfile.read] returns for 8-bit PCM (unsigned),
    16-bit PCM, 24- and 32-bit PCM, wider PCM up to 64 bits, and IEEE
    float samples. *)
Inductive idtype : Type := uint8 | int16 | int32 | int64.
Inductive fdtype : Type := float32 | float64.

(** An array of one axis (shape [(n,)]) or of two (shape
    [(n, channels)], one row per time index). *)
Inductive ndarray : Type :=
| IVec (dt : idtype) (xs : list Z)
| FVec (dt : fdtype) (xs : list Q)
| IMat (dt : idtype) (rows : list (list Z))
| FMat (dt : fdtype) (rows : list (list Q)).

(** [a.sum()] over the rationals: the exact sum.  The rounded sum of a
    float array is a parameter of [MainFloat]. *)
Definition sum (l : list Q) : Q := fold_right Qplus 0 l.

Definition any (mask : list bool) : bool := existsb (fun b => b) mask.

(** [a.mean()] of one row. *)
Definition mean (row : list Q) : Q :=
  sum row / inject_Z (Z.of_nat (length row)).

(** [if len(a.shape) > 1: a = a.mean(axis=1)].  The mean over the
    channels of each row; the result is float64 for an integer array
    and keeps the dtype of a float array.  A one-axis array is left as
    it is. *)
Definition mean_axis1_if_2d (a : ndarray) : ndarray :=
  match a with
  | IMat _ rows => FVec float64 (map (fun r => mean (map inject_Z r)) rows)
  | FMat dt rows => FVec dt (map mean rows)
  | IVec _ _ | FVec _ _ => a
  end.

(** [astype(np.float32)] of an integer: the nearest number with a
    24-bit significand, ties to the even significand. *)
Definition round_f32 (z : Z) : Z :=
  let a := Z.abs z in
  let e := (Z.log2 a - 23)%Z in
  if (e <=? 0)%Z then z
  else
    let q := Z.shiftr a e in
    let r := (a mod 2 ^ e)%Z in
    let half := (2 ^ (e - 1))%Z in
    let q' := if (half <? r)%Z || ((r =? half)%Z && Z.odd q)
              then (q + 1)%Z else q in
    (Z.sgn z * (q' * 2 ^ e))%Z.

Definition astype_float32 (z : Z) : Q := inject_Z (round_f32 z).

(** [np.arange(lo, hi)] on integers. *)
Definition arange (lo hi : Z) : list Z :=
  map (fun i => (lo + Z.of_nat i)%Z) (seq 0 (Z.to_nat (hi - lo))).

(** [np.fft.fftfreq(n, d)]:
<<
    val = 1.0/(n*d)
    N = (n-1)//2 + 1
    results[:N] = arange(0, N);  results[N:] = arange(-(n//2), 0)
    return results * val
>> *)
Definition fftfreq (n : Z) (d : Q) : list Q :=
  let val := 1 / (inject_Z n * d) in
  let N := ((n - 1) / 2 + 1)%Z in
  let results := arange 0 N ++ arange (- (n / 2)) 0 in
  map (fun k => inject_Z k * val) results.

(** The entries of [a] where the mask is true, for a mask of the
    array's length; any other length is refused. *)
Fixpoint select_mask {A} (a : list A) (mask : list bool) : Py.t (list A) :=
  match a, mask with
  | [], [] => Py.ret []
  | x :: a', b :: mask' =>
      r <- select_mask a' mask' ;;
      Py.ret (if b then x :: r else r)
  | _, _ => Py.raise Py.IndexError
  end.

(** [a[mask]] with a boolean mask: the entries where the mask is true.
    numpy refuses a mask whose length is not the array's, except the
    empty mask, which it accepts on every array and which selects
    nothing. *)
Definition getitem_mask {A} (a : list A) (mask : list bool) : Py.t (list A) :=
  match mask with
  | [] => Py.ret []
  | _ :: _ => select_mask a mask
  end.

(** A float: a finite number, an infinity or nan. *)
Inductive float : Type :=
| Fin (q : Q)
| PInf
| NInf
| NaN.

(** [a / b] over the rationals: the exact quotient; numpy does not
    raise on a zero divisor, it yields an infinity or nan.  The rounded
    quotient is [Ieee.div]. *)
Definition true_divide (a b : Q) : float :=
  if Qeq_bool b 0 then
    if Qeq_bool a 0 then NaN
    else if Qle_bool 0 a then PInf else NInf
  else Fin (a / b).

(** [x * c] for a positive constant [c]. *)
Definition scale (x : float) (c : Q) : float :=
  match x with
  | Fin q => Fin (q * c)
  | other => other
  end.

(** [x > c]; every comparison with nan is false. *)
Definition gt (x : float) (c : Q) : bool :=
  match x with
  | Fin q => negb (Qle_bool q c)
  | PInf => true
  | NInf | NaN => false
  end.

Definition is_finite (x : float) : Prop :=
  match x with Fin _ => True | _ => False end.

End Np.

(** ** load_audio_data *)

(** [load_audio_data] from the point where [wavfile.read] has returned
    [(sample_rate, audio_data)]:
<<
    if len(audio_data.shape) > 1:
        audio_data = audio_data.mean(axis=1)
    if audio_data.dtype == np.int16:
        audio_data = audio_data.astype(np.float32) / 32768.0
    elif audio_data.dtype == np.int32:
        audio_data = audio_data.astype(np.float32) / 2147483648.0
    return sample_rate, audio_data
>> *)
Definition normalize (audio_data : Np.ndarray) : Np.ndarray :=
  match audio_data with
  | Np.IVec Np.int16 xs =>
      Np.FVec Np.float32 (map (fun x => Np.astype_float32 x / 32768) xs)
  | Np.IVec Np.int32 xs =>
      Np.FVec Np.float32 (map (fun x => Np.astype_float32 x / 2147483648) xs)
  | Np.IMat Np.int16 rows =>
      Np.FMat Np.float32
        (map (map (fun x => Np.astype_float32 x / 32768)) rows)
  | Np.IMat Np.int32 rows =>
      Np.FMat Np.float32
        (map (map (fun x => Np.astype_float32 x / 2147483648)) rows)
  | other => other
  end.

Definition load_audio_data (decoded : Z * Np.ndarray) : Z * Np.ndarray :=
  let '(sample_rate, audio_data) := decoded in
  let audio_data := Np.mean_axis1_if_2d audio_data in
  (sample_rate, normalize audio_data).

(** The sample sequence of a one-axis array, as the later stages read it. *)
Definition samples (a : Np.ndarray) : list Q :=
  match a with
  | Np.IVec _ xs => map inject_Z xs
  | Np.FVec _ xs => xs
  | Np.IMat _ rows => map inject_Z (concat rows)
  | Np.FMat _ rows => concat rows
  end.

(** Two loads give the same waveform: the same rate and the same samples. *)
Definition same_waveform (w1 w2 : Z * Np.ndarray) : Prop :=
  fst w1 = fst w2 /\ Forall2 Qeq (samples (snd w1)) (samples (snd w2)).

(** A mono clip and the stereo clip that carries it on both channels. *)
Definition mono_int16 (xs : list Z) : Np.ndarray := Np.IVec Np.int16 xs.
Definition stereo_int16 (xs : list Z) : Np.ndarray :=
  Np.IMat Np.int16 (map (fun x => [x; x]) xs).


(** ** perform_fft_analysis *)

Section Transform.

(** [np.fft.fft] on a non-empty real sequence, and [np.abs] on a
    complex number given by its real and imaginary parts. *)
Variable np_fft : list Q -> list (Q * Q).
Variable np_abs : Q * Q -> Q.

(** [np.fft.fft(a)]: an empty input is refused. *)
Definition fft (a : list Q) : Py.t (list (Q * Q)) :=
  match a with
  | [] => Py.raise Py.ValueError
  | _ :: _ => Py.ret (np_fft a)
  end.

(** [1/sample_rate] on Python integers. *)
Definition py_inverse (sample_rate : Z) : Py.t Q :=
  if (sample_rate =? 0)%Z then Py.raise Py.ZeroDivisionError
  else Py.ret (1 / inject_Z sample_rate).

(** [frequencies >= 0] *)
Definition positive_mask (frequencies : list Q) : list bool :=
  map (fun f => Qle_bool 0 f) frequencies.

Definition perform_fft_analysis (sample_rate : Z) (audio_data : list Q)
  : Py.t (list Q * list Q) :=
  let n := Z.of_nat (length audio_data) in
  fft_result <- fft audio_data ;;
  d <- py_inverse sample_rate ;;
  let frequencies := Np.fftfreq n d in
  let mask := positive_mask frequencies in
  frequencies' <- Np.getitem_mask frequencies mask ;;
  selected <- Np.getitem_mask fft_result mask ;;
  Py.ret (frequencies', map np_abs selected).

End Transform.

(** The bin width of [fftfreq], [val = 1.0/(n*d)], for [d = 1/sample_rate]. *)
Definition bin_width (n sample_rate : Z) : Q :=
  1 / (inject_Z n * (1 / inject_Z sample_rate)).

(** The number of entries of [fftfreq] that are not negative,
    [N = (n-1)//2 + 1]. *)
Definition retained (n : nat) : Z := ((Z.of_nat n - 1) / 2 + 1)%Z.

(** ** The band-ratio block of main *)

Module Main.

(** What [main] shows for the ratios: [st.success] (low band
    dominant), [st.warning] (high band notable) or [st.info]. *)
Inductive verdict : Type :=
| NORMAL_LEANING     (* st.success *)
| STENOSIS_LEANING   (* st.warning *)
| MIXED.             (* st.info *)

(** [(frequencies >= 0) & (frequencies <= 500)] *)
Definition low_freq_mask (frequencies : list Q) : list bool :=
  map (fun f => Qle_bool 0 f && Qle_bool f 500) frequencies.

(** [(frequencies >= 1000) & (frequencies <= 3000)] *)
Definition high_freq_mask (frequencies : list Q) : list bool :=
  map (fun f => Qle_bool 1000 f && Qle_bool f 3000) frequencies.

(** [magnitude[mask].sum() if mask.any() else 0] *)
Definition band_power (magnitude : list Q) (mask : list bool) : Py.t Q :=
  if Np.any mask then
    selected <- Np.getitem_mask magnitude mask ;;
    Py.ret (Np.sum selected)
  else Py.ret 0.

Definition low_power (frequencies magnitude : list Q) : Py.t Q :=
  band_power magnitude (low_freq_mask frequencies).

Definition high_power (frequencies magnitude : list Q) : Py.t Q :=
  band_power magnitude (high_freq_mask frequencies).

(**
<<
    total_power = low_power + high_power
    if total_power > 0:
        low_ratio = (low_power / total_power) * 100
        high_ratio = (high_power / total_power) * 100
    else:
        low_ratio = high_ratio = 0
>> *)
Definition ratios_of_powers (low_power high_power : Q) : Np.float * Np.float :=
  let total_power := low_power + high_power in
  if negb (Qle_bool total_power 0) then
    (Np.scale (Np.true_divide low_power total_power) 100,
     Np.scale (Np.true_divide high_power total_power) 100)
  else (Np.Fin 0, Np.Fin 0).

Definition ratios (frequencies magnitude : list Q)
  : Py.t (Np.float * Np.float) :=
  lp <- low_power frequencies magnitude ;;
  hp <- high_power frequencies magnitude ;;
  Py.ret (ratios_of_powers lp hp).

(**
<<
    if low_ratio > 70:    st.success(...)
    elif high_ratio > 40: st.warning(...)
    else:                 st.info(...)
>> *)
Definition judge (low_ratio high_ratio : Np.float) : verdict :=
  if Np.gt low_ratio 70 then NORMAL_LEANING
  else if Np.gt high_ratio 40 then STENOSIS_LEANING
  else MIXED.

Definition classify (frequencies magnitude : list Q)
  : Py.t (Np.float * Np.float * verdict) :=
  '(low_ratio, high_ratio) <- ratios frequencies magnitude ;;
  Py.ret (low_ratio, high_ratio, judge low_ratio high_ratio).

End Main.

(** The band energies in the words of the specification: the sum of the
    magnitudes whose frequency lies in [[lo, hi]]. *)
Definition in_band (lo hi f : Q) : bool := Qle_bool lo f && Qle_bool f hi.

Definition band_energy (lo hi : Q) (frequencies magnitude : list Q) : Q :=
  Np.sum (map snd (filter (fun p => in_band lo hi (fst p))
                          (combine frequencies magnitude))).

(** ** Floating-point arithmetic *)

Module Ieee.

(** A binary format: the number of bits of the significand and the
    exponent of the power of two at which it overflows. *)
Record format : Type := {
  prec : Z;
  emax : Z
}.

Definition binary32 : format := {| prec := 24; emax := 128 |}.
Definition binary64 : format := {| prec := 53; emax := 1024 |}.

(** The exponent of the smallest positive number of the format
    ([2^-149] and [2^-1074]). *)
Definition emin (fmt : format) : Z := (3 - emax fmt - prec fmt)%Z.

Definition pow2 (e : Z) : Q := 2 ^ e.

(** The exponent of the power of two at or below a positive [q]. *)
Definition ilog2 (q : Q) : Z :=
  let k := (Z.log2 (Qnum q) - Z.log2 (Zpos (Qden q)))%Z in
  if Qle_bool (pow2 k) q then k else (k - 1)%Z.

(** The nearest integer, the even one of two that are equally near. *)
Definition nearest_even (x : Q) : Z :=
  let f := Qfloor x in
  match Qcompare (x - inject_Z f) (1 # 2) with
  | Lt => f
  | Gt => (f + 1)%Z
  | Eq => if Z.even f then f else (f + 1)%Z
  end.

(** The distance between the numbers of the format next to [q]. *)
Definition quantum (fmt : format) (q : Q) : Q :=
  pow2 (Z.max (ilog2 (Qabs q) - (prec fmt - 1)) (emin fmt)).

(** Rounding to the nearest number of the format, ties to even, before
    the test for overflow. *)
Definition rnd (fmt : format) (q : Q) : Q :=
  if Qeq_bool q 0 then 0
  else inject_Z (nearest_even (q / quantum fmt q)) * quantum fmt q.

(** The result of an operation whose exact value is [q]. *)
Definition round (fmt : format) (q : Q) : Np.float :=
  let r := rnd fmt q in
  if Qle_bool (pow2 (emax fmt)) (Qabs r)
  then if Qle_bool 0 q then Np.PInf else Np.NInf
  else Np.Fin r.

(** The sign of a number, of a zero [Eq]: the sign of a zero is not
    kept apart. *)
Definition sign (x : Np.float) : option comparison :=
  match x with
  | Np.Fin q => Some (Qcompare q 0)
  | Np.PInf => Some Gt
  | Np.NInf => Some Lt
  | Np.NaN => None
  end.

Definition infinity (s : comparison) : Np.float :=
  match s with
  | Gt => Np.PInf
  | Lt => Np.NInf
  | Eq => Np.NaN
  end.

Definition sign_mul (s1 s2 : comparison) : comparison :=
  match s1, s2 with
  | Eq, _ | _, Eq => Eq
  | Gt, s | s, Gt => s
  | Lt, Lt => Gt
  end.

(** [x + y] *)
Definition add (fmt : format) (x y : Np.float) : Np.float :=
  match x, y with
  | Np.NaN, _ | _, Np.NaN => Np.NaN
  | Np.PInf, Np.NInf | Np.NInf, Np.PInf => Np.NaN
  | Np.PInf, _ | _, Np.PInf => Np.PInf
  | Np.NInf, _ | _, Np.NInf => Np.NInf
  | Np.Fin a, Np.Fin b => round fmt (a + b)
  end.

(** [x * y]; an infinity times zero is nan. *)
Definition mul (fmt : format) (x y : Np.float) : Np.float :=
  match x, y with
  | Np.Fin a, Np.Fin b => round fmt (a * b)
  | _, _ =>
      match sign x, sign y with
      | Some s1, Some s2 => infinity (sign_mul s1 s2)
      | _, _ => Np.NaN
      end
  end.

(** [x / y] as numpy divides: a zero divisor gives an infinity, or nan
    for [0/0]; a finite number over an infinity is zero; an infinity
    over an infinity is nan. *)
Definition div (fmt : format) (x y : Np.float) : Np.float :=
  match x, y with
  | Np.NaN, _ | _, Np.NaN => Np.NaN
  | Np.Fin a, Np.Fin b =>
      if Qeq_bool b 0 then infinity (Qcompare a 0)
      else round fmt (a / b)
  | Np.Fin _, _ => Np.Fin 0
  | _, Np.Fin b => infinity (sign_mul (match x with Np.PInf => Gt | _ => Lt end)
                                      (if Qle_bool 0 b then Gt else Lt))
  | _, _ => Np.NaN
  end.

(** The numbers of the format: a significand of [prec] bits times a
    power of two, not below the smallest exponent and short of
    overflow. *)
Definition is_float (fmt : format) (q : Q) : Prop :=
  exists m e : Z,
    q == inject_Z m * pow2 e
    /\ (Z.abs m < 2 ^ prec fmt)%Z
    /\ (emin fmt <= e)%Z
    /\ Qabs q < pow2 (emax fmt).

(** The formats of the development: at least eight bits of precision,
    overflow at [2^16] or above. *)
Definition valid (fmt : format) : Prop :=
  (8 <= prec fmt)%Z /\ (16 <= emax fmt)%Z.

(** The multiples of the smallest positive number, as every number of
    the format is. *)
Definition on_grid (fmt : format) (q : Q) : Prop :=
  exists k : Z, q == inject_Z k * pow2 (emin fmt).

(** A finite number of the format that is not negative. *)
Definition nonneg_float (fmt : format) (x : Np.float) : Prop :=
  exists q, x = Np.Fin q /\ 0 <= q /\ is_float fmt q.

(** A sum from left to right, starting at zero. *)
Definition sum_left (fmt : format) (a : list Np.float) : Np.float :=
  fold_left (add fmt) a (Np.Fin 0).

End Ieee.

(** ** The band-ratio block of main, in floating point *)

Module MainFloat.

Section Ratios.

(** The format of the magnitudes: binary64, or binary32 where
    [np.fft.fft] keeps the single precision of the samples. *)
Variable fmt : Ieee.format.

(** [a.sum()] of a float array.  The order in which numpy adds the
    entries is its own (pairwise in blocks, and not the same in every
    release), so the sum is left open here. *)
Variable np_sum : list Np.float -> Np.float.

(** [magnitude[mask].sum() if mask.any() else 0] *)
Definition band_power (magnitude : list Np.float) (mask : list bool)
  : Py.t Np.float :=
  if Np.any mask then
    selected <- Np.getitem_mask magnitude mask ;;
    Py.ret (np_sum selected)
  else Py.ret (Np.Fin 0).

Definition low_power (frequencies : list Q) (magnitude : list Np.float)
  : Py.t Np.float :=
  band_power magnitude (Main.low_freq_mask frequencies).

Definition high_power (frequencies : list Q) (magnitude : list Np.float)
  : Py.t Np.float :=
  band_power magnitude (Main.high_freq_mask frequencies).

(** [total_power = low_power + high_power] *)
Definition total_power (low_power high_power : Np.float) : Np.float :=
  Ieee.add fmt low_power high_power.

(**
<<
    if total_power > 0:
        low_ratio = (low_power / total_power) * 100
        high_ratio = (high_power / total_power) * 100
    else:
        low_ratio = high_ratio = 0
>> *)
Definition ratios_of_powers (low_power high_power : Np.float)
  : Np.float * Np.float :=
  let total_power := total_power low_power high_power in
  if Np.gt total_power 0 then
    (Ieee.mul fmt (Ieee.div fmt low_power total_power) (Np.Fin 100),
     Ieee.mul fmt (Ieee.div fmt high_power total_power) (Np.Fin 100))
  else (Np.Fin 0, Np.Fin 0).

Definition ratios (frequencies : list Q) (magnitude : list Np.float)
  : Py.t (Np.float * Np.float) :=
  lp <- low_power frequencies magnitude ;;
  hp <- high_power frequencies magnitude ;;
  Py.ret (ratios_of_powers lp hp).

End Ratios.

End MainFloat.

(** ** matplotlib: mlab.specgram as Axes.specgram calls it *)

Module Mlab.

(** [x[::step]]: the entries at 0, step, 2*step, ... *)
Fixpoint stride_from {A} (step skip : nat) (l : list A) : list A :=
  match l with
  | [] => []
  | x :: l' =>
      match skip with
      | O => x :: stride_from step (step - 1) l'
      | S k => stride_from step k l'
      end
  end.

Definition stride {A} (step : nat) (l : list A) : list A :=
  stride_from step 0 l.

(** [np.lib.stride_tricks.sliding_window_view(x, w)]: every window of
    [w] consecutive entries, [len(x) - w + 1] of them. *)
Definition sliding_window_view (x : list Q) (w : nat) : list (list Q) :=
  map (fun s => firstn w (skipn s x)) (seq 0 (length x - w + 1)).

(**
<<
    if len(x) < NFFT:
        n = len(x)
        x = np.resize(x, NFFT)
        x[n:] = 0
>> *)
Definition zero_pad (x : list Q) (NFFT : nat) : list Q :=
  if (length x <? NFFT)%nat then x ++ repeat 0 (NFFT - length x) else x.

(** [np.arange(start, stop, step)] on floats:
    [ceil((stop - start)/step)] entries. *)
Definition arange_step (start stop step : Q) : list Q :=
  map (fun i => start + inject_Z (Z.of_nat i) * step)
      (seq 0 (Z.to_nat (Qceiling ((stop - start) / step)))).

(** [l[-1] *= -1] *)
Definition negate_last (l : list Q) : list Q :=
  match rev l with
  | [] => []
  | x :: r => rev (- x :: r)
  end.

Section Spectral.

(** The power spectral density of one window of [NFFT] samples
    (detrend, Hanning window, [np.fft.fft], scaling), one value per
    retained frequency. *)
Variable psd : Z -> list Q -> list Q.

(** [_spectral_helper] with [pad_to = NFFT], [sides = 'onesided'] (real
    input) and [mode = 'psd']. *)
Definition specgram (x : list Q) (NFFT : nat) (Fs : Z) (noverlap : nat)
  : Py.t (list (list Q) * list Q * list Q) :=
  if (NFFT <=? noverlap)%nat then Py.raise Py.ValueError
  else
    let x := zero_pad x NFFT in
    let pad_to := NFFT in
    let numFreqs :=
      if Nat.odd pad_to then ((pad_to + 1) / 2)%nat
      else (pad_to / 2 + 1)%nat in
    let windows := stride (NFFT - noverlap) (sliding_window_view x NFFT) in
    let result := map (psd Fs) windows in
    d <- py_inverse Fs ;;
    let freqs := firstn numFreqs (Np.fftfreq (Z.of_nat pad_to) d) in
    let t :=
      map (fun v => v / inject_Z Fs)
          (arange_step (inject_Z (Z.of_nat NFFT) / 2)
             (inject_Z (Z.of_nat (length x)) - inject_Z (Z.of_nat NFFT) / 2 + 1)
             (inject_Z (Z.of_nat (NFFT - noverlap)))) in
    let freqs := if Nat.odd pad_to then freqs else negate_last freqs in
    Py.ret (result, freqs, t).

End Spectral.

End Mlab.

(** ** plot_spectrogram *)

(** What the figure holds: the arrays [ax.specgram] computed (the grid
    has one entry of [spectrum] per time bin, each with one value per
    frequency bin), the colour limits of the image and the limits of the
    frequency axis. *)
Record Figure : Type := {
  spectrum : list (list Q);
  freqs : list Q;
  times : list Q;
  clim : Q * Q;
  ylim : Q * Q
}.

Section Spectrogram.

Variable psd : Z -> list Q -> list Q.

(**
<<
    spectrum, freqs, times, im = ax.specgram(
        audio_data, Fs=sample_rate, NFFT=1024, noverlap=512,
        cmap='plasma', vmin=-80, vmax=0)
    ax.set_ylim(0, 3000)
>> *)
Definition plot_spectrogram (sample_rate : Z) (audio_data : list Q)
  : Py.t Figure :=
  '(spectrum, freqs, times) <-
     Mlab.specgram psd audio_data 1024 sample_rate 512 ;;
  Py.ret {| spectrum := spectrum;
            freqs := freqs;
            times := times;
            clim := (-80, 0);
            ylim := (0, 3000) |}.

End Spectrogram.


(** The number of time indices of a decoded clip. *)
Definition frames (a : Np.ndarray) : nat :=
  match a with
  | Np.IVec _ xs => length xs
  | Np.FVec _ xs => length xs
  | Np.IMat _ rows => length rows
  | Np.FMat _ rows => length rows
  end.

(** ** plot_spectrum *)

(** [a.max()]: numpy refuses an empty array. *)
Definition np_max (a : list Q) : Py.t Q :=
  match a with
  | [] => Py.raise Py.ValueError
  | x :: a' => Py.ret (fold_left Qmax a' x)
  end.

(** What the spectrum figure holds: the curve that [ax.plot] and
    [ax.fill_between] draw, the three vertical guide lines and the
    limits of the two axes. *)
Record SpectrumFigure : Type := {
  line_x : list Q;
  line_y : list Np.float;
  guides : list Q;
  spectrum_xlim : Q * Q;
  spectrum_ylim : Q * Q
}.

(**
<<
    mask = frequencies <= 3000
    freq_filtered = frequencies[mask]
    mag_filtered = magnitude[mask]
    if mag_filtered.max() > 0:
        mag_normalized = mag_filtered / mag_filtered.max()
    else:
        mag_normalized = mag_filtered
    ...
    ax.axvline(x=500, ...); ax.axvline(x=1000, ...); ax.axvline(x=2000, ...)
    ax.set_xlim(0, 3000)
    ax.set_ylim(0, 1.1)
>> *)
Definition plot_spectrum (frequencies magnitude : list Q)
  : Py.t SpectrumFigure :=
  let mask := map (fun f => Qle_bool f 3000) frequencies in
  freq_filtered <- Np.getitem_mask frequencies mask ;;
  mag_filtered <- Np.getitem_mask magnitude mask ;;
  peak <- np_max mag_filtered ;;
  let mag_normalized :=
    if negb (Qle_bool peak 0)
    then map (fun m => Np.true_divide m peak) mag_filtered
    else map Np.Fin mag_filtered in
  Py.ret {| line_x := freq_filtered;
            line_y := mag_normalized;
            guides := [500; 1000; 2000];
            spectrum_xlim := (0, 3000);
            spectrum_ylim := (0, 11 # 10) |}.

(** ** get_api_key *)

Module Key.

(** [st.secrets], [os.environ] and [st.session_state] as they are read
    here: string keys, string values. *)
Definition mapping : Type := list (string * string).

Fixpoint lookup (key : string) (m : mapping) : option string :=
  match m with
  | [] => None
  | (k, v) :: m' => if String.eqb k key then Some v else lookup key m'
  end.

(** Where a key can come from.  Reading [st.secrets] raises when no
    secrets file exists: [None] stands for that. *)
Record sources : Type := {
  secrets : option mapping;
  environ : mapping;
  session_state : mapping
}.

Definition GOOGLE_API_KEY : string := "GOOGLE_API_KEY".
Definition DUMMY : string := "DUMMY_API_KEY_REPLACE_ME".

(** Truth value of a Python string. *)
Definition truthy (s : string) : bool := negb (String.eqb s EmptyString).

(**
<<
    try:
        if "GOOGLE_API_KEY" in st.secrets:
            return st.secrets["GOOGLE_API_KEY"]
    except Exception:
        pass
    api_key = os.getenv("GOOGLE_API_KEY")
    if api_key and api_key != "DUMMY_API_KEY_REPLACE_ME":
        return api_key
    if "user_api_key" in st.session_state and st.session_state.user_api_key:
        return st.session_state.user_api_key
    return None
>> *)
Definition from_secrets (s : sources) : option string :=
  match secrets s with
  | None => None
  | Some m => lookup GOOGLE_API_KEY m
  end.

Definition from_environ (s : sources) : option string :=
  match lookup GOOGLE_API_KEY (environ s) with
  | Some api_key =>
      if truthy api_key && negb (String.eqb api_key DUMMY)
      then Some api_key else None
  | None => None
  end.

Definition from_session (s : sources) : option string :=
  match lookup "user_api_key" (session_state s) with
  | Some user_api_key =>
      if truthy user_api_key then Some user_api_key else None
  | None => None
  end.

Definition get_api_key (s : sources) : option string :=
  match from_secrets s with
  | Some k => Some k
  | None =>
      match from_environ s with
      | Some k => Some k
      | None => from_session s
      end
  end.

(** The second tab of [main]:
<<
    if not api_key:
        st.warning(...); st.info(...)
    else:
        result = analyze_with_gemini(audio_bytes, api_key)
        st.markdown(result)
>>
    The key handed to [analyze_with_gemini], if the call is made. *)
Definition gemini_key (api_key : option string) : option string :=
  match api_key with
  | Some k => if truthy k then Some k else None
  | None => None
  end.

End Key.

(** ** The first tab of main *)

(** What the tab puts on the page, in order. *)
Inductive st_event : Type :=
| Pyplot_spectrum (fig : SpectrumFigure)
| Metric_low (low_ratio : Np.float)
| Metric_high (high_ratio : Np.float)
| Message (v : Main.verdict)
| Markdown_rule
| Subheader_spectrogram
| Caption_spectrogram
| Pyplot_spectrogram (fig : Figure)
| Error (e : Py.exn).

Section Tab.

Variable np_fft : list Q -> list (Q * Q).
Variable np_abs : Q * Q -> Q.
Variable psd : Z -> list Q -> list Q.

(** The format of the magnitudes and [a.sum()] on them. *)
Variable fmt : Ieee.format.
Variable np_sum : list Np.float -> Np.float.

(** The [try] block of the first tab, from the point where
    [wavfile.read] has returned; an exception ends it with [st.error]:
<<
    sample_rate, waveform = load_audio_data(audio_bytes)
    frequencies, magnitude = perform_fft_analysis(sample_rate, waveform)
    fig = plot_spectrum(frequencies, magnitude)
    st.pyplot(fig)
    ... ratios ...
    st.metric(...); st.metric(...)
    st.success(...) / st.warning(...) / st.info(...)
    st.markdown("---"); st.subheader(...); st.caption(...)
    fig_spec = plot_spectrogram(sample_rate, waveform)
    st.pyplot(fig_spec)
>> *)
Definition frequency_tab (decoded : Z * Np.ndarray) : list st_event :=
  let '(sample_rate, waveform) := load_audio_data decoded in
  match perform_fft_analysis np_fft np_abs sample_rate (samples waveform) with
  | inl e => [Error e]
  | inr (frequencies, magnitude) =>
      match plot_spectrum frequencies magnitude with
      | inl e => [Error e]
      | inr fig =>
          Pyplot_spectrum fig ::
          match MainFloat.ratios fmt np_sum frequencies
                  (map Np.Fin magnitude) with
          | inl e => [Error e]
          | inr (low_ratio, high_ratio) =>
              Metric_low low_ratio :: Metric_high high_ratio ::
              Message (Main.judge low_ratio high_ratio) ::
              Markdown_rule :: Subheader_spectrogram :: Caption_spectrogram ::
              match plot_spectrogram psd sample_rate (samples waveform) with
              | inl e => [Error e]
              | inr fig_spec => [Pyplot_spectrogram fig_spec]
              end
          end
      end
  end.

End Tab.

(** ** Transforms on which the statements can be evaluated *)

(** [np.fft.fft] on clips of one or two samples, where it needs no
    trigonometry: [X0 = x0] and [X0 = x0 + x1, X1 = x0 - x1]. *)
Definition small_fft (a : list Q) : list (Q * Q) :=
  match a with
  | [x; y] => [(x + y, 0); (x - y, 0)]
  | _ => map (fun x => (x, 0)) a
  end.

(** [np.abs] on a complex number whose imaginary part is zero. *)
Definition real_abs (c : Q * Q) : Q := Qabs (fst c).

(** The power spectral density of a silent window: 513 zeros. *)
Definition silent_psd (Fs : Z) (window : list Q) : list Q := repeat 0 513.

(** * Properties *)

(** ** Loading *)

Lemma round_f32_small (z : Z) :
  (Z.abs z < 2 ^ 24)%Z -> Np.round_f32 z = z.
Proof.
  intros H. unfold Np.round_f32.
  destruct (Z.eq_dec (Z.abs z) 0) as [E | E].
  - rewrite E. reflexivity.
  - assert (Z.log2 (Z.abs z) < 24)%Z by (apply Z.log2_lt_pow2; lia).
    destruct (Z.leb_spec (Z.log2 (Z.abs z) - 23) 0); [reflexivity | lia].
Qed.

Lemma round_f32_bound (z : Z) :
  (Z.abs z <= 2 ^ 31)%Z -> (Z.abs (Np.round_f32 z) <= 2 ^ 31)%Z.
Proof.
  intros H. unfold Np.round_f32.
  set (a := Z.abs z) in *. set (e := (Z.log2 a - 23)%Z).
  destruct (Z.leb_spec e 0) as [He | He]; [exact H |].
  assert (Ha : (0 < a)%Z).
  { destruct (Z.eq_dec a 0) as [E | E]; [| subst a; lia].
    subst e. rewrite E in He. cbn in He. lia. }
  destruct (Z.log2_spec a Ha) as [Hlo Hhi].
  destruct (Z.eq_dec a (2 ^ 31)) as [E | E].
  - (* the one input of magnitude 2^31 is representable *)
    assert (Hz : (z = 2 ^ 31 \/ z = - 2 ^ 31)%Z) by (subst a; lia).
    clear - Hz. subst e a.
    destruct Hz as [-> | ->]; vm_compute; discriminate.
  - assert (Hl : (Z.log2 a < 31)%Z) by (apply Z.log2_lt_pow2; lia).
    assert (He' : (1 <= e <= 7)%Z) by (subst e; lia).
    rewrite Z.shiftr_div_pow2 by lia.
    assert (Hpe : (0 < 2 ^ e)%Z) by (apply Z.pow_pos_nonneg; lia).
    assert (Hq : (a / 2 ^ e < 2 ^ 24)%Z).
    { apply Z.div_lt_upper_bound; [exact Hpe |].
      rewrite <- Z.pow_add_r by lia.
      replace (e + 24)%Z with (Z.succ (Z.log2 a)) by (subst e; lia).
      exact Hhi. }
    assert (Hq0 : (0 <= a / 2 ^ e)%Z) by (apply Z.div_pos; lia).
    match goal with
    | |- context [if ?c then ?x else ?y] =>
        set (q' := if c then x else y);
        assert (Hq' : (0 <= q' <= 2 ^ 24)%Z) by (subst q'; destruct c; lia)
    end.
    assert (Hb : (q' * 2 ^ e <= 2 ^ 24 * 2 ^ e)%Z)
      by (apply Z.mul_le_mono_nonneg_r; lia).
    assert (Hp : (2 ^ 24 * 2 ^ e <= 2 ^ 31)%Z).
    { rewrite <- Z.pow_add_r by lia. apply Z.pow_le_mono_r; lia. }
    assert (Hn : (0 <= q' * 2 ^ e)%Z) by (apply Z.mul_nonneg_nonneg; lia).
    destruct z; cbn [Z.sgn]; lia.
Qed.

(** The mono path normalises: a 16-bit sample is divided by 32768. *)
Lemma load_mono_int16 (sample_rate : Z) (xs : list Z) :
  Forall (fun x => (- 32768 <= x <= 32767)%Z) xs ->
  load_audio_data (sample_rate, Np.IVec Np.int16 xs)
  = (sample_rate,
     Np.FVec Np.float32 (map (fun x => inject_Z x / 32768) xs)).
Proof.
  intros H. unfold load_audio_data, normalize; cbn [Np.mean_axis1_if_2d].
  do 2 f_equal. apply map_ext_Forall.
  eapply Forall_impl; [| exact H]. intros x Hx. cbn beta in Hx |- *.
  unfold Np.astype_float32. rewrite round_f32_small; [reflexivity |].
  change (2 ^ 24)%Z with 16777216%Z. lia.
Qed.

(** A 32-bit sample is rounded to float32 and divided by 2147483648. *)
Lemma load_mono_int32 (sample_rate : Z) (xs : list Z) :
  load_audio_data (sample_rate, Np.IVec Np.int32 xs)
  = (sample_rate,
     Np.FVec Np.float32
       (map (fun x => inject_Z (Np.round_f32 x) / 2147483648) xs)).
Proof. reflexivity. Qed.

(** Floating-point samples of a mono clip pass through unchanged. *)
Lemma load_mono_float (sample_rate : Z) (dt : Np.fdtype) (xs : list Q) :
  load_audio_data (sample_rate, Np.FVec dt xs) = (sample_rate, Np.FVec dt xs).
Proof. reflexivity. Qed.

Lemma Qdiv_pow2_range (z k : Z) :
  (0 < k)%Z -> (Z.abs z <= k)%Z ->
  - (1) <= inject_Z z / inject_Z k /\ inject_Z z / inject_Z k <= 1.
Proof.
  intros Hk Hz.
  assert (Hk' : 0 < inject_Z k) by (rewrite <- (Zlt_Qlt 0); exact Hk).
  split.
  - apply Qle_shift_div_l; [exact Hk' |].
    setoid_replace (- (1) * inject_Z k) with (inject_Z (- k))
      by (rewrite inject_Z_opp; ring).
    rewrite <- Zle_Qle. lia.
  - apply Qle_shift_div_r; [exact Hk' |].
    rewrite Qmult_1_l. rewrite <- Zle_Qle. lia.
Qed.

(** On the mono path, normalised integer samples lie in [-1, 1]. *)
Lemma load_mono_int16_range (sample_rate : Z) (xs : list Z) :
  Forall (fun x => (- 32768 <= x <= 32767)%Z) xs ->
  Forall (fun s => - (1) <= s /\ s <= 1)
    (samples (snd (load_audio_data (sample_rate, Np.IVec Np.int16 xs)))).
Proof.
  intros H. rewrite load_mono_int16 by exact H. cbn [snd samples].
  apply Forall_map. eapply Forall_impl; [| exact H].
  intros x Hx. cbn beta in Hx |- *.
  apply (Qdiv_pow2_range x 32768); lia.
Qed.

Lemma load_mono_int32_range (sample_rate : Z) (xs : list Z) :
  Forall (fun x => (- 2147483648 <= x <= 2147483647)%Z) xs ->
  Forall (fun s => - (1) <= s /\ s <= 1)
    (samples (snd (load_audio_data (sample_rate, Np.IVec Np.int32 xs)))).
Proof.
  intros H. rewrite load_mono_int32. cbn [snd samples].
  apply Forall_map. eapply Forall_impl; [| exact H].
  intros x Hx. cbn beta in Hx |- *.
  apply (Qdiv_pow2_range (Np.round_f32 x) 2147483648); [lia |].
  change 2147483648%Z with (2 ^ 31)%Z. apply round_f32_bound.
  change (2 ^ 31)%Z with 2147483648%Z. lia.
Qed.

Lemma mean_pair (x : Q) : Np.mean [x; x] == x.
Proof. unfold Np.mean, Np.sum. cbn. field. Qed.

(** For floating-point encodings the mean of two identical channels is
    the channel: the stereo clip loads as the mono clip does. *)
Lemma load_stereo_float_identical
  (sample_rate : Z) (dt : Np.fdtype) (xs : list Q) :
  same_waveform
    (load_audio_data (sample_rate, Np.FMat dt (map (fun x => [x; x]) xs)))
    (load_audio_data (sample_rate, Np.FVec dt xs)).
Proof.
  split; [reflexivity |]. cbn [load_audio_data Np.mean_axis1_if_2d normalize samples snd].
  rewrite map_map. induction xs as [| x xs IH]; cbn [map].
  - constructor.
  - constructor; [apply mean_pair | exact IH].
Qed.

(** For a 16-bit stereo clip the mean has already turned the array into
    float64 when the dtype is tested: the samples keep the integer scale. *)
Lemma load_stereo_int16_unscaled (sample_rate : Z) (xs : list Z) :
  Forall2 Qeq
    (samples (snd (load_audio_data (sample_rate, stereo_int16 xs))))
    (map inject_Z xs).
Proof.
  unfold stereo_int16.
  cbn [load_audio_data Np.mean_axis1_if_2d normalize samples snd].
  rewrite map_map. induction xs as [| x xs IH]; cbn [map].
  - constructor.
  - constructor; [apply mean_pair | exact IH].
Qed.

(** C1 (defect of the code).  The claim: a stereo clip with identical
    left and right channels loads as the same waveform as the mono clip
    of that channel.  For the 16-bit stereo clip whose only frame is
    (16384, 16384) the code returns the sample 16384, for the mono clip
    [16384] it returns 1/2: the two waveforms differ. *)
Theorem stereo_int16_differs_from_mono :
  samples (snd (load_audio_data (44100%Z, stereo_int16 [16384%Z])))
  = [32768 # 2]
  /\ samples (snd (load_audio_data (44100%Z, mono_int16 [16384%Z])))
     = [16384 # 32768]
  /\ ~ same_waveform
         (load_audio_data (44100%Z, stereo_int16 [16384%Z]))
         (load_audio_data (44100%Z, mono_int16 [16384%Z])).
Proof.
  split; [reflexivity |]. split; [reflexivity |].
  intros [_ H]. vm_compute in H. inversion H as [| ? ? ? ? Hq _]; subst.
  vm_compute in Hq. discriminate.
Qed.

(** C7 (defect of the code).  The claim: every signed 16-bit sample is
    divided by 32768, so that the samples lie in [-1, 1].  For the 16-bit
    stereo clip whose only frame is (32767, 32767) the code returns the
    sample 32767, neither 32767/32768 nor a value of [-1, 1]; the mono
    clip [32767] is normalised to 32767/32768. *)
Theorem stereo_int16_not_normalized :
  load_audio_data (8000%Z, Np.IMat Np.int16 [[32767%Z; 32767%Z]])
  = (8000%Z, Np.FVec Np.float64 [65534 # 2])
  /\ ~ (65534 # 2) == inject_Z 32767 / 32768
  /\ ~ (65534 # 2) <= 1
  /\ load_audio_data (8000%Z, Np.IVec Np.int16 [32767%Z])
     = (8000%Z, Np.FVec Np.float32 [32767 # 32768]).
Proof.
  split; [reflexivity |]. split; [| split; [| reflexivity]].
  - intros H. vm_compute in H. discriminate.
  - intros H. vm_compute in H. apply H. reflexivity.
Qed.

(** ** Boolean masks *)

Lemma select_mask_map {A} (f : A -> bool) (l : list A) :
  Np.select_mask l (map f l) = inr (filter f l).
Proof.
  induction l as [| x l IH]; [reflexivity |].
  cbn [map Np.select_mask filter]. rewrite IH. cbn.
  destruct (f x); reflexivity.
Qed.

Lemma getitem_mask_map {A} (f : A -> bool) (l : list A) :
  Np.getitem_mask l (map f l) = inr (filter f l).
Proof.
  destruct l as [| x l]; [reflexivity |].
  apply (select_mask_map f (x :: l)).
Qed.

Lemma getitem_mask_select {A} (a : list A) (mask : list bool) :
  length a = length mask ->
  Np.getitem_mask a mask = Np.select_mask a mask.
Proof.
  intros H. destruct mask as [| b mask]; [| reflexivity].
  destruct a as [| x a]; [reflexivity | discriminate H].
Qed.

Lemma getitem_mask_prefix {A} (a : list A) (k m : nat) :
  length a = (k + m)%nat ->
  Np.getitem_mask a (repeat true k ++ repeat false m) = inr (firstn k a).
Proof.
  intros H.
  rewrite getitem_mask_select by (rewrite length_app, !repeat_length; exact H).
  revert a H. induction k as [| k IH]; intros a H.
  - cbn [repeat app firstn]. revert a H.
    induction m as [| m IHm]; intros [| x a] H; try discriminate H.
    + reflexivity.
    + cbn [repeat Np.select_mask]. rewrite IHm by (cbn in H; lia).
      reflexivity.
  - destruct a as [| x a]; [discriminate H |].
    cbn [repeat app Np.select_mask firstn].
    rewrite IH by (cbn in H; lia). reflexivity.
Qed.

(** A mask of the array's length selects without error. *)
Lemma getitem_mask_combine {A} (a : list A) (mask : list bool) :
  length a = length mask ->
  Np.getitem_mask a mask
  = inr (map fst (filter (fun p => snd p) (combine a mask))).
Proof.
  intros H. rewrite getitem_mask_select by exact H.
  revert mask H. induction a as [| x a IH]; intros [| b mask] H;
    try discriminate H; [reflexivity |].
  cbn [Np.select_mask combine filter snd].
  rewrite IH by (cbn in H; lia). cbn. destruct b; reflexivity.
Qed.

(** ** fftfreq *)

Lemma arange_length (lo hi : Z) :
  length (Np.arange lo hi) = Z.to_nat (hi - lo).
Proof. unfold Np.arange. rewrite length_map, length_seq. reflexivity. Qed.

Lemma arange_In (lo hi k : Z) :
  In k (Np.arange lo hi) <-> (lo <= k < hi)%Z.
Proof.
  unfold Np.arange. rewrite in_map_iff. split.
  - intros [i [<- Hi]]. apply in_seq in Hi. lia.
  - intros H. exists (Z.to_nat (k - lo)). split; [lia |].
    apply in_seq. lia.
Qed.

Lemma inject_Z_nonzero (z : Z) : z <> 0%Z -> ~ inject_Z z == 0.
Proof.
  intros H E. apply H. apply (eq_sym (A := Z)).
  apply (inject_Z_injective 0 z). symmetry. exact E.
Qed.

Lemma bin_width_eq (n sample_rate : Z) :
  (0 < n)%Z -> (0 < sample_rate)%Z ->
  bin_width n sample_rate == inject_Z sample_rate / inject_Z n.
Proof.
  intros Hn Hs. unfold bin_width. field.
  split; apply inject_Z_nonzero; lia.
Qed.

Lemma bin_width_pos (n sample_rate : Z) :
  (0 < n)%Z -> (0 < sample_rate)%Z -> 0 < bin_width n sample_rate.
Proof.
  intros Hn Hs. rewrite bin_width_eq by assumption.
  apply Qlt_shift_div_l.
  - rewrite <- (Zlt_Qlt 0). exact Hn.
  - rewrite Qmult_0_l. rewrite <- (Zlt_Qlt 0). exact Hs.
Qed.

Lemma bin_nonneg (k : Z) (val : Q) :
  0 < val -> (0 <= k)%Z -> Qle_bool 0 (inject_Z k * val) = true.
Proof.
  intros Hv Hk. apply Qle_bool_iff. apply Qmult_le_0_compat.
  - rewrite <- (Zle_Qle 0). exact Hk.
  - apply Qlt_le_weak. exact Hv.
Qed.

Lemma bin_negative (k : Z) (val : Q) :
  0 < val -> (k < 0)%Z -> Qle_bool 0 (inject_Z k * val) = false.
Proof.
  intros Hv Hk. destruct (Qle_bool 0 (inject_Z k * val)) eqn:E; [| reflexivity].
  apply Qle_bool_iff in E. exfalso.
  assert (H : 0 < inject_Z (- k) * val).
  { apply Qmult_lt_0_compat; [| exact Hv].
    rewrite <- (Zlt_Qlt 0). lia. }
  rewrite inject_Z_opp in H.
  apply (Qlt_not_le _ _ H).
  setoid_replace (- inject_Z k * val) with (- (inject_Z k * val)) by ring.
  apply (Qopp_le_compat 0) in E. exact E.
Qed.

Lemma map_const_repeat {A B} (f : A -> B) (b : B) (l : list A) :
  (forall x, In x l -> f x = b) -> map f l = repeat b (length l).
Proof.
  induction l as [| x l IH]; intros H; [reflexivity |].
  cbn [map length repeat]. rewrite (H x) by (left; reflexivity).
  rewrite IH; [reflexivity |]. intros y Hy. apply H. right. exact Hy.
Qed.

(** The mask [frequencies >= 0] is true on the first [(n-1)//2 + 1]
    entries of [fftfreq] and false on the [n//2] mirrored ones. *)
Lemma positive_mask_fftfreq (n sample_rate : Z) :
  (0 < n)%Z -> (0 < sample_rate)%Z ->
  positive_mask (Np.fftfreq n (1 / inject_Z sample_rate))
  = repeat true (Z.to_nat ((n - 1) / 2 + 1)) ++ repeat false (Z.to_nat (n / 2)).
Proof.
  intros Hn Hs. unfold positive_mask, Np.fftfreq.
  fold (bin_width n sample_rate).
  pose proof (bin_width_pos n sample_rate Hn Hs) as Hv.
  rewrite map_map, map_app. f_equal.
  - rewrite (map_const_repeat _ true).
    + rewrite arange_length. f_equal. lia.
    + intros k Hk. apply arange_In in Hk. apply bin_nonneg; [exact Hv | lia].
  - rewrite (map_const_repeat _ false).
    + rewrite arange_length. f_equal. lia.
    + intros k Hk. apply arange_In in Hk. apply bin_negative; [exact Hv | lia].
Qed.

Lemma half_split (n : Z) : (0 < n)%Z -> ((n - 1) / 2 + 1 + n / 2 = n)%Z.
Proof.
  intros Hn.
  pose proof (Z.div_mod n 2 ltac:(lia)).
  pose proof (Z.mod_pos_bound n 2 ltac:(lia)).
  pose proof (Z.div_mod (n - 1) 2 ltac:(lia)).
  pose proof (Z.mod_pos_bound (n - 1) 2 ltac:(lia)).
  lia.
Qed.

Lemma fftfreq_length (n : Z) (d : Q) :
  (0 < n)%Z -> length (Np.fftfreq n d) = Z.to_nat n.
Proof.
  intros Hn. unfold Np.fftfreq.
  rewrite length_map, length_app, !arange_length.
  pose proof (half_split n Hn).
  assert (0 <= (n - 1) / 2)%Z by (apply Z.div_pos; lia).
  assert (0 <= n / 2)%Z by (apply Z.div_pos; lia).
  lia.
Qed.

Lemma firstn_fftfreq (n : Z) (d : Q) :
  firstn (Z.to_nat ((n - 1) / 2 + 1)) (Np.fftfreq n d)
  = map (fun k => inject_Z k * (1 / (inject_Z n * d)))
        (Np.arange 0 ((n - 1) / 2 + 1)).
Proof.
  unfold Np.fftfreq. rewrite map_app.
  rewrite firstn_app.
  rewrite length_map, arange_length.
  replace (Z.to_nat ((n - 1) / 2 + 1) - Z.to_nat ((n - 1) / 2 + 1 - 0))%nat
    with 0%nat by lia.
  rewrite firstn_O, app_nil_r. apply firstn_all2.
  rewrite length_map, arange_length. lia.
Qed.

Lemma filter_fftfreq (n sample_rate : Z) :
  (0 < n)%Z -> (0 < sample_rate)%Z ->
  filter (fun f => Qle_bool 0 f) (Np.fftfreq n (1 / inject_Z sample_rate))
  = map (fun k => inject_Z k * bin_width n sample_rate)
        (Np.arange 0 ((n - 1) / 2 + 1)).
Proof.
  intros Hn Hs.
  pose proof (half_split n Hn).
  assert (0 <= (n - 1) / 2)%Z by (apply Z.div_pos; lia).
  assert (0 <= n / 2)%Z by (apply Z.div_pos; lia).
  assert (E : @inr Py.exn _
                (filter (fun f => Qle_bool 0 f)
                   (Np.fftfreq n (1 / inject_Z sample_rate)))
              = inr (map (fun k => inject_Z k * bin_width n sample_rate)
                       (Np.arange 0 ((n - 1) / 2 + 1)))).
  { rewrite <- getitem_mask_map.
    fold (positive_mask (Np.fftfreq n (1 / inject_Z sample_rate))).
    rewrite positive_mask_fftfreq by assumption.
    rewrite getitem_mask_prefix by (rewrite fftfreq_length; lia).
    rewrite firstn_fftfreq. reflexivity. }
  injection E as E. exact E.
Qed.

(** ** perform_fft_analysis *)

Section TransformFacts.

Variable np_fft : list Q -> list (Q * Q).
Variable np_abs : Q * Q -> Q.

(** [np.fft.fft] returns one coefficient per input sample. *)
Hypothesis np_fft_length : forall a, length (np_fft a) = length a.

(** What the function returns on a non-empty clip with a positive
    rate: the first [(n-1)//2 + 1] bins, frequency and modulus. *)
Lemma perform_fft_analysis_eq (sample_rate : Z) (audio_data : list Q) :
  (0 < sample_rate)%Z -> audio_data <> [] ->
  perform_fft_analysis np_fft np_abs sample_rate audio_data
  = inr (map (fun k => inject_Z k
                       * bin_width (Z.of_nat (length audio_data)) sample_rate)
             (Np.arange 0 (retained (length audio_data))),
         map np_abs
             (firstn (Z.to_nat (retained (length audio_data)))
                     (np_fft audio_data))).
Proof.
  intros Hs Ha. unfold perform_fft_analysis, fft, py_inverse, retained.
  destruct audio_data as [| x l] eqn:El; [contradiction |].
  rewrite <- El in *. cbn [Py.bind Py.ret].
  destruct (Z.eqb_spec sample_rate 0) as [E | _]; [lia |].
  cbn [Py.bind Py.ret].
  assert (Hn : (0 < Z.of_nat (length audio_data))%Z) by (subst; cbn; lia).
  pose proof (half_split _ Hn) as Hh.
  assert (0 <= (Z.of_nat (length audio_data) - 1) / 2)%Z
    by (apply Z.div_pos; lia).
  assert (0 <= Z.of_nat (length audio_data) / 2)%Z
    by (apply Z.div_pos; lia).
  unfold positive_mask at 1. rewrite getitem_mask_map.
  fold (positive_mask (Np.fftfreq (Z.of_nat (length audio_data))
                         (1 / inject_Z sample_rate))).
  rewrite positive_mask_fftfreq by assumption.
  rewrite getitem_mask_prefix by (rewrite np_fft_length; lia).
  cbn [Py.bind Py.ret]. unfold Py.ret. do 2 f_equal.
  apply filter_fftfreq; assumption.
Qed.

Lemma sorted_map_seq (g : nat -> Q) (a n : nat) :
  (forall i j, (i <= j)%nat -> g i <= g j) ->
  StronglySorted Qle (map g (seq a n)).
Proof.
  intros Hg. revert a. induction n as [| n IH]; intros a; cbn [seq map].
  - constructor.
  - constructor; [apply IH |].
    apply Forall_map, Forall_forall. intros i Hi. apply in_seq in Hi.
    apply Hg. lia.
Qed.

Lemma Forall2_map_same {A B} (R : B -> B -> Prop) (f g : A -> B) (l : list A) :
  (forall x, In x l -> R (f x) (g x)) -> Forall2 R (map f l) (map g l).
Proof.
  induction l as [| x l IH]; intros H; cbn [map]; constructor.
  - apply H. left. reflexivity.
  - apply IH. intros y Hy. apply H. right. exact Hy.
Qed.

Lemma retained_ceil_half (n : nat) :
  (0 < n)%nat -> Z.to_nat (retained n) = ((n + 1) / 2)%nat.
Proof.
  intros Hn. unfold retained.
  replace ((Z.of_nat n - 1) / 2 + 1)%Z with (Z.of_nat (n + 1) / Z.of_nat 2)%Z.
  - rewrite <- Nat2Z.inj_div. apply Nat2Z.id.
  - rewrite <- (Z.div_add _ 1 2) by lia. f_equal. lia.
Qed.

(** C6.  On a non-empty clip (with a positive sample rate) the function
    returns frequencies and magnitudes of the same length, the
    frequencies in non-decreasing order, and entry [i] of both arrays
    belongs to bin [i] of the transform: the frequency is entry [i] of
    [fftfreq] and the magnitude is the modulus of coefficient [i]. *)
Theorem spectrum_aligned_and_sorted (sample_rate : Z) (audio_data : list Q) :
  (0 < sample_rate)%Z -> audio_data <> [] ->
  exists frequencies magnitude,
    perform_fft_analysis np_fft np_abs sample_rate audio_data
    = inr (frequencies, magnitude)
    /\ length frequencies = length magnitude
    /\ StronglySorted Qle frequencies
    /\ frequencies
       = firstn (length frequencies)
           (Np.fftfreq (Z.of_nat (length audio_data))
              (1 / inject_Z sample_rate))
    /\ magnitude
       = map np_abs (firstn (length frequencies) (np_fft audio_data)).
Proof.
  intros Hs Ha.
  assert (Hn : (0 < Z.of_nat (length audio_data))%Z)
    by (destruct audio_data; [contradiction | cbn; lia]).
  pose proof (half_split _ Hn) as Hh.
  assert (H0 : (0 <= (Z.of_nat (length audio_data) - 1) / 2)%Z)
    by (apply Z.div_pos; lia).
  assert (H1 : (0 <= Z.of_nat (length audio_data) / 2)%Z)
    by (apply Z.div_pos; lia).
  eexists. eexists. split; [apply perform_fft_analysis_eq; assumption |].
  assert (Hlen : length
            (map (fun k => inject_Z k
                    * bin_width (Z.of_nat (length audio_data)) sample_rate)
               (Np.arange 0 (retained (length audio_data))))
          = Z.to_nat (retained (length audio_data))).
  { rewrite length_map, arange_length. f_equal. lia. }
  rewrite Hlen. repeat split.
  - rewrite length_map, length_firstn, np_fft_length.
    unfold retained. lia.
  - unfold Np.arange. rewrite map_map. apply sorted_map_seq.
    intros i j Hij. apply Qmult_le_compat_r.
    + rewrite <- Zle_Qle. lia.
    + apply Qlt_le_weak, bin_width_pos; assumption.
  - unfold retained. rewrite firstn_fftfreq. reflexivity.
Qed.

(** C9.  On a non-empty clip of [n] samples the retained frequencies
    are exactly the entries of [fftfreq] that are not negative, that is
    [k * sample_rate / n] for [k = 0, ..., ceil(n/2) - 1]: 0 Hz comes
    first, and for an even [n] every retained frequency is below
    [sample_rate / 2], so the Nyquist bin is not among them. *)
Theorem retained_frequencies (sample_rate : Z) (audio_data : list Q) :
  (0 < sample_rate)%Z -> audio_data <> [] ->
  exists frequencies magnitude,
    perform_fft_analysis np_fft np_abs sample_rate audio_data
    = inr (frequencies, magnitude)
    /\ frequencies
       = filter (fun f => Qle_bool 0 f)
           (Np.fftfreq (Z.of_nat (length audio_data))
              (1 / inject_Z sample_rate))
    /\ Forall2 Qeq frequencies
         (map (fun k => inject_Z (Z.of_nat k) * inject_Z sample_rate
                        / inject_Z (Z.of_nat (length audio_data)))
              (seq 0 ((length audio_data + 1) / 2)))
    /\ (exists f rest, frequencies = f :: rest /\ f == 0)
    /\ (Nat.even (length audio_data) = true ->
        Forall (fun f => f < inject_Z sample_rate / 2) frequencies).
Proof.
  intros Hs Ha.
  assert (Hn0 : (0 < length audio_data)%nat)
    by (destruct audio_data; [contradiction | cbn; lia]).
  assert (Hn : (0 < Z.of_nat (length audio_data))%Z) by lia.
  set (n := length audio_data) in *.
  eexists. eexists. split; [apply perform_fft_analysis_eq; assumption |].
  fold n. split; [| split; [| split]].
  - symmetry. apply filter_fftfreq; assumption.
  - unfold Np.arange. rewrite map_map, Z.sub_0_r, retained_ceil_half by exact Hn0.
    apply Forall2_map_same. intros i _. cbn beta.
    rewrite bin_width_eq by assumption. rewrite Z.add_0_l.
    field. apply inject_Z_nonzero. lia.
  - unfold Np.arange. rewrite Z.sub_0_r, retained_ceil_half by exact Hn0.
    destruct ((n + 1) / 2)%nat as [| m] eqn:Em.
    + exfalso. pose proof (Nat.div_str_pos (n + 1) 2 ltac:(lia)). lia.
    + cbn [seq map]. eexists. eexists. split; [reflexivity |].
      cbn. ring.
  - intros Hev. apply Forall_map, Forall_forall. intros k Hk.
    apply arange_In in Hk.
    assert (Hk2 : (2 * k + 2 <= Z.of_nat n)%Z).
    { apply Nat.even_spec in Hev. destruct Hev as [m Hm].
      unfold retained in Hk.
      pose proof (Z.div_mod (Z.of_nat n - 1) 2 ltac:(lia)).
      pose proof (Z.mod_pos_bound (Z.of_nat n - 1) 2 ltac:(lia)).
      lia. }
    rewrite bin_width_eq by assumption.
    set (w := inject_Z sample_rate / inject_Z (Z.of_nat n)).
    assert (Hw : 0 < w) by (subst w; rewrite <- bin_width_eq by assumption;
                            apply bin_width_pos; assumption).
    assert (Ew : inject_Z sample_rate == w * inject_Z (Z.of_nat n)).
    { subst w. field. apply inject_Z_nonzero. lia. }
    rewrite Ew.
    assert (Hq : inject_Z (2 * k + 2) <= inject_Z (Z.of_nat n))
      by (rewrite <- Zle_Qle; exact Hk2).
    rewrite inject_Z_plus, inject_Z_mult in Hq.
    assert (Hp : 0 < w * (inject_Z (Z.of_nat n) - 2 * inject_Z k)).
    { apply Qmult_lt_0_compat; [exact Hw |].
      change (inject_Z 2) with 2 in Hq. lra. }
    apply Qlt_shift_div_l; [reflexivity |]. lra.
Qed.

End TransformFacts.

(** ** Band ratios and verdict *)

Lemma select_by_frequency (g : Q -> bool) (frequencies magnitude : list Q) :
  length frequencies = length magnitude ->
  map fst (filter (fun p => snd p) (combine magnitude (map g frequencies)))
  = map snd (filter (fun p => g (fst p)) (combine frequencies magnitude)).
Proof.
  revert magnitude.
  induction frequencies as [| f fr IH]; intros [| m mag] H;
    try discriminate H; [reflexivity |].
  cbn [map combine filter fst snd].
  destruct (g f); cbn [map fst snd]; rewrite IH by (cbn in H; lia);
    reflexivity.
Qed.

Lemma nothing_selected (g : Q -> bool) (frequencies magnitude : list Q) :
  Np.any (map g frequencies) = false ->
  filter (fun p => g (fst p)) (combine frequencies magnitude) = [].
Proof.
  revert magnitude.
  induction frequencies as [| f fr IH]; intros [| m mag] H;
    try reflexivity.
  unfold Np.any in *. cbn [map existsb] in H.
  apply orb_false_iff in H. destruct H as [Hf Hr].
  cbn [combine filter fst]. rewrite Hf. apply IH. exact Hr.
Qed.

(** The code's band power is the band energy of the specification. *)
Lemma band_power_energy (lo hi : Q) (frequencies magnitude : list Q) :
  length frequencies = length magnitude ->
  Main.band_power magnitude (map (in_band lo hi) frequencies)
  = inr (band_energy lo hi frequencies magnitude).
Proof.
  intros H. unfold Main.band_power, band_energy.
  destruct (Np.any (map (in_band lo hi) frequencies)) eqn:E.
  - rewrite getitem_mask_combine by (rewrite length_map; symmetry; exact H).
    cbn [Py.bind Py.ret]. rewrite select_by_frequency by exact H.
    reflexivity.
  - rewrite (nothing_selected (in_band lo hi)) by exact E. reflexivity.
Qed.

Lemma low_power_energy (frequencies magnitude : list Q) :
  length frequencies = length magnitude ->
  Main.low_power frequencies magnitude
  = inr (band_energy 0 500 frequencies magnitude).
Proof. apply (band_power_energy 0 500). Qed.

Lemma high_power_energy (frequencies magnitude : list Q) :
  length frequencies = length magnitude ->
  Main.high_power frequencies magnitude
  = inr (band_energy 1000 3000 frequencies magnitude).
Proof. apply (band_power_energy 1000 3000). Qed.

Lemma ratios_energy (frequencies magnitude : list Q) :
  length frequencies = length magnitude ->
  Main.ratios frequencies magnitude
  = inr (Main.ratios_of_powers
           (band_energy 0 500 frequencies magnitude)
           (band_energy 1000 3000 frequencies magnitude)).
Proof.
  intros H. unfold Main.ratios.
  rewrite low_power_energy, high_power_energy by exact H. reflexivity.
Qed.

Lemma Qle_bool_false (x y : Q) : Qle_bool x y = false <-> y < x.
Proof.
  split; intros H.
  - apply Qnot_le_lt. intros Hle. apply Qle_bool_iff in Hle. congruence.
  - destruct (Qle_bool x y) eqn:E; [| reflexivity].
    apply Qle_bool_iff in E. exfalso. exact (Qlt_not_le _ _ H E).
Qed.

Lemma Qeq_bool_false (x y : Q) : ~ x == y -> Qeq_bool x y = false.
Proof.
  intros H. destruct (Qeq_bool x y) eqn:E; [| reflexivity].
  apply Qeq_bool_iff in E. contradiction.
Qed.

Lemma ratios_of_powers_nonpositive (low high : Q) :
  low + high <= 0 ->
  Main.ratios_of_powers low high = (Np.Fin 0, Np.Fin 0).
Proof.
  intros H. unfold Main.ratios_of_powers.
  rewrite (proj2 (Qle_bool_iff _ _) H). reflexivity.
Qed.

Lemma judge_normal (low_ratio : Q) (high_ratio : Np.float) :
  70 < low_ratio ->
  Main.judge (Np.Fin low_ratio) high_ratio = Main.NORMAL_LEANING.
Proof.
  intros H. unfold Main.judge, Np.gt.
  rewrite (proj2 (Qle_bool_false _ _) H). reflexivity.
Qed.

Lemma judge_stenosis (low_ratio high_ratio : Q) :
  low_ratio <= 70 -> 40 < high_ratio ->
  Main.judge (Np.Fin low_ratio) (Np.Fin high_ratio) = Main.STENOSIS_LEANING.
Proof.
  intros Hl Hh. unfold Main.judge, Np.gt.
  rewrite (proj2 (Qle_bool_iff _ _) Hl), (proj2 (Qle_bool_false _ _) Hh).
  reflexivity.
Qed.

Lemma judge_mixed (low_ratio high_ratio : Q) :
  low_ratio <= 70 -> high_ratio <= 40 ->
  Main.judge (Np.Fin low_ratio) (Np.Fin high_ratio) = Main.MIXED.
Proof.
  intros Hl Hh. unfold Main.judge, Np.gt.
  rewrite (proj2 (Qle_bool_iff _ _) Hl), (proj2 (Qle_bool_iff _ _) Hh).
  reflexivity.
Qed.

(** C4.  The verdict follows three rules in order: [low_ratio > 70]
    gives NORMAL_LEANING; otherwise [high_ratio > 40] gives
    STENOSIS_LEANING; otherwise MIXED.  So (80, 10) is NORMAL_LEANING,
    (30, 50) is STENOSIS_LEANING and (50, 20) is MIXED. *)
Theorem judge_three_rules (low_ratio high_ratio : Q) :
  (Main.judge (Np.Fin low_ratio) (Np.Fin high_ratio) = Main.NORMAL_LEANING
   <-> 70 < low_ratio)
  /\ (Main.judge (Np.Fin low_ratio) (Np.Fin high_ratio) = Main.STENOSIS_LEANING
      <-> low_ratio <= 70 /\ 40 < high_ratio)
  /\ (Main.judge (Np.Fin low_ratio) (Np.Fin high_ratio) = Main.MIXED
      <-> low_ratio <= 70 /\ high_ratio <= 40)
  /\ Main.judge (Np.Fin 80) (Np.Fin 10) = Main.NORMAL_LEANING
  /\ Main.judge (Np.Fin 30) (Np.Fin 50) = Main.STENOSIS_LEANING
  /\ Main.judge (Np.Fin 50) (Np.Fin 20) = Main.MIXED.
Proof.
  split; [| split; [| split; [| repeat split; reflexivity]]].
  - split; [| apply judge_normal].
    intros E. destruct (Qlt_le_dec 70 low_ratio) as [Hl | Hl]; [exact Hl |].
    destruct (Qlt_le_dec 40 high_ratio) as [Hh | Hh].
    + rewrite judge_stenosis in E by assumption. discriminate E.
    + rewrite judge_mixed in E by assumption. discriminate E.
  - split; [| intros [Hl Hh]; apply judge_stenosis; assumption].
    intros E. destruct (Qlt_le_dec 70 low_ratio) as [Hl | Hl].
    + rewrite judge_normal in E by assumption. discriminate E.
    + destruct (Qlt_le_dec 40 high_ratio) as [Hh | Hh].
      * split; assumption.
      * rewrite judge_mixed in E by assumption. discriminate E.
  - split; [| intros [Hl Hh]; apply judge_mixed; assumption].
    intros E. destruct (Qlt_le_dec 70 low_ratio) as [Hl | Hl].
    + rewrite judge_normal in E by assumption. discriminate E.
    + destruct (Qlt_le_dec 40 high_ratio) as [Hh | Hh].
      * rewrite judge_stenosis in E by assumption. discriminate E.
      * split; assumption.
Qed.

(** C10.  When the energy of the two bands sums to zero, both ratios are
    0, neither threshold is exceeded, and the verdict is MIXED. *)
Theorem silence_is_mixed (frequencies magnitude : list Q) :
  length frequencies = length magnitude ->
  band_energy 0 500 frequencies magnitude
  + band_energy 1000 3000 frequencies magnitude == 0 ->
  Main.classify frequencies magnitude
  = inr (Np.Fin 0, Np.Fin 0, Main.MIXED).
Proof.
  intros Hlen E. unfold Main.classify.
  rewrite ratios_energy by exact Hlen.
  rewrite ratios_of_powers_nonpositive by (rewrite E; apply Qle_refl).
  reflexivity.
Qed.

(** ** Floating-point rounding *)

Lemma Qabs_nonneg_eq (q : Q) : 0 <= q -> Qabs q = q.
Proof.
  destruct q as [n d]. unfold Qle, Qabs. cbn. intros H.
  f_equal. apply Z.abs_eq. lia.
Qed.

Lemma pow2_pos (e : Z) : 0 < Ieee.pow2 e.
Proof. apply Qpower_0_lt. reflexivity. Qed.

Lemma pow2_nonzero (e : Z) : ~ Ieee.pow2 e == 0.
Proof. intros E. pose proof (pow2_pos e) as H. rewrite E in H. discriminate H. Qed.

Lemma pow2_add (a b : Z) : Ieee.pow2 (a + b) == Ieee.pow2 a * Ieee.pow2 b.
Proof. apply Qpower_plus. discriminate. Qed.

Lemma pow2_opp (a : Z) : Ieee.pow2 (- a) == / Ieee.pow2 a.
Proof. apply Qpower_opp. Qed.

Lemma pow2_Z (a : Z) : (0 <= a)%Z -> Ieee.pow2 a == inject_Z (2 ^ a).
Proof. intros H. symmetry. apply (Zpower_Qpower 2 a H). Qed.

Lemma pow2_le (a b : Z) : (a <= b)%Z -> Ieee.pow2 a <= Ieee.pow2 b.
Proof. intros H. apply Qpower_le_compat_l; [exact H | discriminate]. Qed.

Lemma pow2_lt (a b : Z) : (a < b)%Z -> Ieee.pow2 a < Ieee.pow2 b.
Proof. intros H. apply Qpower_lt_compat_l; [exact H | reflexivity]. Qed.

Lemma pow2_lt_inv (a b : Z) : Ieee.pow2 a < Ieee.pow2 b -> (a < b)%Z.
Proof. intros H. apply (Qpower_lt_compat_l_inv 2); [exact H | reflexivity]. Qed.

Lemma pow2_split (a b : Z) :
  (b <= a)%Z -> Ieee.pow2 a == inject_Z (2 ^ (a - b)) * Ieee.pow2 b.
Proof.
  intros H. rewrite <- pow2_Z by lia. rewrite <- pow2_add.
  replace (a - b + b)%Z with a by lia. reflexivity.
Qed.

Lemma pow2_frac (x y : Z) :
  (0 <= x)%Z -> (0 <= y)%Z ->
  Ieee.pow2 (x - y) == inject_Z (2 ^ x) / inject_Z (2 ^ y).
Proof.
  intros Hx Hy. unfold Z.sub. rewrite pow2_add, pow2_opp.
  rewrite (pow2_Z x Hx), (pow2_Z y Hy). reflexivity.
Qed.

Lemma div_lt_div (a b c d : Z) :
  (0 < b)%Z -> (0 < d)%Z -> (a * d < c * b)%Z ->
  inject_Z a / inject_Z b < inject_Z c / inject_Z d.
Proof.
  intros Hb Hd H.
  assert (Hb' : 0 < inject_Z b) by (rewrite <- (Zlt_Qlt 0); exact Hb).
  assert (Hd' : 0 < inject_Z d) by (rewrite <- (Zlt_Qlt 0); exact Hd).
  apply Qlt_shift_div_r; [exact Hb' |].
  setoid_replace (inject_Z c / inject_Z d * inject_Z b)
    with (inject_Z c * inject_Z b / inject_Z d)
    by (field; intros E; rewrite E in Hd'; discriminate Hd').
  apply Qlt_shift_div_l; [exact Hd' |].
  rewrite <- !inject_Z_mult, <- Zlt_Qlt. exact H.
Qed.

Lemma div_le_div (a b c d : Z) :
  (0 < b)%Z -> (0 < d)%Z -> (a * d <= c * b)%Z ->
  inject_Z a / inject_Z b <= inject_Z c / inject_Z d.
Proof.
  intros Hb Hd H.
  assert (Hb' : 0 < inject_Z b) by (rewrite <- (Zlt_Qlt 0); exact Hb).
  assert (Hd' : 0 < inject_Z d) by (rewrite <- (Zlt_Qlt 0); exact Hd).
  apply Qle_shift_div_r; [exact Hb' |].
  setoid_replace (inject_Z c / inject_Z d * inject_Z b)
    with (inject_Z c * inject_Z b / inject_Z d)
    by (field; intros E; rewrite E in Hd'; discriminate Hd').
  apply Qle_shift_div_l; [exact Hd' |].
  rewrite <- !inject_Z_mult, <- Zle_Qle. exact H.
Qed.

(** [ilog2 q] is the exponent of the power of two at or below [q]. *)
Lemma ilog2_spec (q : Q) :
  0 < q -> Ieee.pow2 (Ieee.ilog2 q) <= q /\ q < Ieee.pow2 (Ieee.ilog2 q + 1).
Proof.
  intros Hq. destruct q as [n d]. unfold Ieee.ilog2. cbn [Qnum Qden].
  assert (Hn : (0 < n)%Z) by (unfold Qlt in Hq; cbn in Hq; lia).
  destruct (Z.log2_spec n Hn) as [Hn1 Hn2].
  destruct (Z.log2_spec (Zpos d) ltac:(lia)) as [Hd1 Hd2].
  pose proof (Z.log2_nonneg n) as Hln.
  pose proof (Z.log2_nonneg (Zpos d)) as Hld.
  set (ln := Z.log2 n) in *. set (ld := Z.log2 (Zpos d)) in *.
  assert (Hp1 : (0 < 2 ^ ln)%Z) by (apply Z.pow_pos_nonneg; lia).
  assert (Hp2 : (0 < 2 ^ ld)%Z) by (apply Z.pow_pos_nonneg; lia).
  rewrite Z.pow_succ_r in Hn2, Hd2 by lia.
  assert (Hs1 : (2 ^ (ln + 1) = 2 * 2 ^ ln)%Z)
    by (replace (ln + 1)%Z with (Z.succ ln) by lia;
        apply Z.pow_succ_r; lia).
  assert (Hs2 : (2 ^ (ld + 1) = 2 * 2 ^ ld)%Z)
    by (replace (ld + 1)%Z with (Z.succ ld) by lia;
        apply Z.pow_succ_r; lia).
  destruct (Qle_bool (Ieee.pow2 (ln - ld)) (n # d)) eqn:E.
  - split; [apply Qle_bool_iff; exact E |].
    replace (ln - ld + 1)%Z with ((ln + 1) - ld)%Z by lia.
    rewrite pow2_frac by lia. rewrite (Qmake_Qdiv n d).
    apply div_lt_div; [lia | lia |]. rewrite Hs1. nia.
  - split.
    + replace (ln - ld - 1)%Z with (ln - (ld + 1))%Z by lia.
      rewrite pow2_frac by lia. rewrite (Qmake_Qdiv n d).
      apply div_le_div; [lia | lia |]. rewrite Hs2. nia.
    + replace (ln - ld - 1 + 1)%Z with (ln - ld)%Z by lia.
      apply Qle_bool_false. exact E.
Qed.

Lemma nearest_even_error (x : Q) :
  - (1 # 2) <= inject_Z (Ieee.nearest_even x) - x
  /\ inject_Z (Ieee.nearest_even x) - x <= 1 # 2.
Proof.
  unfold Ieee.nearest_even.
  pose proof (Qfloor_le x) as H1. pose proof (Qlt_floor x) as H2.
  rewrite inject_Z_plus in H2. change (inject_Z 1) with 1 in H2.
  set (f := Qfloor x) in *.
  destruct (Qcompare (x - inject_Z f) (1 # 2)) eqn:E.
  - apply Qeq_alt in E.
    destruct (Z.even f); [| rewrite inject_Z_plus; change (inject_Z 1) with 1];
      split; lra.
  - apply Qlt_alt in E. split; lra.
  - apply Qgt_alt in E. rewrite inject_Z_plus. change (inject_Z 1) with 1.
    split; lra.
Qed.

Lemma nearest_even_Z (x : Q) (k : Z) :
  x == inject_Z k -> Ieee.nearest_even x = k.
Proof.
  intros E. unfold Ieee.nearest_even.
  assert (Hf : Qfloor x = k) by (rewrite E; apply Qfloor_Z).
  rewrite Hf.
  assert (Hc : Qcompare (x - inject_Z k) (1 # 2) = Lt).
  { apply Qlt_alt. rewrite E.
    setoid_replace (inject_Z k - inject_Z k) with 0 by ring. reflexivity. }
  rewrite Hc. reflexivity.
Qed.

(** Rounding does not cross an integer. *)
Lemma nearest_even_ge (x : Q) (k : Z) :
  inject_Z k <= x -> (k <= Ieee.nearest_even x)%Z.
Proof.
  intros H. unfold Ieee.nearest_even.
  assert (Hf : (k <= Qfloor x)%Z).
  { rewrite <- (Qfloor_Z k). apply Qfloor_resp_le. exact H. }
  destruct (Qcompare _ _); try destruct (Z.even _); lia.
Qed.

Lemma nearest_even_le (x : Q) (k : Z) :
  x <= inject_Z k -> (Ieee.nearest_even x <= k)%Z.
Proof.
  intros H.
  assert (Hf : (Qfloor x <= k)%Z).
  { rewrite <- (Qfloor_Z k). apply Qfloor_resp_le. exact H. }
  destruct (Z.eq_dec (Qfloor x) k) as [E | E].
  - assert (Hx : x == inject_Z k).
    { apply Qle_antisym; [exact H |]. rewrite <- E. apply Qfloor_le. }
    rewrite (nearest_even_Z x k Hx). lia.
  - unfold Ieee.nearest_even.
    destruct (Qcompare _ _); try destruct (Z.even _); lia.
Qed.

Lemma nearest_even_nonneg (x : Q) : 0 <= x -> (0 <= Ieee.nearest_even x)%Z.
Proof. intros H. apply nearest_even_ge. exact H. Qed.

Section Rounding.

Variable fmt : Ieee.format.

Lemma quantum_pos (q : Q) : 0 < Ieee.quantum fmt q.
Proof. apply pow2_pos. Qed.

Lemma rnd_zero (q : Q) : q == 0 -> Ieee.rnd fmt q = 0.
Proof.
  intros E. unfold Ieee.rnd. rewrite (proj2 (Qeq_bool_iff q 0) E). reflexivity.
Qed.

Lemma rnd_pos_eq (q : Q) :
  0 < q ->
  Ieee.rnd fmt q
  = inject_Z (Ieee.nearest_even (q / Ieee.quantum fmt q)) * Ieee.quantum fmt q.
Proof.
  intros H. unfold Ieee.rnd.
  destruct (Qeq_bool q 0) eqn:E; [| reflexivity].
  apply Qeq_bool_iff in E. rewrite E in H. discriminate H.
Qed.

(** The exponent of the spacing at a positive [q]. *)
Lemma quantum_pos_eq (q : Q) :
  0 < q ->
  Ieee.quantum fmt q
  = Ieee.pow2 (Z.max (Ieee.ilog2 q - (Ieee.prec fmt - 1)) (Ieee.emin fmt)).
Proof.
  intros H. unfold Ieee.quantum.
  rewrite (Qabs_nonneg_eq q) by (apply Qlt_le_weak, H). reflexivity.
Qed.

(** The spacing around [q] is at most [2^(1-prec)] times [q], or it is
    the smallest positive number. *)
Lemma quantum_bound (q : Q) :
  0 < q ->
  Ieee.quantum fmt q <= q * Ieee.pow2 (1 - Ieee.prec fmt)
  \/ Ieee.quantum fmt q = Ieee.pow2 (Ieee.emin fmt).
Proof.
  intros H. rewrite (quantum_pos_eq q H).
  destruct (ilog2_spec q H) as [H1 _].
  destruct (Z.max_spec (Ieee.ilog2 q - (Ieee.prec fmt - 1)) (Ieee.emin fmt))
    as [[_ ->] | [_ ->]].
  - right. reflexivity.
  - left.
    replace (Ieee.ilog2 q - (Ieee.prec fmt - 1))%Z
      with (Ieee.ilog2 q + (1 - Ieee.prec fmt))%Z by lia.
    rewrite pow2_add.
    apply Qmult_le_compat_r; [exact H1 | apply Qlt_le_weak, pow2_pos].
Qed.

Lemma quantum_normal (q : Q) :
  Ieee.pow2 (Ieee.emin fmt + Ieee.prec fmt - 1) <= q ->
  Ieee.quantum fmt q <= q * Ieee.pow2 (1 - Ieee.prec fmt).
Proof.
  intros Hn.
  assert (H : 0 < q) by (eapply Qlt_le_trans; [apply pow2_pos | exact Hn]).
  rewrite (quantum_pos_eq q H).
  destruct (ilog2_spec q H) as [H1 H2].
  assert (Hl : (Ieee.emin fmt + Ieee.prec fmt - 1 < Ieee.ilog2 q + 1)%Z).
  { apply pow2_lt_inv. eapply Qle_lt_trans; eassumption. }
  rewrite Z.max_l by lia.
  replace (Ieee.ilog2 q - (Ieee.prec fmt - 1))%Z
    with (Ieee.ilog2 q + (1 - Ieee.prec fmt))%Z by lia.
  rewrite pow2_add.
  apply Qmult_le_compat_r; [exact H1 | apply Qlt_le_weak, pow2_pos].
Qed.

Lemma quantum_small (q : Q) :
  0 < q -> q < Ieee.pow2 (Ieee.emin fmt + Ieee.prec fmt - 1) ->
  Ieee.quantum fmt q = Ieee.pow2 (Ieee.emin fmt).
Proof.
  intros H Hs. rewrite (quantum_pos_eq q H).
  destruct (ilog2_spec q H) as [H1 _].
  assert (Ieee.ilog2 q < Ieee.emin fmt + Ieee.prec fmt - 1)%Z
    by (apply pow2_lt_inv; eapply Qle_lt_trans; eassumption).
  rewrite Z.max_r by lia. reflexivity.
Qed.

Lemma rnd_error_quantum (q : Q) :
  0 < q ->
  - (Ieee.quantum fmt q / 2) <= Ieee.rnd fmt q - q
  /\ Ieee.rnd fmt q - q <= Ieee.quantum fmt q / 2.
Proof.
  intros H. rewrite (rnd_pos_eq q H).
  pose proof (quantum_pos q) as Hp.
  destruct (nearest_even_error (q / Ieee.quantum fmt q)) as [H1 H2].
  set (m := inject_Z (Ieee.nearest_even (q / Ieee.quantum fmt q))) in *.
  set (d := m - q / Ieee.quantum fmt q) in *.
  assert (E : m * Ieee.quantum fmt q - q == d * Ieee.quantum fmt q).
  { subst d. field. intros E. rewrite E in Hp. discriminate Hp. }
  rewrite E. split.
  - setoid_replace (- (Ieee.quantum fmt q / 2))
      with (- (1 # 2) * Ieee.quantum fmt q) by field.
    apply Qmult_le_compat_r; [exact H1 | apply Qlt_le_weak, Hp].
  - setoid_replace (Ieee.quantum fmt q / 2)
      with ((1 # 2) * Ieee.quantum fmt q) by field.
    apply Qmult_le_compat_r; [exact H2 | apply Qlt_le_weak, Hp].
Qed.

Lemma pow2_half (e : Z) : Ieee.pow2 e / 2 == Ieee.pow2 (e - 1).
Proof.
  unfold Z.sub. rewrite pow2_add.
  change (Ieee.pow2 (- (1))) with (1 # 2). field.
Qed.

(** The error of a rounding where the format has its full precision:
    at most [2^-prec] times the number rounded. *)
Lemma rnd_error_normal (q : Q) :
  Ieee.pow2 (Ieee.emin fmt + Ieee.prec fmt - 1) <= q ->
  Qabs (Ieee.rnd fmt q - q) <= q * Ieee.pow2 (- Ieee.prec fmt).
Proof.
  intros Hn.
  assert (H : 0 < q) by (eapply Qlt_le_trans; [apply pow2_pos | exact Hn]).
  destruct (rnd_error_quantum q H) as [H1 H2].
  pose proof (quantum_normal q Hn) as Hq.
  assert (Hh : Ieee.quantum fmt q / 2 <= q * Ieee.pow2 (- Ieee.prec fmt)).
  { replace (- Ieee.prec fmt)%Z with (1 - Ieee.prec fmt - 1)%Z by lia.
    rewrite <- pow2_half.
    setoid_replace (q * (Ieee.pow2 (1 - Ieee.prec fmt) / 2))
      with (q * Ieee.pow2 (1 - Ieee.prec fmt) / 2) by field.
    apply Qmult_le_compat_r; [exact Hq | discriminate]. }
  apply Qabs_Qle_condition. split; lra.
Qed.

(** The error of a rounding in general: at most [2^-prec] times the
    number rounded, and half the smallest positive number. *)
Lemma rnd_error (q : Q) :
  0 <= q ->
  Qabs (Ieee.rnd fmt q - q)
  <= q * Ieee.pow2 (- Ieee.prec fmt) + Ieee.pow2 (Ieee.emin fmt - 1).
Proof.
  intros H0.
  pose proof (pow2_pos (- Ieee.prec fmt)) as Pu.
  pose proof (pow2_pos (Ieee.emin fmt - 1)) as Pe.
  assert (Hm : 0 <= q * Ieee.pow2 (- Ieee.prec fmt))
    by (apply Qmult_le_0_compat; lra).
  destruct (Qlt_le_dec 0 q) as [H | H].
  - destruct (Qlt_le_dec q (Ieee.pow2 (Ieee.emin fmt + Ieee.prec fmt - 1)))
      as [Hs | Hn].
    + destruct (rnd_error_quantum q H) as [H1 H2].
      rewrite (quantum_small q H Hs), pow2_half in H1, H2.
      apply Qabs_Qle_condition. split; lra.
    + pose proof (rnd_error_normal q Hn). lra.
  - assert (E : q == 0) by lra.
    rewrite (rnd_zero q E), E.
    apply Qabs_Qle_condition. split; lra.
Qed.

Lemma rnd_nonneg (q : Q) : 0 <= q -> 0 <= Ieee.rnd fmt q.
Proof.
  intros H. unfold Ieee.rnd. destruct (Qeq_bool q 0); [apply Qle_refl |].
  apply Qmult_le_0_compat.
  - rewrite <- (Zle_Qle 0). apply nearest_even_nonneg.
    apply Qle_shift_div_l; [apply quantum_pos |]. rewrite Qmult_0_l. exact H.
  - apply Qlt_le_weak, quantum_pos.
Qed.

End Rounding.

Section Floats.

Variable fmt : Ieee.format.
Hypothesis fmt_ok : Ieee.valid fmt.

Lemma is_float_on_grid (q : Q) : Ieee.is_float fmt q -> Ieee.on_grid fmt q.
Proof.
  intros (m & e & Hq & _ & He & _).
  exists (m * 2 ^ (e - Ieee.emin fmt))%Z.
  rewrite Hq, (pow2_split e (Ieee.emin fmt) He), inject_Z_mult. ring.
Qed.

Lemma on_grid_plus (a b : Q) :
  Ieee.on_grid fmt a -> Ieee.on_grid fmt b -> Ieee.on_grid fmt (a + b).
Proof.
  intros [k Hk] [j Hj]. exists (k + j)%Z.
  rewrite Hk, Hj, inject_Z_plus. ring.
Qed.

Lemma rnd_on_grid (q : Q) : Ieee.on_grid fmt (Ieee.rnd fmt q).
Proof.
  unfold Ieee.rnd. destruct (Qeq_bool q 0).
  - exists 0%Z. ring.
  - unfold Ieee.quantum.
    set (ue := Z.max (Ieee.ilog2 (Qabs q) - (Ieee.prec fmt - 1)) (Ieee.emin fmt)).
    assert (Hue : (Ieee.emin fmt <= ue)%Z) by (subst ue; lia).
    exists (Ieee.nearest_even (q / Ieee.pow2 ue) * 2 ^ (ue - Ieee.emin fmt))%Z.
    rewrite inject_Z_mult.
    rewrite (pow2_split ue (Ieee.emin fmt) Hue) at 2. ring.
Qed.

(** Below [2^(emin+prec-1)] every multiple of the smallest positive
    number is a number of the format. *)
Lemma rnd_exact_small (q : Q) :
  Ieee.on_grid fmt q -> 0 < q ->
  q < Ieee.pow2 (Ieee.emin fmt + Ieee.prec fmt - 1) ->
  Ieee.rnd fmt q == q.
Proof.
  intros [k Hk] H0 H1. rewrite (rnd_pos_eq fmt q H0).
  rewrite (quantum_small fmt q H0 H1).
  assert (Hy : q / Ieee.pow2 (Ieee.emin fmt) == inject_Z k).
  { rewrite Hk. field. apply pow2_nonzero. }
  rewrite (nearest_even_Z _ k Hy). symmetry. exact Hk.
Qed.

(** The sum of two numbers of the format has a relative error of at
    most [2^-prec], also where the sum is subnormal: there it is
    exact. *)
Lemma rnd_plus_error (a b : Q) :
  Ieee.on_grid fmt a -> Ieee.on_grid fmt b -> 0 <= a -> 0 <= b ->
  Qabs (Ieee.rnd fmt (a + b) - (a + b))
  <= (a + b) * Ieee.pow2 (- Ieee.prec fmt).
Proof.
  intros Ga Gb Ha Hb.
  pose proof (pow2_pos (- Ieee.prec fmt)) as Pu.
  assert (Hm : 0 <= (a + b) * Ieee.pow2 (- Ieee.prec fmt))
    by (apply Qmult_le_0_compat; lra).
  destruct (Qlt_le_dec 0 (a + b)) as [H | H].
  - destruct (Qlt_le_dec (a + b)
                (Ieee.pow2 (Ieee.emin fmt + Ieee.prec fmt - 1))) as [Hs | Hn].
    + rewrite (rnd_exact_small (a + b) (on_grid_plus a b Ga Gb) H Hs).
      setoid_replace (a + b - (a + b)) with 0 by ring. exact Hm.
    + apply rnd_error_normal. exact Hn.
  - assert (E : a + b == 0) by lra.
    rewrite (rnd_zero fmt (a + b) E), E.
    apply Qabs_Qle_condition. split; lra.
Qed.

(** A number of the format is a multiple of the spacing at every
    [q], or it lies below the power of two at or below [q]. *)
Lemma float_or_below (f q : Q) :
  Ieee.is_float fmt f -> 0 < q ->
  (exists N : Z, f == inject_Z N * Ieee.quantum fmt q)
  \/ (f < Ieee.pow2 (Ieee.ilog2 q)
      /\ Ieee.pow2 (Ieee.ilog2 q)
         == inject_Z (2 ^ (Ieee.prec fmt - 1)) * Ieee.quantum fmt q).
Proof.
  intros (m & e & Hf & Hm & He & _) Hq.
  destruct fmt_ok as [Hp _].
  rewrite (quantum_pos_eq fmt q Hq).
  set (a := (Ieee.ilog2 q - (Ieee.prec fmt - 1))%Z).
  destruct (Z_le_gt_dec (Z.max a (Ieee.emin fmt)) e) as [Hle | Hgt].
  - left. exists (m * 2 ^ (e - Z.max a (Ieee.emin fmt)))%Z.
    rewrite Hf, (pow2_split e _ Hle), inject_Z_mult. ring.
  - right. assert (Ha : Z.max a (Ieee.emin fmt) = a) by lia.
    rewrite Ha. split.
    + rewrite Hf.
      apply Qlt_le_trans with (inject_Z (2 ^ Ieee.prec fmt) * Ieee.pow2 e).
      * apply Qmult_lt_compat_r; [apply pow2_pos |].
        rewrite <- Zlt_Qlt. lia.
      * rewrite <- pow2_Z by lia. rewrite <- pow2_add.
        apply pow2_le. subst a. lia.
    + rewrite <- pow2_Z by lia. rewrite <- pow2_add.
      subst a. replace (Ieee.prec fmt - 1 + (Ieee.ilog2 q - (Ieee.prec fmt - 1)))%Z
        with (Ieee.ilog2 q) by lia.
      reflexivity.
Qed.

(** Rounding does not cross a number of the format. *)
Lemma rnd_le_float (q f : Q) :
  Ieee.is_float fmt f -> 0 <= q -> q <= f -> Ieee.rnd fmt q <= f.
Proof.
  intros Hf H0 Hqf.
  destruct (Qlt_le_dec 0 q) as [Hq | Hq].
  - destruct (float_or_below f q Hf Hq) as [[N HN] | [Hlt _]].
    + rewrite (rnd_pos_eq fmt q Hq), HN.
      apply Qmult_le_compat_r; [| apply Qlt_le_weak, quantum_pos].
      rewrite <- Zle_Qle. apply nearest_even_le.
      apply Qle_shift_div_r; [apply quantum_pos |]. rewrite <- HN. exact Hqf.
    + destruct (ilog2_spec q Hq) as [Hl _]. lra.
  - rewrite (rnd_zero fmt q) by lra. lra.
Qed.

Lemma rnd_ge_float (q f : Q) :
  Ieee.is_float fmt f -> f <= q -> 0 <= q -> f <= Ieee.rnd fmt q.
Proof.
  intros Hf Hfq H0.
  destruct (Qlt_le_dec 0 q) as [Hq | Hq].
  - rewrite (rnd_pos_eq fmt q Hq).
    destruct (float_or_below f q Hf Hq) as [[N HN] | [Hlt HB]].
    + rewrite HN.
      apply Qmult_le_compat_r; [| apply Qlt_le_weak, quantum_pos].
      rewrite <- Zle_Qle. apply nearest_even_ge.
      apply Qle_shift_div_l; [apply quantum_pos |]. rewrite <- HN. exact Hfq.
    + apply Qlt_le_weak. eapply Qlt_le_trans; [exact Hlt |].
      rewrite HB.
      apply Qmult_le_compat_r; [| apply Qlt_le_weak, quantum_pos].
      rewrite <- Zle_Qle. apply nearest_even_ge.
      apply Qle_shift_div_l; [apply quantum_pos |]. rewrite <- HB.
      apply (ilog2_spec q Hq).
  - rewrite (rnd_zero fmt q) by lra. lra.
Qed.

(** A number of the format rounds to itself. *)
Lemma rnd_float (f : Q) : Ieee.is_float fmt f -> 0 <= f -> Ieee.rnd fmt f == f.
Proof.
  intros Hf H0. apply Qle_antisym.
  - apply rnd_le_float; [exact Hf | exact H0 | apply Qle_refl].
  - apply rnd_ge_float; [exact Hf | apply Qle_refl | exact H0].
Qed.

(** What rounding gives is a number of the format, if it is short of
    overflow. *)
Lemma rnd_is_float (q : Q) :
  0 <= q -> Ieee.rnd fmt q < Ieee.pow2 (Ieee.emax fmt) ->
  Ieee.is_float fmt (Ieee.rnd fmt q).
Proof.
  intros H0 Hov. destruct fmt_ok as [Hp _].
  assert (Habs : Qabs (Ieee.rnd fmt q) < Ieee.pow2 (Ieee.emax fmt))
    by (rewrite Qabs_nonneg_eq by (apply rnd_nonneg, H0); exact Hov).
  assert (P : (0 < 2 ^ Ieee.prec fmt)%Z) by (apply Z.pow_pos_nonneg; lia).
  destruct (Qlt_le_dec 0 q) as [Hq | Hq].
  - rewrite (rnd_pos_eq fmt q Hq) in *.
    rewrite (quantum_pos_eq fmt q Hq) in *.
    set (a := (Ieee.ilog2 q - (Ieee.prec fmt - 1))%Z) in *.
    set (e := Z.max a (Ieee.emin fmt)) in *.
    set (m := Ieee.nearest_even (q / Ieee.pow2 e)) in *.
    assert (Hm0 : (0 <= m)%Z).
    { apply nearest_even_nonneg. apply Qle_shift_div_l; [apply pow2_pos |].
      rewrite Qmult_0_l. exact H0. }
    assert (Hm1 : (m <= 2 ^ Ieee.prec fmt)%Z).
    { apply nearest_even_le. apply Qle_shift_div_r; [apply pow2_pos |].
      rewrite <- pow2_Z by lia. rewrite <- pow2_add.
      destruct (ilog2_spec q Hq) as [_ Hu].
      apply Qlt_le_weak. eapply Qlt_le_trans; [exact Hu |].
      apply pow2_le. subst e a. lia. }
    destruct (Z.eq_dec m (2 ^ Ieee.prec fmt)) as [E | E].
    + exists (2 ^ (Ieee.prec fmt - 1))%Z, (e + 1)%Z.
      split; [| split; [| split]].
      * rewrite E. rewrite <- !pow2_Z by lia. rewrite <- !pow2_add.
        replace (Ieee.prec fmt - 1 + (e + 1))%Z with (Ieee.prec fmt + e)%Z
          by lia.
        reflexivity.
      * rewrite Z.abs_eq by (apply Z.pow_nonneg; lia).
        apply Z.pow_lt_mono_r; lia.
      * subst e. lia.
      * exact Habs.
    + exists m, e. split; [reflexivity | split; [| split]].
      * rewrite Z.abs_eq by exact Hm0. lia.
      * subst e. lia.
      * exact Habs.
  - rewrite (rnd_zero fmt q) in * by lra.
    exists 0%Z, (Ieee.emin fmt). split; [ring | split; [| split]].
    + exact P.
    + lia.
    + exact Habs.
Qed.

(** An operation whose exact value is not negative gives a number of the
    format that is not negative, or plus infinity. *)
Lemma round_nonneg (q : Q) :
  0 <= q ->
  Ieee.round fmt q = Np.PInf
  \/ (Ieee.round fmt q = Np.Fin (Ieee.rnd fmt q)
      /\ Ieee.rnd fmt q < Ieee.pow2 (Ieee.emax fmt)).
Proof.
  intros H. unfold Ieee.round.
  rewrite (Qabs_nonneg_eq (Ieee.rnd fmt q)) by (apply rnd_nonneg, H).
  rewrite (proj2 (Qle_bool_iff 0 q) H).
  destruct (Qle_bool (Ieee.pow2 (Ieee.emax fmt)) (Ieee.rnd fmt q)) eqn:E.
  - left. reflexivity.
  - right. split; [reflexivity | apply Qle_bool_false; exact E].
Qed.

Lemma round_finite (q : Q) :
  0 <= q -> Ieee.rnd fmt q < Ieee.pow2 (Ieee.emax fmt) ->
  Ieee.round fmt q = Np.Fin (Ieee.rnd fmt q).
Proof.
  intros H Hr. unfold Ieee.round.
  rewrite (Qabs_nonneg_eq (Ieee.rnd fmt q)) by (apply rnd_nonneg, H).
  rewrite (proj2 (Qle_bool_false _ _) Hr). reflexivity.
Qed.

Lemma round_nonneg_float (q : Q) :
  0 <= q ->
  Ieee.round fmt q = Np.PInf \/ Ieee.nonneg_float fmt (Ieee.round fmt q).
Proof.
  intros H. destruct (round_nonneg q H) as [E | [E Hr]]; [left; exact E |].
  right. rewrite E. exists (Ieee.rnd fmt q).
  split; [reflexivity | split; [apply rnd_nonneg, H | apply rnd_is_float; assumption]].
Qed.

(** The sum from left to right of numbers that are not negative. *)
Lemma fold_add_nonneg (a : list Np.float) (acc : Np.float) :
  Forall (Ieee.nonneg_float fmt) a ->
  acc = Np.PInf \/ Ieee.nonneg_float fmt acc ->
  fold_left (Ieee.add fmt) a acc = Np.PInf
  \/ Ieee.nonneg_float fmt (fold_left (Ieee.add fmt) a acc).
Proof.
  intros Ha. revert acc. induction Ha as [| x a Hx Ha IH]; intros acc Hacc.
  - exact Hacc.
  - cbn [fold_left]. apply IH.
    destruct Hx as (qx & -> & Hx0 & _).
    destruct Hacc as [-> | (qa & -> & Ha0 & _)].
    + left. reflexivity.
    + cbn [Ieee.add]. apply round_nonneg_float. lra.
Qed.

Lemma sum_left_nonneg (a : list Np.float) :
  Forall (Ieee.nonneg_float fmt) a ->
  Ieee.sum_left fmt a = Np.PInf \/ Ieee.nonneg_float fmt (Ieee.sum_left fmt a).
Proof.
  intros Ha. apply fold_add_nonneg; [exact Ha |].
  right. exists 0. split; [reflexivity | split; [apply Qle_refl |]].
  destruct fmt_ok as [Hp _].
  exists 0%Z, (Ieee.emin fmt). split; [ring | split; [| split]].
  - apply Z.pow_pos_nonneg; lia.
  - lia.
  - apply pow2_pos.
Qed.

End Floats.

(** ** The error of the two ratios *)

Lemma Qmult_le_left (x y z : Q) : x <= y -> 0 <= z -> z * x <= z * y.
Proof.
  intros H Hz. rewrite !(Qmult_comm z). apply Qmult_le_compat_r; assumption.
Qed.

Section RatioError.

(** [u] bounds the relative error of a rounding, [eta] the absolute
    error of a rounding near zero. *)
Variables u eta : Q.
Hypothesis u_pos : 0 < u.
Hypothesis u_small : u <= 1 # 256.
Hypothesis eta_small : eta <= u * (1 # 256).

(** [l] and [h] are the band powers, [t] their rounded sum. *)
Variables l h t : Q.
Hypothesis l_nonneg : 0 <= l.
Hypothesis h_nonneg : 0 <= h.
Hypothesis total_pos : 0 < l + h.
Hypothesis t_error : Qabs (t - (l + h)) <= (l + h) * u.

Lemma rounded_total_pos : 0 < t.
Proof.
  apply Qabs_Qle_condition in t_error. destruct t_error as [H1 _].
  assert ((l + h) * u <= (l + h) * (1 # 256))
    by (apply Qmult_le_l; [exact total_pos | exact u_small]).
  lra.
Qed.

Lemma total_over_rounded :
  1 - u <= (l + h) / t /\ (l + h) / t <= 1 + 2 * u.
Proof.
  pose proof rounded_total_pos as Ht.
  apply Qabs_Qle_condition in t_error. destruct t_error as [H1 H2].
  set (s := l + h) in *.
  assert (Hsu : 0 <= s * u) by (apply Qmult_le_0_compat; lra).
  assert (Hsuu : 0 <= s * u * u) by (apply Qmult_le_0_compat; lra).
  assert (Hsuu' : s * u * u <= s * u * (1 # 256))
    by (apply Qmult_le_left; [exact u_small | exact Hsu]).
  split.
  - apply Qle_shift_div_l; [exact Ht |].
    assert (Hm : (1 - u) * t <= (1 - u) * (s + s * u))
      by (apply Qmult_le_left; lra).
    setoid_replace ((1 - u) * (s + s * u)) with (s - s * u * u) in Hm by ring.
    lra.
  - apply Qle_shift_div_r; [exact Ht |].
    assert (Hm : (1 + 2 * u) * (s - s * u) <= (1 + 2 * u) * t)
      by (apply Qmult_le_left; lra).
    setoid_replace ((1 + 2 * u) * (s - s * u))
      with (s + s * u - 2 * (s * u * u)) in Hm by ring.
    lra.
Qed.

Section OneRatio.

(** [x] is one of the two band powers, [a] its rounded quotient by [t],
    [r] the rounded product of [a] and 100. *)
Variables x a r : Q.
Hypothesis x_nonneg : 0 <= x.
Hypothesis x_le : x <= l + h.
Hypothesis a_error : Qabs (a - x / t) <= x / t * u + eta.
Hypothesis r_error : Qabs (r - a * 100) <= a * 100 * u + eta.

Lemma share_bounds : 0 <= x / (l + h) /\ x / (l + h) <= 1.
Proof.
  split.
  - apply Qle_shift_div_l; [exact total_pos | lra].
  - apply Qle_shift_div_r; [exact total_pos | lra].
Qed.

Lemma quotient_bounds :
  x / (l + h) - u <= x / t /\ x / t <= x / (l + h) + 2 * u /\ 0 <= x / t.
Proof.
  pose proof rounded_total_pos as Ht.
  destruct total_over_rounded as [G1 G2].
  destruct share_bounds as [P1 P2].
  assert (E : x / t == x / (l + h) * ((l + h) / t)).
  { field. split; intros E; [rewrite E in Ht | rewrite E in total_pos];
      discriminate. }
  set (p := x / (l + h)) in *. set (g := (l + h) / t) in *.
  assert (H1 : p * (1 - u) <= p * g) by (apply Qmult_le_left; assumption).
  assert (H2 : p * g <= p * (1 + 2 * u))
    by (apply Qmult_le_left; assumption).
  assert (H3 : p * u <= 1 * u) by (apply Qmult_le_compat_r; lra).
  assert (H4 : 0 <= p * u) by (apply Qmult_le_0_compat; lra).
  assert (H5 : p * u <= p * 1) by (apply Qmult_le_left; lra).
  rewrite E. repeat split; lra.
Qed.

Lemma rounded_quotient_bounds :
  Qabs (a - x / (l + h)) <= 5 * u /\ a <= 2.
Proof.
  destruct quotient_bounds as (Q1 & Q2 & Q3).
  destruct share_bounds as [P1 P2].
  apply Qabs_Qle_condition in a_error. destruct a_error as [A1 A2].
  assert (H : x / t * u <= 2 * u) by (apply Qmult_le_compat_r; lra).
  assert (H0 : 0 <= x / t * u) by (apply Qmult_le_0_compat; lra).
  split; [apply Qabs_Qle_condition; split |]; lra.
Qed.

(** Each ratio is within [800 u] of the exact percentage. *)
Lemma ratio_error :
  Qabs (r - 100 * x / (l + h)) <= 800 * u.
Proof.
  destruct rounded_quotient_bounds as [A B].
  apply Qabs_Qle_condition in A. destruct A as [A1 A2].
  apply Qabs_Qle_condition in r_error. destruct r_error as [R1 R2].
  assert (H : a * 100 * u <= 200 * u) by (apply Qmult_le_compat_r; lra).
  setoid_replace (100 * x / (l + h)) with (100 * (x / (l + h)))
    by (field; intros E; rewrite E in total_pos; discriminate).
  apply Qabs_Qle_condition. split; lra.
Qed.

Lemma rounded_ratio_bound : r <= 300.
Proof.
  destruct rounded_quotient_bounds as [A B].
  apply Qabs_Qle_condition in r_error. destruct r_error as [R1 R2].
  assert (H : a * 100 * u <= 200 * u) by (apply Qmult_le_compat_r; lra).
  lra.
Qed.

End OneRatio.

(** The two ratios add up to 100 within [800 u]. *)
Lemma ratio_sum_error (a b r r' : Q) :
  Qabs (a - l / t) <= l / t * u + eta ->
  Qabs (b - h / t) <= h / t * u + eta ->
  Qabs (r - a * 100) <= a * 100 * u + eta ->
  Qabs (r' - b * 100) <= b * 100 * u + eta ->
  Qabs (r + r' - 100) <= 800 * u.
Proof.
  intros Ha Hb Hr Hr'.
  pose proof rounded_total_pos as Ht.
  destruct total_over_rounded as [G1 G2].
  assert (E : l / t + h / t == (l + h) / t)
    by (field; intros E; rewrite E in Ht; discriminate).
  destruct (quotient_bounds l ltac:(lra) ltac:(lra)) as (_ & _ & X0).
  destruct (quotient_bounds h ltac:(lra) ltac:(lra)) as (_ & _ & Y0).
  apply Qabs_Qle_condition in Ha, Hb, Hr, Hr'.
  destruct Ha as [A1 A2], Hb as [B1 B2], Hr as [R1 R2], Hr' as [S1 S2].
  assert (H1 : (l / t + h / t) * u <= 2 * u)
    by (apply Qmult_le_compat_r; lra).
  assert (H0 : 0 <= (l / t + h / t) * u) by (apply Qmult_le_0_compat; lra).
  assert (H2 : (a + b) * 100 * u <= 200 * u)
    by (apply Qmult_le_compat_r; lra).
  apply Qabs_Qle_condition. split; lra.
Qed.

End RatioError.

(** ** The band ratios in floating point *)

Lemma select_mask_Forall {A} (P : A -> Prop) (a : list A) (mask : list bool)
  (selected : list A) :
  Forall P a -> Np.select_mask a mask = inr selected -> Forall P selected.
Proof.
  intros Ha. revert mask selected.
  induction Ha as [| x a Hx Ha IH]; intros [| b mask] selected E;
    try discriminate E.
  - injection E as <-. constructor.
  - cbn [Np.select_mask] in E.
    destruct (Np.select_mask a mask) as [e | r] eqn:Er; [discriminate E |].
    specialize (IH mask r Er). cbn in E. injection E as <-.
    destruct b; [constructor |]; assumption.
Qed.

Lemma getitem_mask_Forall {A} (P : A -> Prop) (a : list A) (mask : list bool)
  (selected : list A) :
  Forall P a -> Np.getitem_mask a mask = inr selected -> Forall P selected.
Proof.
  intros Ha E. destruct mask as [| b mask].
  - injection E as <-. constructor.
  - exact (select_mask_Forall P a (b :: mask) selected Ha E).
Qed.

Section FloatRatios.

Variable fmt : Ieee.format.
Hypothesis fmt_ok : Ieee.valid fmt.

Variable np_sum : list Np.float -> Np.float.

(** What is used of [a.sum()]: the sum of numbers that are not negative
    is such a number, or plus infinity. *)
Hypothesis np_sum_nonneg :
  forall a, Forall (Ieee.nonneg_float fmt) a ->
            np_sum a = Np.PInf \/ Ieee.nonneg_float fmt (np_sum a).

Lemma unit_roundoff_small : Ieee.pow2 (- Ieee.prec fmt) <= 1 # 256.
Proof.
  destruct fmt_ok as [Hp _].
  change (1 # 256) with (Ieee.pow2 (- 8)). apply pow2_le. lia.
Qed.

Lemma half_smallest_small :
  Ieee.pow2 (Ieee.emin fmt - 1) <= Ieee.pow2 (- Ieee.prec fmt) * (1 # 256).
Proof.
  destruct fmt_ok as [Hp He].
  change (1 # 256) with (Ieee.pow2 (- 8)). rewrite <- pow2_add.
  apply pow2_le. unfold Ieee.emin. lia.
Qed.

Lemma below_overflow (q : Q) : q <= 300 -> q < Ieee.pow2 (Ieee.emax fmt).
Proof.
  intros H. destruct fmt_ok as [_ He].
  apply Qle_lt_trans with (1 := H).
  apply Qlt_le_trans with (Ieee.pow2 16); [reflexivity | apply pow2_le; lia].
Qed.

Lemma is_float_small_Z (n : Z) :
  (0 <= n < 256)%Z -> Ieee.is_float fmt (inject_Z n).
Proof.
  intros Hn. destruct fmt_ok as [Hp He].
  exists n, 0%Z. split; [| split; [| split]].
  - change (Ieee.pow2 0) with 1. ring.
  - rewrite Z.abs_eq by lia.
    apply Z.lt_le_trans with (2 ^ 8)%Z; [lia |].
    apply Z.pow_le_mono_r; lia.
  - unfold Ieee.emin. lia.
  - rewrite Qabs_nonneg_eq by (rewrite <- (Zle_Qle 0); lia).
    apply below_overflow. change (inject_Z n <= inject_Z 300).
    rewrite <- Zle_Qle. lia.
Qed.

Lemma round_zero (q : Q) : q == 0 -> Ieee.round fmt q = Np.Fin 0.
Proof.
  intros E. unfold Ieee.round. rewrite (rnd_zero fmt q E).
  change (Qabs 0) with 0.
  rewrite (proj2 (Qle_bool_false _ _) (pow2_pos (Ieee.emax fmt))).
  reflexivity.
Qed.

(** A band power is plus infinity or a number that is not negative. *)
Lemma band_power_nonneg (magnitude : list Np.float) (mask : list bool)
  (p : Np.float) :
  Forall (Ieee.nonneg_float fmt) magnitude ->
  MainFloat.band_power np_sum magnitude mask = inr p ->
  p = Np.PInf \/ Ieee.nonneg_float fmt p.
Proof.
  intros Hm. unfold MainFloat.band_power.
  destruct (Np.any mask).
  - destruct (Np.getitem_mask magnitude mask) as [e | selected] eqn:E;
      [discriminate |].
    cbn [Py.bind Py.ret]. intros [= <-]. apply np_sum_nonneg.
    exact (getitem_mask_Forall _ magnitude mask selected Hm E).
  - intros [= <-]. right.
    exists 0. split; [reflexivity | split; [apply Qle_refl |]].
    apply (is_float_small_Z 0). lia.
Qed.

Lemma band_power_ok (magnitude : list Np.float) (mask : list bool) :
  length magnitude = length mask ->
  exists p, MainFloat.band_power np_sum magnitude mask = inr p.
Proof.
  intros Hlen. unfold MainFloat.band_power.
  destruct (Np.any mask); [| eexists; reflexivity].
  rewrite getitem_mask_combine by exact Hlen. eexists. reflexivity.
Qed.

(** The sum of two finite band powers. *)
Lemma total_power_cases (l h : Q) :
  0 <= l -> 0 <= h ->
  MainFloat.total_power fmt (Np.Fin l) (Np.Fin h) = Np.PInf
  \/ MainFloat.total_power fmt (Np.Fin l) (Np.Fin h)
     = Np.Fin (Ieee.rnd fmt (l + h)).
Proof.
  intros Hl Hh. unfold MainFloat.total_power. cbn [Ieee.add].
  destruct (round_nonneg fmt (l + h)) as [E | [E _]]; [lra | |];
    rewrite E; [left | right]; reflexivity.
Qed.

Lemma ratios_of_powers_overflow (l h : Q) :
  MainFloat.total_power fmt (Np.Fin l) (Np.Fin h) = Np.PInf ->
  MainFloat.ratios_of_powers fmt (Np.Fin l) (Np.Fin h)
  = (Np.Fin 0, Np.Fin 0).
Proof.
  intros E. unfold MainFloat.ratios_of_powers. rewrite E.
  cbn [Np.gt Ieee.div Ieee.mul].
  rewrite round_zero by ring. reflexivity.
Qed.

Lemma ratios_of_powers_zero (l h t : Q) :
  MainFloat.total_power fmt (Np.Fin l) (Np.Fin h) = Np.Fin t -> t <= 0 ->
  MainFloat.ratios_of_powers fmt (Np.Fin l) (Np.Fin h)
  = (Np.Fin 0, Np.Fin 0).
Proof.
  intros E Ht. unfold MainFloat.ratios_of_powers. rewrite E.
  cbn [Np.gt]. rewrite (proj2 (Qle_bool_iff t 0) Ht). reflexivity.
Qed.

Section FiniteTotal.

(** Two band powers with a finite positive total. *)
Variables l h t : Q.
Hypothesis l_float : Ieee.is_float fmt l.
Hypothesis h_float : Ieee.is_float fmt h.
Hypothesis l_nonneg : 0 <= l.
Hypothesis h_nonneg : 0 <= h.
Hypothesis total_eq :
  MainFloat.total_power fmt (Np.Fin l) (Np.Fin h) = Np.Fin t.
Hypothesis total_pos : 0 < t.

Lemma total_rounded : t = Ieee.rnd fmt (l + h).
Proof.
  unfold MainFloat.total_power in total_eq. cbn [Ieee.add] in total_eq.
  destruct (round_nonneg fmt (l + h)) as [E | [E _]]; [lra | |];
    rewrite E in total_eq; [discriminate total_eq |].
  injection total_eq as <-. reflexivity.
Qed.

Lemma exact_total_pos : 0 < l + h.
Proof.
  destruct (Qlt_le_dec 0 (l + h)) as [H | H]; [exact H |].
  pose proof total_pos as Ht. rewrite total_rounded in Ht.
  rewrite (rnd_zero fmt (l + h)) in Ht by lra. discriminate Ht.
Qed.

Lemma total_error :
  Qabs (t - (l + h)) <= (l + h) * Ieee.pow2 (- Ieee.prec fmt).
Proof.
  rewrite total_rounded.
  apply rnd_plus_error;
    try apply (is_float_on_grid fmt); assumption.
Qed.

(** Each band power is at most the total. *)
Lemma power_le_total : l <= t /\ h <= t.
Proof.
  rewrite total_rounded. split;
    apply (rnd_ge_float fmt fmt_ok); try assumption; lra.
Qed.

Lemma quotient_nonneg (x : Q) : 0 <= x -> 0 <= x / t.
Proof.
  intros Hx. apply Qle_shift_div_l; [exact total_pos | lra].
Qed.

Lemma quotient_rounded (x : Q) :
  0 <= x -> x <= l + h ->
  Ieee.div fmt (Np.Fin x) (Np.Fin t) = Np.Fin (Ieee.rnd fmt (x / t)).
Proof.
  intros Hx Hxs. cbn [Ieee.div].
  rewrite Qeq_bool_false
    by (intros E; pose proof total_pos as Ht; rewrite E in Ht; discriminate Ht).
  apply round_finite; [apply quotient_nonneg, Hx |].
  apply below_overflow.
  pose proof (rnd_error fmt (x / t) (quotient_nonneg x Hx)) as Ha.
  destruct (rounded_quotient_bounds _ _
              (pow2_pos _) unit_roundoff_small half_smallest_small
              l h t exact_total_pos total_error
              x _ Hx Hxs Ha) as [_ H2].
  lra.
Qed.

Lemma ratio_rounded (x : Q) :
  0 <= x -> x <= l + h ->
  Ieee.mul fmt (Ieee.div fmt (Np.Fin x) (Np.Fin t)) (Np.Fin 100)
  = Np.Fin (Ieee.rnd fmt (Ieee.rnd fmt (x / t) * 100)).
Proof.
  intros Hx Hxs. rewrite (quotient_rounded x Hx Hxs). cbn [Ieee.mul].
  pose proof (rnd_nonneg fmt (x / t) (quotient_nonneg x Hx)) as Ha0.
  assert (H0 : 0 <= Ieee.rnd fmt (x / t) * 100)
    by (apply Qmult_le_0_compat; [exact Ha0 | discriminate]).
  apply round_finite; [exact H0 |].
  apply below_overflow.
  pose proof (rnd_error fmt (x / t) (quotient_nonneg x Hx)) as Ha.
  pose proof (rnd_error fmt (Ieee.rnd fmt (x / t) * 100) H0) as Hr.
  exact (rounded_ratio_bound _ _
           (pow2_pos _) unit_roundoff_small half_smallest_small
           l h t exact_total_pos total_error
           x _ _ Hx Hxs Ha Hr).
Qed.

Lemma ratios_of_powers_finite :
  MainFloat.ratios_of_powers fmt (Np.Fin l) (Np.Fin h)
  = (Np.Fin (Ieee.rnd fmt (Ieee.rnd fmt (l / t) * 100)),
     Np.Fin (Ieee.rnd fmt (Ieee.rnd fmt (h / t) * 100))).
Proof.
  unfold MainFloat.ratios_of_powers. rewrite total_eq. cbn [Np.gt].
  rewrite (proj2 (Qle_bool_false _ _) total_pos). cbn [negb].
  rewrite !ratio_rounded by lra. reflexivity.
Qed.

(** A ratio is a number of [0, 100]. *)
Lemma ratio_range (x : Q) :
  0 <= x -> x <= t ->
  0 <= Ieee.rnd fmt (Ieee.rnd fmt (x / t) * 100)
  /\ Ieee.rnd fmt (Ieee.rnd fmt (x / t) * 100) <= 100.
Proof.
  intros Hx Hxt.
  pose proof (rnd_nonneg fmt (x / t) (quotient_nonneg x Hx)) as Ha0.
  assert (Ha1 : Ieee.rnd fmt (x / t) <= 1).
  { apply (rnd_le_float fmt fmt_ok).
    - apply (is_float_small_Z 1). lia.
    - apply quotient_nonneg, Hx.
    - apply Qle_shift_div_r; [exact total_pos | lra]. }
  split.
  - apply rnd_nonneg. apply Qmult_le_0_compat; [exact Ha0 | discriminate].
  - apply (rnd_le_float fmt fmt_ok).
    + apply (is_float_small_Z 100). lia.
    + apply Qmult_le_0_compat; [exact Ha0 | discriminate].
    + lra.
Qed.

End FiniteTotal.

Lemma tolerance_eq :
  800 * Ieee.pow2 (- Ieee.prec fmt) == 100 * Ieee.pow2 (3 - Ieee.prec fmt).
Proof.
  replace (3 - Ieee.prec fmt)%Z with (3 + - Ieee.prec fmt)%Z by lia.
  rewrite pow2_add. change (Ieee.pow2 3) with 8. ring.
Qed.

(** C2 (amended).  In floating point, for magnitudes that are numbers
    of the format and not negative: when the two band powers are finite
    and their sum, as the code computes it, is finite and positive, both
    ratios are finite, each is within [100 * 2^(3-prec)] of the exact
    percentage of its band power in the exact total, and their sum is
    within [100 * 2^(3-prec)] of 100. *)
Theorem float_ratios_sum_to_100
  (frequencies : list Q) (magnitude : list Np.float) (low high total : Q) :
  Forall (Ieee.nonneg_float fmt) magnitude ->
  MainFloat.low_power np_sum frequencies magnitude = inr (Np.Fin low) ->
  MainFloat.high_power np_sum frequencies magnitude = inr (Np.Fin high) ->
  MainFloat.total_power fmt (Np.Fin low) (Np.Fin high) = Np.Fin total ->
  0 < total ->
  exists low_ratio high_ratio,
    MainFloat.ratios fmt np_sum frequencies magnitude
    = inr (Np.Fin low_ratio, Np.Fin high_ratio)
    /\ Qabs (low_ratio - 100 * low / (low + high))
       <= 100 * Ieee.pow2 (3 - Ieee.prec fmt)
    /\ Qabs (high_ratio - 100 * high / (low + high))
       <= 100 * Ieee.pow2 (3 - Ieee.prec fmt)
    /\ Qabs (low_ratio + high_ratio - 100)
       <= 100 * Ieee.pow2 (3 - Ieee.prec fmt).
Proof.
  intros Hm El Eh Et Ht.
  destruct (band_power_nonneg _ _ _ Hm El) as [E | (l & E & Hl0 & Hlf)];
    [discriminate E |]. injection E as <-.
  destruct (band_power_nonneg _ _ _ Hm Eh) as [E | (h & E & Hh0 & Hhf)];
    [discriminate E |]. injection E as <-.
  pose proof (exact_total_pos low high total Hl0 Hh0 Et Ht) as Hs.
  pose proof (total_error low high total Hlf Hhf Hl0 Hh0 Et Ht) as Hte.
  set (a := Ieee.rnd fmt (low / total)).
  set (b := Ieee.rnd fmt (high / total)).
  pose proof (rnd_error fmt (low / total)
                (quotient_nonneg total Ht low Hl0)) as Ha.
  pose proof (rnd_error fmt (high / total)
                (quotient_nonneg total Ht high Hh0)) as Hb.
  fold a in Ha. fold b in Hb.
  assert (Ha0 : 0 <= a * 100).
  { apply Qmult_le_0_compat; [| discriminate].
    apply rnd_nonneg, quotient_nonneg; assumption. }
  assert (Hb0 : 0 <= b * 100).
  { apply Qmult_le_0_compat; [| discriminate].
    apply rnd_nonneg, quotient_nonneg; assumption. }
  pose proof (rnd_error fmt (a * 100) Ha0) as Hra.
  pose proof (rnd_error fmt (b * 100) Hb0) as Hrb.
  exists (Ieee.rnd fmt (a * 100)), (Ieee.rnd fmt (b * 100)).
  split; [| split; [| split]].
  - unfold MainFloat.ratios. rewrite El, Eh. cbn [Py.bind Py.ret].
    rewrite (ratios_of_powers_finite low high total Hlf Hhf Hl0 Hh0 Et Ht).
    reflexivity.
  - rewrite <- tolerance_eq.
    apply (ratio_error _ _ (pow2_pos _) unit_roundoff_small
             half_smallest_small low high total Hs Hte low a);
      try assumption; lra.
  - rewrite <- tolerance_eq.
    apply (ratio_error _ _ (pow2_pos _) unit_roundoff_small
             half_smallest_small low high total Hs Hte high b);
      try assumption; lra.
  - rewrite <- tolerance_eq.
    apply (ratio_sum_error _ _ (pow2_pos _) unit_roundoff_small
             half_smallest_small low high total Hl0 Hh0 Hs Hte a b);
      assumption.
Qed.

(** The ratios for one pair of band powers: nan where the band power is
    plus infinity, and otherwise a number of [0, 100]; both 0 when the
    total is zero. *)
Lemma ratios_of_powers_cases (lp hp : Np.float) :
  lp = Np.PInf \/ Ieee.nonneg_float fmt lp ->
  hp = Np.PInf \/ Ieee.nonneg_float fmt hp ->
  exists low_ratio high_ratio,
    MainFloat.ratios_of_powers fmt lp hp = (low_ratio, high_ratio)
    /\ (lp = Np.PInf -> low_ratio = Np.NaN)
    /\ (hp = Np.PInf -> high_ratio = Np.NaN)
    /\ (lp <> Np.PInf ->
        exists q, low_ratio = Np.Fin q /\ 0 <= q /\ q <= 100)
    /\ (hp <> Np.PInf ->
        exists q, high_ratio = Np.Fin q /\ 0 <= q /\ q <= 100)
    /\ (forall t, MainFloat.total_power fmt lp hp = Np.Fin t -> t == 0 ->
        low_ratio = Np.Fin 0 /\ high_ratio = Np.Fin 0).
Proof.
  assert (Z0 : exists q : Q, Np.Fin 0 = Np.Fin q /\ 0 <= q /\ q <= 100)
    by (exists 0; split; [reflexivity | split; discriminate]).
  assert (M0 : Ieee.mul fmt (Np.Fin 0) (Np.Fin 100) = Np.Fin 0)
    by (cbn [Ieee.mul]; apply round_zero; ring).
  intros [-> | (l & -> & Hl0 & Hlf)] [-> | (h & -> & Hh0 & Hhf)].
  - exists Np.NaN, Np.NaN. split; [reflexivity |].
    repeat split; try reflexivity; try congruence; discriminate.
  - exists Np.NaN, (Np.Fin 0). split.
    + unfold MainFloat.ratios_of_powers, MainFloat.total_power.
      cbn [Ieee.add Np.gt Ieee.div]. rewrite M0. reflexivity.
    + repeat split; try reflexivity; try congruence; try discriminate;
        try (intros _; exact Z0).
  - exists (Np.Fin 0), Np.NaN. split.
    + unfold MainFloat.ratios_of_powers, MainFloat.total_power.
      cbn [Ieee.add Np.gt Ieee.div]. rewrite M0. reflexivity.
    + repeat split; try reflexivity; try congruence; try discriminate;
        try (intros _; exact Z0).
  - destruct (total_power_cases l h Hl0 Hh0) as [E | E].
    + exists (Np.Fin 0), (Np.Fin 0).
      split; [apply ratios_of_powers_overflow; exact E |].
      repeat split; try discriminate; try (intros _; exact Z0).
    + destruct (Qlt_le_dec 0 (Ieee.rnd fmt (l + h))) as [Ht | Ht].
      * pose proof (power_le_total l h _ Hlf Hhf Hl0 Hh0 E Ht) as [Hlt Hht].
        eexists. eexists.
        split; [apply (ratios_of_powers_finite l h _ Hlf Hhf Hl0 Hh0 E Ht) |].
        split; [discriminate |]. split; [discriminate |].
        split; [| split].
        -- intros _. eexists. split; [reflexivity |].
           apply (ratio_range _ Ht l Hl0 Hlt).
        -- intros _. eexists. split; [reflexivity |].
           apply (ratio_range _ Ht h Hh0 Hht).
        -- intros t Et Hz. rewrite E in Et. injection Et as <-.
           rewrite Hz in Ht. discriminate Ht.
      * exists (Np.Fin 0), (Np.Fin 0).
        split; [apply (ratios_of_powers_zero l h _ E Ht) |].
        repeat split; try discriminate; try (intros _; exact Z0).
Qed.

(** C3 (amended).  In floating point, for magnitudes that are numbers
    of the format and not negative, the ratios are computed without
    error; when the total is zero both are 0; a ratio is nan exactly
    when its band power is plus infinity, and otherwise it is finite. *)
Theorem float_ratios_defined
  (frequencies : list Q) (magnitude : list Np.float) :
  length frequencies = length magnitude ->
  Forall (Ieee.nonneg_float fmt) magnitude ->
  exists low_power high_power low_ratio high_ratio,
    MainFloat.low_power np_sum frequencies magnitude = inr low_power
    /\ MainFloat.high_power np_sum frequencies magnitude = inr high_power
    /\ MainFloat.ratios fmt np_sum frequencies magnitude
       = inr (low_ratio, high_ratio)
    /\ (forall total,
          MainFloat.total_power fmt low_power high_power = Np.Fin total ->
          total == 0 ->
          low_ratio = Np.Fin 0 /\ high_ratio = Np.Fin 0)
    /\ (low_ratio = Np.NaN <-> low_power = Np.PInf)
    /\ (high_ratio = Np.NaN <-> high_power = Np.PInf)
    /\ (low_power <> Np.PInf -> Np.is_finite low_ratio)
    /\ (high_power <> Np.PInf -> Np.is_finite high_ratio).
Proof.
  intros Hlen Hm.
  destruct (band_power_ok magnitude (Main.low_freq_mask frequencies))
    as [lp El]; [unfold Main.low_freq_mask; rewrite length_map; auto |].
  destruct (band_power_ok magnitude (Main.high_freq_mask frequencies))
    as [hp Eh]; [unfold Main.high_freq_mask; rewrite length_map; auto |].
  pose proof (band_power_nonneg _ _ _ Hm El) as Hl.
  pose proof (band_power_nonneg _ _ _ Hm Eh) as Hh.
  destruct (ratios_of_powers_cases lp hp Hl Hh)
    as (lr & hr & E & L1 & H1 & L2 & H2 & Z).
  exists lp, hp, lr, hr.
  split; [exact El |]. split; [exact Eh |].
  split; [unfold MainFloat.ratios, MainFloat.low_power, MainFloat.high_power;
          rewrite El, Eh; cbn [Py.bind Py.ret]; rewrite E; reflexivity |].
  split; [exact Z |].
  assert (Dl : {lp = Np.PInf} + {lp <> Np.PInf})
    by (destruct lp; (left; reflexivity) || (right; discriminate)).
  assert (Dh : {hp = Np.PInf} + {hp <> Np.PInf})
    by (destruct hp; (left; reflexivity) || (right; discriminate)).
  split; [| split; [| split]].
  - split; [| exact L1]. intros En. destruct Dl as [Dl | Dl]; [exact Dl |].
    destruct (L2 Dl) as (q & Eq & _). congruence.
  - split; [| exact H1]. intros En. destruct Dh as [Dh | Dh]; [exact Dh |].
    destruct (H2 Dh) as (q & Eq & _). congruence.
  - intros Dl'. destruct (L2 Dl') as (q & -> & _). exact I.
  - intros Dh'. destruct (H2 Dh') as (q & -> & _). exact I.
Qed.

(** In floating point, for magnitudes that are numbers of the format
    and not negative, each ratio is nan (its band power is plus
    infinity) or a number of [0, 100]: rounding does not carry a ratio
    above 100. *)
Theorem float_ratios_are_percentages
  (frequencies : list Q) (magnitude : list Np.float) :
  length frequencies = length magnitude ->
  Forall (Ieee.nonneg_float fmt) magnitude ->
  exists low_ratio high_ratio,
    MainFloat.ratios fmt np_sum frequencies magnitude
    = inr (low_ratio, high_ratio)
    /\ (low_ratio = Np.NaN
        \/ exists q, low_ratio = Np.Fin q /\ 0 <= q /\ q <= 100)
    /\ (high_ratio = Np.NaN
        \/ exists q, high_ratio = Np.Fin q /\ 0 <= q /\ q <= 100).
Proof.
  intros Hlen Hm.
  destruct (band_power_ok magnitude (Main.low_freq_mask frequencies))
    as [lp El]; [unfold Main.low_freq_mask; rewrite length_map; auto |].
  destruct (band_power_ok magnitude (Main.high_freq_mask frequencies))
    as [hp Eh]; [unfold Main.high_freq_mask; rewrite length_map; auto |].
  pose proof (band_power_nonneg _ _ _ Hm El) as Hl.
  pose proof (band_power_nonneg _ _ _ Hm Eh) as Hh.
  destruct (ratios_of_powers_cases lp hp Hl Hh)
    as (lr & hr & E & L1 & H1 & L2 & H2 & _).
  exists lr, hr.
  split; [unfold MainFloat.ratios, MainFloat.low_power, MainFloat.high_power;
          rewrite El, Eh; cbn [Py.bind Py.ret]; rewrite E; reflexivity |].
  split.
  - assert (Dl : {lp = Np.PInf} + {lp <> Np.PInf})
      by (destruct lp; (left; reflexivity) || (right; discriminate)).
    destruct Dl as [Dl | Dl]; [left; exact (L1 Dl) | right; exact (L2 Dl)].
  - assert (Dh : {hp = Np.PInf} + {hp <> Np.PInf})
      by (destruct hp; (left; reflexivity) || (right; discriminate)).
    destruct Dh as [Dh | Dh]; [left; exact (H1 Dh) | right; exact (H2 Dh)].
Qed.

End FloatRatios.

(** ** The band ratios on binary64 *)

Lemma binary64_valid : Ieee.valid Ieee.binary64.
Proof. split; cbn; lia. Qed.

Lemma nonneg_float_Z (n : Z) :
  (0 <= n < 256)%Z -> Ieee.nonneg_float Ieee.binary64 (Np.Fin (inject_Z n)).
Proof.
  intros H. exists (inject_Z n). split; [reflexivity |].
  split; [rewrite <- (Zle_Qle 0); lia |].
  apply (is_float_small_Z Ieee.binary64 binary64_valid). exact H.
Qed.

(** [2^1023] is a number of binary64. *)
Lemma nonneg_float_large :
  Ieee.nonneg_float Ieee.binary64 (Np.Fin (Ieee.pow2 1023)).
Proof.
  exists (Ieee.pow2 1023). split; [reflexivity |].
  split; [apply Qlt_le_weak, pow2_pos |].
  exists 1%Z, 1023%Z. split; [ring | split; [| split]].
  - reflexivity.
  - vm_compute. discriminate.
  - rewrite Qabs_nonneg_eq by (apply Qlt_le_weak, pow2_pos).
    apply pow2_lt. reflexivity.
Qed.

(** C2 (the claim as stated fails).  In binary64, magnitude [2^1023]
    at 100 Hz and at 2000 Hz: the band powers are finite, their sum
    overflows to plus infinity, which is [> 0], and both quotients by
    it are 0: the ratios are 0 and 0, and do not add up to 100. *)
Lemma overflowing_total_gives_zero_ratios :
  ~ (forall (frequencies : list Q) (magnitude : list Np.float)
            (low_power high_power low_ratio high_ratio : Np.float),
        Forall (Ieee.nonneg_float Ieee.binary64) magnitude ->
        MainFloat.low_power (Ieee.sum_left Ieee.binary64) frequencies magnitude
        = inr low_power ->
        MainFloat.high_power (Ieee.sum_left Ieee.binary64) frequencies magnitude
        = inr high_power ->
        Np.gt (MainFloat.total_power Ieee.binary64 low_power high_power) 0
        = true ->
        MainFloat.ratios Ieee.binary64 (Ieee.sum_left Ieee.binary64)
          frequencies magnitude
        = inr (low_ratio, high_ratio) ->
        exists l h,
          low_ratio = Np.Fin l /\ high_ratio = Np.Fin h
          /\ Qabs (l + h - 100) <= 1).
Proof.
  intros H.
  assert (Hm : Forall (Ieee.nonneg_float Ieee.binary64)
                 [Np.Fin (Ieee.pow2 1023); Np.Fin (Ieee.pow2 1023)])
    by (repeat constructor; apply nonneg_float_large).
  destruct (H [100; 2000] [Np.Fin (Ieee.pow2 1023); Np.Fin (Ieee.pow2 1023)]
              (Np.Fin (Ieee.pow2 1023)) (Np.Fin (Ieee.pow2 1023))
              (Np.Fin 0) (Np.Fin 0) Hm)
    as (l & h & El & Eh & Hb); try (vm_compute; reflexivity).
  injection El as <-. injection Eh as <-.
  vm_compute in Hb. apply Hb. reflexivity.
Qed.

(** C3 (the claim as stated fails).  In binary64, magnitude [2^1023] at
    100 Hz and at 200 Hz: the low band power overflows to plus
    infinity, so does the total, which is [> 0], and the low ratio is
    infinity over infinity: nan. *)
Lemma overflowing_band_gives_nan :
  ~ (forall (frequencies : list Q) (magnitude : list Np.float)
            (low_ratio high_ratio : Np.float),
        Forall (Ieee.nonneg_float Ieee.binary64) magnitude ->
        MainFloat.ratios Ieee.binary64 (Ieee.sum_left Ieee.binary64)
          frequencies magnitude
        = inr (low_ratio, high_ratio) ->
        low_ratio <> Np.NaN /\ high_ratio <> Np.NaN).
Proof.
  intros H.
  assert (Hm : Forall (Ieee.nonneg_float Ieee.binary64)
                 [Np.Fin (Ieee.pow2 1023); Np.Fin (Ieee.pow2 1023)])
    by (repeat constructor; apply nonneg_float_large).
  destruct (H [100; 200] [Np.Fin (Ieee.pow2 1023); Np.Fin (Ieee.pow2 1023)]
              Np.NaN (Np.Fin 0) Hm) as [Hl _];
    [vm_compute; reflexivity |].
  apply Hl. reflexivity.
Qed.

(** ** Spectrogram *)

Lemma stride_from_length {A} (s k : nat) (l : list A) :
  length (Mlab.stride_from (S s) k l)
  = if (length l <=? k)%nat then 0%nat
    else ((length l - k - 1) / S s + 1)%nat.
Proof.
  revert k. induction l as [| x l IH]; intros k; [reflexivity |].
  destruct k as [| k]; cbn [Mlab.stride_from length].
  - rewrite IH. replace (S s - 1)%nat with s by lia.
    change (S (length l) <=? 0)%nat with false.
    replace (S (length l) - 0 - 1)%nat with (length l) by lia.
    destruct (Nat.leb_spec (length l) s) as [Hs | Hs].
    + rewrite Nat.div_small by lia. reflexivity.
    + replace (length l) with ((length l - s - 1) + 1 * S s)%nat at 2 by lia.
      rewrite Nat.div_add by lia. lia.
  - rewrite IH. change (S (length l) <=? S k)%nat with (length l <=? k)%nat.
    reflexivity.
Qed.

Lemma zero_pad_length (x : list Q) (NFFT : nat) :
  length (Mlab.zero_pad x NFFT) = Nat.max (length x) NFFT.
Proof.
  unfold Mlab.zero_pad. destruct (Nat.ltb_spec (length x) NFFT).
  - rewrite length_app, repeat_length. lia.
  - lia.
Qed.

(** The number of windows: one, and one more for every further hop of
    [NFFT - noverlap] samples that fits. *)
Lemma windows_length (x : list Q) (NFFT hop : nat) :
  (0 < hop)%nat -> (NFFT <= length x)%nat ->
  length (Mlab.stride hop (Mlab.sliding_window_view x NFFT))
  = ((length x - NFFT) / hop + 1)%nat.
Proof.
  intros Hh Hx. destruct hop as [| s]; [lia |].
  unfold Mlab.stride. rewrite stride_from_length.
  unfold Mlab.sliding_window_view. rewrite length_map, length_seq.
  destruct (Nat.leb_spec (length x - NFFT + 1) 0); [lia |].
  do 2 f_equal. lia.
Qed.

Lemma negate_last_app (l : list Q) (x : Q) :
  Mlab.negate_last (l ++ [x]) = l ++ [- x].
Proof.
  unfold Mlab.negate_last. rewrite rev_app_distr. cbn [rev app].
  rewrite rev_involutive. reflexivity.
Qed.

Section SpectrogramFacts.

Variable psd : Z -> list Q -> list Q.

Lemma plot_spectrogram_eq (sample_rate : Z) (audio_data : list Q) :
  sample_rate <> 0%Z ->
  plot_spectrogram psd sample_rate audio_data
  = inr {| spectrum :=
             map (psd sample_rate)
                 (Mlab.stride 512
                    (Mlab.sliding_window_view
                       (Mlab.zero_pad audio_data 1024) 1024));
           freqs :=
             Mlab.negate_last
               (firstn 513 (Np.fftfreq 1024 (1 / inject_Z sample_rate)));
           times :=
             map (fun v => v / inject_Z sample_rate)
                 (Mlab.arange_step
                    (inject_Z 1024 / 2)
                    (inject_Z (Z.of_nat (length (Mlab.zero_pad audio_data 1024)))
                     - inject_Z 1024 / 2 + 1)
                    (inject_Z 512));
           clim := (-80, 0);
           ylim := (0, 3000) |}.
Proof.
  intros Hs. unfold plot_spectrogram, Mlab.specgram, py_inverse.
  change (1024 <=? 512)%nat with false. cbv iota.
  destruct (Z.eqb_spec sample_rate 0) as [E | _]; [contradiction |].
  cbn [Py.bind Py.ret].
  change (Nat.odd 1024) with false. cbv iota.
  change (1024 / 2 + 1)%nat with 513%nat.
  change (1024 - 512)%nat with 512%nat.
  change (Z.of_nat 1024) with 1024%Z.
  change (Z.of_nat 512) with 512%Z.
  reflexivity.
Qed.

Lemma Qceiling_div_512 (m : Z) :
  Qceiling (inject_Z m / inject_Z 512) = (- ((- m) / 512))%Z.
Proof.
  unfold Qceiling, Qfloor, Qopp, Qdiv, Qmult, Qinv, inject_Z.
  cbn [Qnum Qden]. rewrite Z.mul_1_r. reflexivity.
Qed.

(** [t] has one entry per window. *)
Lemma time_bins_length (len : nat) :
  (1024 <= len)%nat ->
  length (Mlab.arange_step
            (inject_Z 1024 / 2)
            (inject_Z (Z.of_nat len) - inject_Z 1024 / 2 + 1)
            (inject_Z 512))
  = ((len - 1024) / 512 + 1)%nat.
Proof.
  intros Hlen. unfold Mlab.arange_step. rewrite length_map, length_seq.
  assert (E : (inject_Z (Z.of_nat len) - inject_Z 1024 / 2 + 1
               - inject_Z 1024 / 2) / inject_Z 512
              == inject_Z (Z.of_nat len - 1023) / inject_Z 512).
  { unfold Zminus. rewrite inject_Z_plus, inject_Z_opp.
    change (inject_Z 1024) with (1024 # 1).
    change (inject_Z 1023) with (1023 # 1).
    change (inject_Z 512) with (512 # 1).
    field. }
  rewrite E, Qceiling_div_512.
  apply Nat2Z.inj. rewrite Nat2Z.inj_add, Nat2Z.inj_div, Nat2Z.inj_sub by lia.
  change (Z.of_nat 512) with 512%Z. change (Z.of_nat 1024) with 1024%Z.
  change (Z.of_nat 1) with 1%Z.
  pose proof (Z.div_mod (- (Z.of_nat len - 1023)) 512 ltac:(lia)).
  pose proof (Z.mod_pos_bound (- (Z.of_nat len - 1023)) 512 ltac:(lia)).
  pose proof (Z.div_mod (Z.of_nat len - 1024) 512 ltac:(lia)).
  pose proof (Z.mod_pos_bound (Z.of_nat len - 1024) 512 ltac:(lia)).
  rewrite Z2Nat.id by lia. lia.
Qed.

(** The figure has as many time bins as windows of 1024 samples, hop
    512, fit in the clip once it is padded with zeros to 1024. *)
Lemma plot_spectrogram_bins (sample_rate : Z) (audio_data : list Q) :
  sample_rate <> 0%Z ->
  exists fig,
    plot_spectrogram psd sample_rate audio_data = inr fig
    /\ length (times fig)
       = ((Nat.max (length audio_data) 1024 - 1024) / 512 + 1)%nat
    /\ length (spectrum fig)
       = ((Nat.max (length audio_data) 1024 - 1024) / 512 + 1)%nat.
Proof.
  intros Hs. eexists. split; [apply plot_spectrogram_eq; exact Hs |].
  cbn [times spectrum]. rewrite !length_map.
  pose proof (zero_pad_length audio_data 1024) as Hp.
  rewrite time_bins_length by lia.
  rewrite windows_length by lia.
  rewrite Hp. split; reflexivity.
Qed.

(** C5 (as amended).  A clip of 1023 samples, shorter than one window,
    is not refused: it is padded with zeros to 1024 samples and the
    figure has exactly one time bin, the spectrum of that padded
    window; a clip of exactly 1024 samples gives exactly one time bin
    too (window 1024, overlap 512). *)
Theorem short_clip_one_time_bin (sample_rate : Z) (audio_data : list Q) :
  (0 < sample_rate)%Z ->
  length audio_data = 1023%nat \/ length audio_data = 1024%nat ->
  exists fig,
    plot_spectrogram psd sample_rate audio_data = inr fig
    /\ length (times fig) = 1%nat
    /\ spectrum fig
       = [psd sample_rate
            (audio_data ++ repeat 0 (1024 - length audio_data))].
Proof.
  intros Hs Hlen.
  eexists. split; [apply plot_spectrogram_eq; lia |].
  cbn [times spectrum]. split.
  - rewrite length_map.
    pose proof (zero_pad_length audio_data 1024) as Hp.
    rewrite time_bins_length by lia. rewrite Hp.
    destruct Hlen as [-> | ->]; reflexivity.
  - assert (Hp : Mlab.zero_pad audio_data 1024
                 = audio_data ++ repeat 0 (1024 - length audio_data)).
    { unfold Mlab.zero_pad.
      destruct (Nat.ltb_spec (length audio_data) 1024) as [_ | Hge];
        [reflexivity |].
      replace (1024 - length audio_data)%nat with 0%nat by lia.
      cbn [repeat]. rewrite app_nil_r. reflexivity. }
    rewrite Hp.
    set (y := audio_data ++ repeat 0 (1024 - length audio_data)).
    assert (Hy : length y = 1024%nat)
      by (subst y; rewrite length_app, repeat_length; lia).
    unfold Mlab.sliding_window_view. rewrite Hy.
    change (1024 - 1024 + 1)%nat with 1%nat.
    cbn [seq map skipn Mlab.stride Mlab.stride_from].
    rewrite firstn_all2 by lia. reflexivity.
Qed.

Lemma specgram_freqs (sample_rate : Z) :
  (0 < sample_rate)%Z ->
  Forall2 Qeq
    (Mlab.negate_last
       (firstn 513 (Np.fftfreq 1024 (1 / inject_Z sample_rate))))
    (map (fun k => inject_Z (Z.of_nat k) * inject_Z sample_rate / 1024)
         (seq 0 513)).
Proof.
  intros Hs. unfold Np.fftfreq. fold (bin_width 1024 sample_rate).
  pose proof (bin_width_eq 1024 sample_rate ltac:(lia) Hs) as Ew.
  set (w := bin_width 1024 sample_rate) in *.
  rewrite firstn_map.
  replace (firstn 513 (Np.arange 0 ((1024 - 1) / 2 + 1)
                       ++ Np.arange (- (1024 / 2)) 0))
    with (map (fun i => (0 + Z.of_nat i)%Z) (seq 0 512) ++ [(-512)%Z])
    by (vm_compute; reflexivity).
  rewrite map_app, map_map. cbn [map]. rewrite negate_last_app.
  change (seq 0 513) with (seq 0 (512 + 1)). rewrite seq_app, map_app.
  apply Forall2_app.
  - apply Forall2_map_same. intros i _. cbn beta.
    rewrite Z.add_0_l, Ew. change (inject_Z 1024) with (1024 # 1). field.
  - cbn [seq map]. constructor; [| constructor].
    rewrite Ew. change (inject_Z 1024) with (1024 # 1).
    change (inject_Z (-512)) with (-512 # 1).
    change (inject_Z (Z.of_nat (0 + 512))) with (512 # 1). field.
Qed.

(** C8 (as amended).  The figure shows the frequency axis from 0 to
    3000 Hz: that is a limit of the view.  The frequency bins that
    [specgram] computed are all kept, [k * sample_rate / 1024] for
    [k = 0, ..., 512], up to half the sample rate, and every column of
    the grid is the whole spectrum of its window. *)
Theorem frequency_axis_view_limit (sample_rate : Z) (audio_data : list Q) :
  (0 < sample_rate)%Z ->
  exists fig,
    plot_spectrogram psd sample_rate audio_data = inr fig
    /\ ylim fig = (0, 3000)
    /\ Forall2 Qeq (freqs fig)
         (map (fun k => inject_Z (Z.of_nat k) * inject_Z sample_rate / 1024)
              (seq 0 513))
    /\ spectrum fig
       = map (psd sample_rate)
           (Mlab.stride 512
              (Mlab.sliding_window_view
                 (Mlab.zero_pad audio_data 1024) 1024)).
Proof.
  intros Hs. eexists. split; [apply plot_spectrogram_eq; lia |].
  cbn [ylim freqs spectrum]. split; [reflexivity |].
  split; [apply specgram_freqs; exact Hs | reflexivity].
Qed.

End SpectrogramFacts.

(** C5 (the claim as stated fails).  A clip of 1023 samples is not
    refused: for 1023 zeros at 8000 Hz the call returns a figure. *)
Lemma short_clip_is_not_refused :
  ~ (forall (psd : Z -> list Q -> list Q) (sample_rate : Z)
            (audio_data : list Q),
        length audio_data = 1023%nat ->
        exists e, plot_spectrogram psd sample_rate audio_data = inl e).
Proof.
  intros H.
  destruct (H silent_psd 8000%Z (repeat 0 1023) (repeat_length _ _)) as [e He].
  rewrite plot_spectrogram_eq in He by discriminate. discriminate He.
Qed.

(** C8 (the claim as stated fails).  At 8000 Hz the frequency bins of
    the figure reach 4000 Hz: bin 512 is above 3000 Hz. *)
Lemma frequency_bins_exceed_3000 :
  ~ (forall (psd : Z -> list Q -> list Q) (sample_rate : Z)
            (audio_data : list Q) (fig : Figure),
        plot_spectrogram psd sample_rate audio_data = inr fig ->
        Forall (fun f => f <= 3000) (freqs fig)).
Proof.
  intros H.
  pose proof (H silent_psd 8000%Z (repeat 0 1024) _
                (plot_spectrogram_eq silent_psd 8000 (repeat 0 1024)
                   ltac:(discriminate))) as HF.
  cbn [freqs] in HF.
  pose proof (proj1 (Forall_nth _ _) HF 512%nat 0) as Hn.
  assert (Hlen : (512 < length (Mlab.negate_last
                    (firstn 513 (Np.fftfreq 1024 (1 / inject_Z 8000)))))%nat)
    by (vm_compute; lia).
  specialize (Hn Hlen). vm_compute in Hn. apply Hn. reflexivity.
Qed.

(** ** The statements on concrete input *)

Lemma small_fft_length (a : list Q) : length (small_fft a) = length a.
Proof.
  destruct a as [| x [| y [| z l]]]; cbn [small_fft length map];
    rewrite ?length_map; reflexivity.
Qed.

(** Magnitude 3 at 100 Hz and 1 at 2000 Hz, in binary64 and summed from
    left to right: 75 and 25. *)
Lemma float_ratios_sum_to_100_witness :
  Forall (Ieee.nonneg_float Ieee.binary64) [Np.Fin 3; Np.Fin 1]
  /\ exists low_ratio high_ratio,
      MainFloat.ratios Ieee.binary64 (Ieee.sum_left Ieee.binary64)
        [100; 2000] [Np.Fin 3; Np.Fin 1]
      = inr (Np.Fin low_ratio, Np.Fin high_ratio)
      /\ Qabs (low_ratio
               - 100 * Ieee.rnd Ieee.binary64 (0 + 3)
                 / (Ieee.rnd Ieee.binary64 (0 + 3)
                    + Ieee.rnd Ieee.binary64 (0 + 1)))
         <= 100 * Ieee.pow2 (3 - Ieee.prec Ieee.binary64)
      /\ Qabs (high_ratio
               - 100 * Ieee.rnd Ieee.binary64 (0 + 1)
                 / (Ieee.rnd Ieee.binary64 (0 + 3)
                    + Ieee.rnd Ieee.binary64 (0 + 1)))
         <= 100 * Ieee.pow2 (3 - Ieee.prec Ieee.binary64)
      /\ Qabs (low_ratio + high_ratio - 100)
         <= 100 * Ieee.pow2 (3 - Ieee.prec Ieee.binary64).
Proof.
  assert (Hm : Forall (Ieee.nonneg_float Ieee.binary64) [Np.Fin 3; Np.Fin 1])
    by (repeat constructor; [apply (nonneg_float_Z 3) | apply (nonneg_float_Z 1)];
        lia).
  split; [exact Hm |].
  apply (float_ratios_sum_to_100 Ieee.binary64 binary64_valid
           (Ieee.sum_left Ieee.binary64)
           (sum_left_nonneg Ieee.binary64 binary64_valid)
           [100; 2000] [Np.Fin 3; Np.Fin 1]
           (Ieee.rnd Ieee.binary64 (0 + 3)) (Ieee.rnd Ieee.binary64 (0 + 1))
           (Ieee.rnd Ieee.binary64
              (Ieee.rnd Ieee.binary64 (0 + 3) + Ieee.rnd Ieee.binary64 (0 + 1)))
           Hm);
    vm_compute; reflexivity.
Defined.

(** A silent spectrum. *)
Lemma float_ratios_defined_witness :
  length [0; 1500] = length [Np.Fin 0; Np.Fin 0]
  /\ Forall (Ieee.nonneg_float Ieee.binary64) [Np.Fin 0; Np.Fin 0]
  /\ exists low_power high_power low_ratio high_ratio,
      MainFloat.low_power (Ieee.sum_left Ieee.binary64)
        [0; 1500] [Np.Fin 0; Np.Fin 0] = inr low_power
      /\ MainFloat.high_power (Ieee.sum_left Ieee.binary64)
           [0; 1500] [Np.Fin 0; Np.Fin 0] = inr high_power
      /\ MainFloat.ratios Ieee.binary64 (Ieee.sum_left Ieee.binary64)
           [0; 1500] [Np.Fin 0; Np.Fin 0]
         = inr (low_ratio, high_ratio)
      /\ (forall total,
            MainFloat.total_power Ieee.binary64 low_power high_power
            = Np.Fin total ->
            total == 0 ->
            low_ratio = Np.Fin 0 /\ high_ratio = Np.Fin 0)
      /\ (low_ratio = Np.NaN <-> low_power = Np.PInf)
      /\ (high_ratio = Np.NaN <-> high_power = Np.PInf)
      /\ (low_power <> Np.PInf -> Np.is_finite low_ratio)
      /\ (high_power <> Np.PInf -> Np.is_finite high_ratio).
Proof.
  assert (Hm : Forall (Ieee.nonneg_float Ieee.binary64) [Np.Fin 0; Np.Fin 0])
    by (repeat constructor; apply (nonneg_float_Z 0); lia).
  split; [reflexivity |]. split; [exact Hm |].
  apply (float_ratios_defined Ieee.binary64 binary64_valid
           (Ieee.sum_left Ieee.binary64)
           (sum_left_nonneg Ieee.binary64 binary64_valid)
           [0; 1500] [Np.Fin 0; Np.Fin 0]); [reflexivity | exact Hm].
Defined.

(** A silent spectrum. *)
Lemma silence_is_mixed_witness :
  length [0; 1500] = length [0; 0]
  /\ band_energy 0 500 [0; 1500] [0; 0]
     + band_energy 1000 3000 [0; 1500] [0; 0] == 0
  /\ Main.classify [0; 1500] [0; 0] = inr (Np.Fin 0, Np.Fin 0, Main.MIXED).
Proof.
  split; [reflexivity |]. split; [reflexivity |].
  apply (silence_is_mixed [0; 1500] [0; 0]); reflexivity.
Defined.

(** A clip of two samples at 8000 Hz: one retained bin, 0 Hz. *)
Lemma spectrum_aligned_and_sorted_witness :
  (0 < 8000)%Z /\ [1 # 2; - (1 # 4)] <> []
  /\ exists frequencies magnitude,
      perform_fft_analysis small_fft real_abs 8000 [1 # 2; - (1 # 4)]
      = inr (frequencies, magnitude)
      /\ length frequencies = length magnitude
      /\ StronglySorted Qle frequencies
      /\ frequencies
         = firstn (length frequencies)
             (Np.fftfreq (Z.of_nat (length [1 # 2; - (1 # 4)]))
                (1 / inject_Z 8000))
      /\ magnitude
         = map real_abs
             (firstn (length frequencies) (small_fft [1 # 2; - (1 # 4)])).
Proof.
  split; [reflexivity |]. split; [discriminate |].
  apply (spectrum_aligned_and_sorted small_fft real_abs small_fft_length
           8000 [1 # 2; - (1 # 4)]); [reflexivity | discriminate].
Defined.

Lemma retained_frequencies_witness :
  (0 < 8000)%Z /\ [1 # 2; - (1 # 4)] <> []
  /\ exists frequencies magnitude,
      perform_fft_analysis small_fft real_abs 8000 [1 # 2; - (1 # 4)]
      = inr (frequencies, magnitude)
      /\ frequencies
         = filter (fun f => Qle_bool 0 f)
             (Np.fftfreq (Z.of_nat (length [1 # 2; - (1 # 4)]))
                (1 / inject_Z 8000))
      /\ Forall2 Qeq frequencies
           (map (fun k => inject_Z (Z.of_nat k) * inject_Z 8000
                          / inject_Z (Z.of_nat (length [1 # 2; - (1 # 4)])))
                (seq 0 ((length [1 # 2; - (1 # 4)] + 1) / 2)))
      /\ (exists f rest, frequencies = f :: rest /\ f == 0)
      /\ (Nat.even (length [1 # 2; - (1 # 4)]) = true ->
          Forall (fun f => f < inject_Z 8000 / 2) frequencies).
Proof.
  split; [reflexivity |]. split; [discriminate |].
  apply (retained_frequencies small_fft real_abs small_fft_length
           8000 [1 # 2; - (1 # 4)]); [reflexivity | discriminate].
Defined.

(** 1023 samples of silence at 8000 Hz. *)
Lemma short_clip_one_time_bin_witness :
  (0 < 8000)%Z
  /\ (length (repeat 0 1023) = 1023%nat \/ length (repeat 0 1023) = 1024%nat)
  /\ exists fig,
      plot_spectrogram silent_psd 8000 (repeat 0 1023) = inr fig
      /\ length (times fig) = 1%nat
      /\ spectrum fig
         = [silent_psd 8000
              (repeat 0 1023 ++ repeat 0 (1024 - length (repeat 0 1023)))].
Proof.
  split; [reflexivity |]. split; [left; apply repeat_length |].
  apply (short_clip_one_time_bin silent_psd 8000 (repeat 0 1023));
    [reflexivity | left; apply repeat_length].
Defined.

Lemma frequency_axis_view_limit_witness :
  (0 < 8000)%Z
  /\ exists fig,
      plot_spectrogram silent_psd 8000 (repeat 0 1024) = inr fig
      /\ ylim fig = (0, 3000)
      /\ Forall2 Qeq (freqs fig)
           (map (fun k => inject_Z (Z.of_nat k) * inject_Z 8000 / 1024)
                (seq 0 513))
      /\ spectrum fig
         = map (silent_psd 8000)
             (Mlab.stride 512
                (Mlab.sliding_window_view
                   (Mlab.zero_pad (repeat 0 1024) 1024) 1024)).
Proof.
  split; [reflexivity |].
  apply (frequency_axis_view_limit silent_psd 8000 (repeat 0 1024)).
  reflexivity.
Defined.

(** * Further properties of the code *)

(** ** load_audio_data on one channel *)

Lemma round_f32_error (z : Z) :
  (- 2 ^ 31 <= z < 2 ^ 31)%Z -> (Z.abs (Np.round_f32 z - z) <= 64)%Z.
Proof.
  intros H. unfold Np.round_f32.
  set (a := Z.abs z). set (e := (Z.log2 a - 23)%Z).
  destruct (Z.leb_spec e 0) as [He | He]; [rewrite Z.sub_diag; cbn; lia |].
  assert (Ha : (0 < a)%Z).
  { destruct (Z.eq_dec a 0) as [E | E]; [| subst a; lia].
    subst e. rewrite E in He. cbn in He. lia. }
  destruct (Z.eq_dec a (2 ^ 31)) as [E | E].
  - assert (Hz : (z = - 2 ^ 31)%Z) by (subst a; lia).
    clear - Hz. subst e a. rewrite Hz. vm_compute. discriminate.
  - assert (Hl : (Z.log2 a < 31)%Z) by (apply Z.log2_lt_pow2; subst a; lia).
    assert (He' : (1 <= e <= 7)%Z) by (subst e; lia).
    rewrite Z.shiftr_div_pow2 by lia.
    assert (Hpe : (2 ^ e = 2 * 2 ^ (e - 1))%Z).
    { replace e with (Z.succ (e - 1)) at 1 by lia.
      rewrite Z.pow_succ_r by lia. reflexivity. }
    assert (Hh : (0 < 2 ^ (e - 1) <= 64)%Z).
    { split; [apply Z.pow_pos_nonneg; lia |].
      change 64%Z with (2 ^ 6)%Z. apply Z.pow_le_mono_r; lia. }
    pose proof (Z.div_mod a (2 ^ e) ltac:(lia)) as Hdm.
    pose proof (Z.mod_pos_bound a (2 ^ e) ltac:(lia)) as Hr.
    set (q := (a / 2 ^ e)%Z) in *. set (r := (a mod 2 ^ e)%Z) in *.
    set (half := (2 ^ (e - 1))%Z) in *.
    assert (Hq' : (Z.abs ((if (half <? r)%Z || ((r =? half)%Z && Z.odd q)
                           then q + 1 else q) * 2 ^ e - a) <= 64)%Z).
    { destruct (Z.ltb_spec half r) as [Hlt | Hge]; cbn [orb].
      - nia.
      - destruct (Z.eqb_spec r half) as [Heq | Hne]; cbn [andb].
        + destruct (Z.odd q); nia.
        + nia. }
    revert Hq'. generalize ((if (half <? r)%Z || ((r =? half)%Z && Z.odd q)
                             then q + 1 else q) * 2 ^ e)%Z.
    intros m Hm. subst a. destruct z; cbn [Z.sgn Z.abs] in *; lia.
Qed.

(** A mono 16-bit clip: every sample is the integer divided by 32768,
    exactly, and lies in [-1, 1). *)
Theorem mono_int16_exact (sample_rate : Z) (xs : list Z) :
  Forall (fun x => (- 32768 <= x <= 32767)%Z) xs ->
  load_audio_data (sample_rate, Np.IVec Np.int16 xs)
  = (sample_rate, Np.FVec Np.float32 (map (fun x => inject_Z x / 32768) xs))
  /\ Forall (fun s => - (1) <= s /\ s < 1)
       (samples (snd (load_audio_data (sample_rate, Np.IVec Np.int16 xs)))).
Proof.
  intros H. rewrite load_mono_int16 by exact H. split; [reflexivity |].
  cbn [snd samples]. apply Forall_map. eapply Forall_impl; [| exact H].
  intros x Hx. cbn beta in Hx |- *. split.
  - apply Qle_shift_div_l; [reflexivity |].
    change (- (1) * 32768) with (inject_Z (- 32768)).
    rewrite <- Zle_Qle. lia.
  - apply Qlt_shift_div_r; [reflexivity |].
    change (1 * 32768) with (inject_Z 32768).
    rewrite <- Zlt_Qlt. lia.
Qed.

(** A mono 32-bit clip: every sample lies in [-1, 1] and is within
    2^-25 of the integer divided by 2147483648 (the conversion to
    float32 moves the integer by at most 64). *)
Theorem mono_int32_close (sample_rate : Z) (xs : list Z) :
  Forall (fun x => (- 2147483648 <= x <= 2147483647)%Z) xs ->
  exists ys,
    load_audio_data (sample_rate, Np.IVec Np.int32 xs)
    = (sample_rate, Np.FVec Np.float32 ys)
    /\ Forall (fun s => - (1) <= s /\ s <= 1) ys
    /\ Forall2 (fun s x => Qabs (s - inject_Z x / 2147483648) <= 1 # 33554432)
         ys xs.
Proof.
  intros H. eexists. split; [apply load_mono_int32 |]. split.
  - apply (load_mono_int32_range sample_rate xs H).
  - induction H as [| x xs Hx _ IH]; cbn [map]; constructor; [| exact IH].
    assert (Hr : (Z.abs (Np.round_f32 x - x) <= 64)%Z)
      by (apply round_f32_error; change (2 ^ 31)%Z with 2147483648%Z; lia).
    setoid_replace (inject_Z (Np.round_f32 x) / 2147483648
                    - inject_Z x / 2147483648)
      with (inject_Z (Np.round_f32 x - x) / 2147483648)
      by (unfold Zminus; rewrite inject_Z_plus, inject_Z_opp; field).
    apply Qabs_Qle_condition. split.
    + apply Qle_shift_div_l; [reflexivity |].
      setoid_replace (- (1 # 33554432) * 2147483648) with (inject_Z (- 64))
        by (unfold Qeq; reflexivity).
      rewrite <- Zle_Qle. lia.
    + apply Qle_shift_div_r; [reflexivity |].
      setoid_replace ((1 # 33554432) * 2147483648) with (inject_Z 64)
        by (unfold Qeq; reflexivity).
      rewrite <- Zle_Qle. lia.
Qed.

(** ** plot_spectrum *)

Lemma Qmax_cases (x y : Q) : Qmax x y = x \/ Qmax x y = y.
Proof.
  unfold Qmax, GenericMinMax.gmax. destruct (x ?= y); auto.
Qed.

Lemma fold_max_upper (l : list Q) (x : Q) :
  x <= fold_left Qmax l x /\ Forall (fun y => y <= fold_left Qmax l x) l.
Proof.
  revert x. induction l as [| y l IH]; intros x; cbn [fold_left].
  - split; [apply Qle_refl | constructor].
  - destruct (IH (Qmax x y)) as [H1 H2]. split; [| constructor].
    + eapply Qle_trans; [apply Q.le_max_l | exact H1].
    + eapply Qle_trans; [apply Q.le_max_r | exact H1].
    + exact H2.
Qed.

Lemma fold_max_attained (l : list Q) (x : Q) :
  In (fold_left Qmax l x) (x :: l).
Proof.
  revert x. induction l as [| y l IH]; intros x; cbn [fold_left].
  - left. reflexivity.
  - destruct (IH (Qmax x y)) as [H | H].
    + destruct (Qmax_cases x y) as [E | E].
      * left. rewrite <- H. symmetry. exact E.
      * right. left. rewrite <- H. symmetry. exact E.
    + right. right. exact H.
Qed.

Lemma select_mask_mismatch {A} (a : list A) (mask : list bool) :
  length a <> length mask -> Np.select_mask a mask = inl Py.IndexError.
Proof.
  revert mask. induction a as [| x a IH]; intros [| b mask] H;
    try reflexivity; [contradiction H; reflexivity |].
  cbn [Np.select_mask]. rewrite IH by (cbn in H; lia). reflexivity.
Qed.

Lemma getitem_mask_mismatch {A} (a : list A) (mask : list bool) :
  mask <> [] -> length a <> length mask ->
  Np.getitem_mask a mask = inl Py.IndexError.
Proof.
  intros Hm H. destruct mask as [| b mask]; [contradiction |].
  apply (select_mask_mismatch a (b :: mask) H).
Qed.

(** The part of the spectrum that is drawn: the bins up to 3000 Hz. *)
Lemma shown_magnitudes (frequencies magnitude : list Q) :
  length frequencies = length magnitude ->
  Np.getitem_mask magnitude (map (fun f => Qle_bool f 3000) frequencies)
  = inr (map snd (filter (fun p => Qle_bool (fst p) 3000)
                         (combine frequencies magnitude))).
Proof.
  intros H.
  rewrite getitem_mask_combine by (rewrite length_map; symmetry; exact H).
  rewrite (select_by_frequency (fun f => Qle_bool f 3000)) by exact H.
  reflexivity.
Qed.

Lemma shown_empty_iff (frequencies magnitude : list Q) :
  length frequencies = length magnitude ->
  (filter (fun p => Qle_bool (fst p) 3000) (combine frequencies magnitude) = []
   <-> Forall (fun f => 3000 < f) frequencies).
Proof.
  revert magnitude.
  induction frequencies as [| f fr IH]; intros [| m mag] H;
    try discriminate H.
  - split; [constructor | reflexivity].
  - cbn [combine filter fst].
    destruct (Qle_bool f 3000) eqn:E.
    + split; [discriminate |]. intros HF. inversion HF as [| ? ? Hf _]; subst.
      apply Qle_bool_iff in E. exfalso. exact (Qlt_not_le _ _ Hf E).
    + rewrite IH by (cbn in H; lia). apply Qle_bool_false in E.
      split; [intros HF; constructor; assumption |].
      intros HF. inversion HF; assumption.
Qed.

Lemma plot_spectrum_shape_error (frequencies magnitude : list Q) :
  length frequencies <> length magnitude ->
  exists e, plot_spectrum frequencies magnitude = inl e.
Proof.
  intros Hl. unfold plot_spectrum. rewrite getitem_mask_map. cbn [Py.bind].
  destruct frequencies as [| f fr].
  - cbn [map Np.getitem_mask Py.bind Py.ret np_max Py.raise].
    eexists. reflexivity.
  - rewrite getitem_mask_mismatch
      by (try discriminate; rewrite length_map; intros E; apply Hl;
          symmetry; exact E).
    eexists. reflexivity.
Qed.

(** [plot_spectrum] raises exactly when the two arrays differ in length
    (the boolean index is refused) or no frequency is at most 3000 Hz
    (the maximum of an empty array is refused). *)
Theorem plot_spectrum_fails_iff (frequencies magnitude : list Q) :
  (exists e, plot_spectrum frequencies magnitude = inl e)
  <-> length frequencies <> length magnitude
      \/ Forall (fun f => 3000 < f) frequencies.
Proof.
  destruct (Nat.eq_dec (length frequencies) (length magnitude)) as [Hl | Hl].
  - unfold plot_spectrum. rewrite getitem_mask_map. cbn [Py.bind].
    rewrite shown_magnitudes by exact Hl. cbn [Py.bind].
    rewrite <- (shown_empty_iff frequencies magnitude Hl).
    destruct (filter _ (combine frequencies magnitude)) as [| p l];
      cbn [map np_max Py.bind Py.raise Py.ret].
    + split; [intros _; right; reflexivity | intros _; eexists; reflexivity].
    + split; [intros [e He]; discriminate He |].
      intros [H | H]; [contradiction | discriminate H].
  - destruct (plot_spectrum_shape_error frequencies magnitude Hl) as [e He].
    rewrite He. split; [intros _; left; exact Hl |].
    intros _. eexists. reflexivity.
Qed.

Lemma true_divide_positive (m peak : Q) :
  0 < peak -> Np.true_divide m peak = Np.Fin (m / peak).
Proof.
  intros H. unfold Np.true_divide.
  rewrite Qeq_bool_false; [reflexivity |].
  intros E. rewrite E in H. discriminate H.
Qed.

(** The curve that is drawn, for magnitudes that are not negative: as
    many heights as frequencies, every frequency at most 3000 Hz, every
    height a number of [0, 1]; and when some drawn bin has a positive
    magnitude, the highest point of the curve is exactly 1. *)
Theorem plot_spectrum_normalized (frequencies magnitude : list Q)
  (fig : SpectrumFigure) :
  Forall (fun m => 0 <= m) magnitude ->
  plot_spectrum frequencies magnitude = inr fig ->
  length (line_x fig) = length (line_y fig)
  /\ Forall (fun f => f <= 3000) (line_x fig)
  /\ Forall (fun y => exists q, y = Np.Fin q /\ 0 <= q /\ q <= 1) (line_y fig)
  /\ (Exists (fun p => fst p <= 3000 /\ 0 < snd p)
        (combine frequencies magnitude) ->
      Exists (fun y => exists q, y = Np.Fin q /\ q == 1) (line_y fig)).
Proof.
  intros Hpos Hfig.
  destruct (Nat.eq_dec (length frequencies) (length magnitude)) as [Hl | Hl].
  2:{ destruct (plot_spectrum_shape_error frequencies magnitude Hl) as [e He].
      rewrite He in Hfig. discriminate Hfig. }
  unfold plot_spectrum in Hfig. rewrite getitem_mask_map in Hfig.
  rewrite shown_magnitudes in Hfig by exact Hl. cbn [Py.bind] in Hfig.
  set (shown := filter (fun p => Qle_bool (fst p) 3000)
                  (combine frequencies magnitude)) in *.
  assert (Hx : filter (fun f => Qle_bool f 3000) frequencies = map fst shown).
  { subst shown. clear - Hl. revert magnitude Hl.
    induction frequencies as [| f fr IH]; intros [| m mag] Hl;
      try discriminate Hl; [reflexivity |].
    cbn [combine filter fst]. destruct (Qle_bool f 3000); cbn [map fst];
      rewrite (IH mag) by (cbn in Hl; lia); reflexivity. }
  assert (Hshown : Forall (fun p => fst p <= 3000 /\ 0 <= snd p) shown).
  { subst shown. apply Forall_forall. intros [f m] Hin.
    apply filter_In in Hin. destruct Hin as [Hin Hle]. cbn [fst snd] in *.
    split; [apply Qle_bool_iff; exact Hle |].
    apply in_combine_r in Hin.
    exact (proj1 (Forall_forall _ _) Hpos m Hin). }
  destruct (map snd shown) as [| m0 ms] eqn:Ems;
    cbn [np_max Py.bind Py.raise Py.ret] in Hfig; [discriminate Hfig |].
  injection Hfig as <-. cbn [line_x line_y].
  set (peak := fold_left Qmax ms m0) in *.
  change (Np.true_divide m0 peak :: map (fun m => Np.true_divide m peak) ms)
    with (map (fun m => Np.true_divide m peak) (m0 :: ms)).
  change (Np.Fin m0 :: map Np.Fin ms) with (map Np.Fin (m0 :: ms)).
  destruct (fold_max_upper ms m0) as [Hm0 Hms]. fold peak in Hm0, Hms.
  assert (Hall : Forall (fun m => 0 <= m /\ m <= peak) (m0 :: ms)).
  { rewrite <- Ems. apply Forall_forall. intros m Hin.
    split.
    - apply in_map_iff in Hin. destruct Hin as [p [<- Hp]].
      exact (proj2 (proj1 (Forall_forall _ _) Hshown p Hp)).
    - rewrite Ems in Hin. destruct Hin as [<- | Hin]; [exact Hm0 |].
      exact (proj1 (Forall_forall _ _) Hms m Hin). }
  split; [| split; [| split]].
  - rewrite Hx. transitivity (length (m0 :: ms)).
    + rewrite <- Ems. transitivity (length shown);
        [apply length_map | symmetry; apply length_map].
    + destruct (Qle_bool peak 0); cbn [negb length]; rewrite length_map;
        reflexivity.
  - rewrite Hx. apply Forall_map. eapply Forall_impl; [| exact Hshown].
    intros p [Hp _]. exact Hp.
  - destruct (Qle_bool peak 0) eqn:Ep; cbn [negb].
    + apply Qle_bool_iff in Ep. apply Forall_map.
      eapply Forall_impl; [| exact Hall]. intros m [H0 H1].
      exists m. split; [reflexivity |]. split; [exact H0 |].
      eapply Qle_trans; [exact H1 |]. eapply Qle_trans; [exact Ep |].
      discriminate.
    + apply Qle_bool_false in Ep. apply Forall_map.
      eapply Forall_impl; [| exact Hall]. intros m [H0 H1].
      exists (m / peak). split; [apply true_divide_positive; exact Ep |].
      split.
      * apply Qle_shift_div_l; [exact Ep |]. rewrite Qmult_0_l. exact H0.
      * apply Qle_shift_div_r; [exact Ep |]. rewrite Qmult_1_l. exact H1.
  - intros Hex.
    assert (Hp : 0 < peak).
    { apply Exists_exists in Hex. destruct Hex as [[f m] [Hin [Hf Hm]]].
      cbn [fst snd] in *.
      assert (Hs : In (f, m) shown).
      { subst shown. apply filter_In. split; [exact Hin |].
        apply Qle_bool_iff. exact Hf. }
      assert (Hm' : In m (m0 :: ms))
        by (rewrite <- Ems; apply in_map_iff; exists (f, m); auto).
      eapply Qlt_le_trans; [exact Hm |].
      exact (proj2 (proj1 (Forall_forall _ _) Hall m Hm')). }
    rewrite (proj2 (Qle_bool_false _ _) Hp). cbn [negb].
    apply Exists_exists. exists (Np.true_divide peak peak). split.
    + apply (in_map (fun m => Np.true_divide m peak)).
      exact (fold_max_attained ms m0).
    + exists (peak / peak). split; [apply true_divide_positive; exact Hp |].
      field. intros E. rewrite E in Hp. discriminate Hp.
Qed.

(** ** The band ratios *)

Lemma band_energy_cons (lo hi f m : Q) (frequencies magnitude : list Q) :
  band_energy lo hi (f :: frequencies) (m :: magnitude)
  = if in_band lo hi f
    then m + band_energy lo hi frequencies magnitude
    else band_energy lo hi frequencies magnitude.
Proof.
  unfold band_energy. cbn [combine filter fst].
  destruct (in_band lo hi f); reflexivity.
Qed.

Lemma classify_energy (frequencies magnitude : list Q) :
  length frequencies = length magnitude ->
  Main.classify frequencies magnitude
  = let r := Main.ratios_of_powers
               (band_energy 0 500 frequencies magnitude)
               (band_energy 1000 3000 frequencies magnitude) in
    inr (fst r, snd r, Main.judge (fst r) (snd r)).
Proof.
  intros H. unfold Main.classify. rewrite ratios_energy by exact H.
  cbn [Py.bind]. destruct (Main.ratios_of_powers _ _). reflexivity.
Qed.

Lemma band_energy_agree (lo hi : Q) (frequencies magnitude magnitude' : list Q) :
  length frequencies = length magnitude ->
  length frequencies = length magnitude' ->
  (forall i f, nth_error frequencies i = Some f -> in_band lo hi f = true ->
               nth_error magnitude i = nth_error magnitude' i) ->
  band_energy lo hi frequencies magnitude
  = band_energy lo hi frequencies magnitude'.
Proof.
  revert magnitude magnitude'.
  induction frequencies as [| f fr IH]; intros [| m mag] [| m' mag'] H1 H2 Hag;
    try discriminate H1; try discriminate H2; [reflexivity |].
  rewrite !band_energy_cons.
  rewrite (IH mag mag') by
    (try (cbn in H1, H2; lia); intros i g Hi Hg; exact (Hag (S i) g Hi Hg)).
  destruct (in_band lo hi f) eqn:E; [| reflexivity].
  specialize (Hag 0%nat f eq_refl E). cbn in Hag. injection Hag as ->.
  reflexivity.
Qed.

(** Only the bins of the two bands count: two spectra on the same
    frequencies whose magnitudes agree on every bin of [0, 500] Hz and
    of [1000, 3000] Hz get the same ratios and the same verdict,
    whatever they hold between 500 and 1000 Hz or above 3000 Hz. *)
Theorem bins_outside_bands_ignored
  (frequencies magnitude magnitude' : list Q) :
  length frequencies = length magnitude ->
  length frequencies = length magnitude' ->
  (forall i f, nth_error frequencies i = Some f ->
               (0 <= f /\ f <= 500) \/ (1000 <= f /\ f <= 3000) ->
               nth_error magnitude i = nth_error magnitude' i) ->
  Main.classify frequencies magnitude = Main.classify frequencies magnitude'.
Proof.
  intros H1 H2 Hag. rewrite !classify_energy by assumption.
  rewrite (band_energy_agree 0 500 frequencies magnitude magnitude')
    by (try assumption; intros i f Hi Hb; apply (Hag i f Hi); left;
        unfold in_band in Hb; apply andb_true_iff in Hb;
        destruct Hb as [Ha Hb]; split; apply Qle_bool_iff; assumption).
  rewrite (band_energy_agree 1000 3000 frequencies magnitude magnitude')
    by (try assumption; intros i f Hi Hb; apply (Hag i f Hi); right;
        unfold in_band in Hb; apply andb_true_iff in Hb;
        destruct Hb as [Ha Hb]; split; apply Qle_bool_iff; assumption).
  reflexivity.
Qed.

(** ** perform_fft_analysis: when it raises *)

Section TransformErrors.

Variable np_fft : list Q -> list (Q * Q).
Variable np_abs : Q * Q -> Q.
Hypothesis np_fft_length : forall a, length (np_fft a) = length a.

Lemma perform_fft_analysis_empty (sample_rate : Z) :
  perform_fft_analysis np_fft np_abs sample_rate [] = inl Py.ValueError.
Proof. reflexivity. Qed.

Lemma perform_fft_analysis_zero_rate (audio_data : list Q) :
  audio_data <> [] ->
  perform_fft_analysis np_fft np_abs 0 audio_data = inl Py.ZeroDivisionError.
Proof.
  intros H. destruct audio_data as [| x l]; [contradiction | reflexivity].
Qed.

(** For a sample rate that is not negative, [perform_fft_analysis]
    raises exactly on an empty clip ([ValueError], whatever the rate)
    and on a zero rate ([ZeroDivisionError], for a clip that is not
    empty). *)
Theorem perform_fft_analysis_fails_iff
  (sample_rate : Z) (audio_data : list Q) :
  (0 <= sample_rate)%Z ->
  (perform_fft_analysis np_fft np_abs sample_rate audio_data
   = inl Py.ValueError <-> audio_data = [])
  /\ (perform_fft_analysis np_fft np_abs sample_rate audio_data
      = inl Py.ZeroDivisionError <-> audio_data <> [] /\ sample_rate = 0%Z)
  /\ ((exists e, perform_fft_analysis np_fft np_abs sample_rate audio_data
                 = inl e)
      <-> audio_data = [] \/ sample_rate = 0%Z).
Proof.
  intros Hs.
  destruct audio_data as [| x l] eqn:Ea.
  - rewrite perform_fft_analysis_empty.
    split; [| split]; split; intros H; try reflexivity; try discriminate H.
    + destruct H as [H _]. contradiction.
    + left. reflexivity.
    + eexists. reflexivity.
  - rewrite <- Ea. assert (Hne : audio_data <> []) by (subst; discriminate).
    destruct (Z.eq_dec sample_rate 0) as [E0 | E0].
    + subst sample_rate. rewrite perform_fft_analysis_zero_rate by exact Hne.
      split; [| split]; split; intros H; try reflexivity; try discriminate H.
      * contradiction.
      * split; [exact Hne | reflexivity].
      * right. reflexivity.
      * eexists. reflexivity.
    + rewrite (perform_fft_analysis_eq np_fft np_abs np_fft_length)
        by (try lia; exact Hne).
      split; [| split]; split; intros H; try discriminate H.
      * contradiction.
      * destruct H as [_ H]. contradiction.
      * destruct H as [e He]. discriminate He.
      * destruct H as [H | H]; contradiction.
Qed.

End TransformErrors.

(** ** plot_spectrogram: windows and time stamps *)

Lemma stride_from_map {A B} (f : A -> B) (step k : nat) (l : list A) :
  Mlab.stride_from step k (map f l) = map f (Mlab.stride_from step k l).
Proof.
  revert k. induction l as [| x l IH]; intros k; [reflexivity |].
  cbn [map Mlab.stride_from]. destruct k; rewrite IH; reflexivity.
Qed.

Lemma stride_from_seq (s k a n : nat) :
  Mlab.stride_from (S s) k (seq a n)
  = map (fun j => (a + k + j * S s)%nat)
        (seq 0 (if (n <=? k)%nat then 0 else (n - k - 1) / S s + 1)).
Proof.
  revert k a. induction n as [| n IH]; intros k a; [reflexivity |].
  cbn [seq Mlab.stride_from]. destruct k as [| k].
  - rewrite IH. replace (S s - 1)%nat with s by lia.
    change (S n <=? 0)%nat with false. cbv iota.
    replace (S n - 0 - 1)%nat with n by lia.
    replace (n / S s + 1)%nat with (S (n / S s)) by lia.
    cbn [seq map]. f_equal; [lia |].
    rewrite <- seq_shift, map_map.
    assert (Hc : (if (n <=? s)%nat then 0%nat else ((n - s - 1) / S s + 1)%nat)
                 = (n / S s)%nat).
    { destruct (Nat.leb_spec n s) as [Hs | Hs].
      - rewrite Nat.div_small by lia. reflexivity.
      - rewrite <- (Nat.div_add (n - s - 1) 1 (S s)) by lia.
        f_equal. lia. }
    rewrite Hc. apply map_ext. intros j. lia.
  - rewrite IH. change (S n <=? S k)%nat with (n <=? k)%nat.
    replace (S n - S k - 1)%nat with (n - k - 1)%nat by lia.
    apply map_ext. intros j. lia.
Qed.

(** Window [j] starts [j] hops into the signal. *)
Lemma windows_closed_form (x : list Q) (NFFT s : nat) :
  (NFFT <= length x)%nat ->
  Mlab.stride (S s) (Mlab.sliding_window_view x NFFT)
  = map (fun j => firstn NFFT (skipn (j * S s) x))
        (seq 0 ((length x - NFFT) / S s + 1)).
Proof.
  intros H. unfold Mlab.stride, Mlab.sliding_window_view.
  rewrite stride_from_map, stride_from_seq, map_map.
  destruct (Nat.leb_spec (length x - NFFT + 1) 0); [lia |].
  replace (length x - NFFT + 1 - 0 - 1)%nat with (length x - NFFT)%nat by lia.
  apply map_ext. intros j. reflexivity.
Qed.

Lemma time_stamps_closed_form (len : nat) :
  (1024 <= len)%nat ->
  Mlab.arange_step
    (inject_Z 1024 / 2)
    (inject_Z (Z.of_nat len) - inject_Z 1024 / 2 + 1)
    (inject_Z 512)
  = map (fun i => inject_Z 1024 / 2 + inject_Z (Z.of_nat i) * inject_Z 512)
        (seq 0 ((len - 1024) / 512 + 1)).
Proof.
  intros H. pose proof (time_bins_length len H) as Hlen.
  unfold Mlab.arange_step in *. rewrite length_map, length_seq in Hlen.
  rewrite Hlen. reflexivity.
Qed.

Section SpectrogramWindows.

Variable psd : Z -> list Q -> list Q.

Lemma plot_spectrogram_zero_rate (audio_data : list Q) :
  plot_spectrogram psd 0 audio_data = inl Py.ZeroDivisionError.
Proof.
  unfold plot_spectrogram, Mlab.specgram, py_inverse.
  change (1024 <=? 512)%nat with false. reflexivity.
Qed.

(** [plot_spectrogram] raises exactly for a zero sample rate, and then
    [ZeroDivisionError]: no clip, however short, makes it raise. *)
Theorem plot_spectrogram_fails_iff (sample_rate : Z) (audio_data : list Q) :
  ((exists e, plot_spectrogram psd sample_rate audio_data = inl e)
   <-> sample_rate = 0%Z)
  /\ (sample_rate = 0%Z ->
      plot_spectrogram psd sample_rate audio_data = inl Py.ZeroDivisionError).
Proof.
  split; [| intros ->; apply plot_spectrogram_zero_rate].
  destruct (Z.eq_dec sample_rate 0) as [-> | Hs].
  - rewrite plot_spectrogram_zero_rate.
    split; [reflexivity | intros _; eexists; reflexivity].
  - rewrite plot_spectrogram_eq by exact Hs.
    split; [intros [e He]; discriminate He | contradiction].
Qed.

(** The grid of the spectrogram, for a clip padded with zeros to 1024
    samples when it is shorter: there are
    [(max(len, 1024) - 1024) div 512 + 1] time bins; bin [j] is the
    spectrum of samples [512 j] to [512 j + 1023], and its time stamp is
    the middle of that window, [(512 j + 512) / sample_rate] seconds. *)
Theorem spectrogram_time_bins (sample_rate : Z) (audio_data : list Q) :
  sample_rate <> 0%Z ->
  exists fig,
    plot_spectrogram psd sample_rate audio_data = inr fig
    /\ spectrum fig
       = map (fun j => psd sample_rate
                         (firstn 1024
                            (skipn (j * 512) (Mlab.zero_pad audio_data 1024))))
             (seq 0 ((Nat.max (length audio_data) 1024 - 1024) / 512 + 1))
    /\ Forall2 Qeq (times fig)
         (map (fun j => inject_Z (Z.of_nat (512 * j + 512))
                        / inject_Z sample_rate)
              (seq 0 ((Nat.max (length audio_data) 1024 - 1024) / 512 + 1))).
Proof.
  intros Hs. eexists. split; [apply plot_spectrogram_eq; exact Hs |].
  cbn [spectrum times].
  pose proof (zero_pad_length audio_data 1024) as Hp.
  split.
  - rewrite (windows_closed_form _ 1024 511) by lia.
    rewrite map_map, Hp. reflexivity.
  - rewrite time_stamps_closed_form by lia. rewrite map_map, Hp.
    apply Forall2_map_same. intros j _. cbn beta.
    rewrite Nat2Z.inj_add, Nat2Z.inj_mul, inject_Z_plus, inject_Z_mult.
    change (inject_Z (Z.of_nat 512)) with (512 # 1).
    change (inject_Z 1024) with (1024 # 1).
    change (inject_Z 512) with (512 # 1).
    field. apply inject_Z_nonzero. exact Hs.
Qed.

Lemma firstn_skipn_firstn (w n m : nat) (x : list Q) :
  (n + w <= m)%nat ->
  firstn w (skipn n (firstn m x)) = firstn w (skipn n x).
Proof.
  intros H. rewrite skipn_firstn_comm, firstn_firstn.
  f_equal. lia.
Qed.

(** The samples after the last whole hop are not analysed: a clip of at
    least 1024 samples gives the same figure as the clip cut to
    [1024 + 512 * ((len - 1024) div 512)] samples, so up to 511
    trailing samples never reach the spectrogram. *)
Theorem spectrogram_ignores_tail (sample_rate : Z) (audio_data : list Q) :
  (1024 <= length audio_data)%nat ->
  plot_spectrogram psd sample_rate audio_data
  = plot_spectrogram psd sample_rate
      (firstn (1024 + 512 * ((length audio_data - 1024) / 512)) audio_data).
Proof.
  intros Hlen.
  destruct (Z.eq_dec sample_rate 0) as [-> | Hs];
    [rewrite !plot_spectrogram_zero_rate; reflexivity |].
  set (q := ((length audio_data - 1024) / 512)%nat).
  assert (Hq : (1024 + 512 * q <= length audio_data)%nat).
  { subst q. pose proof (Nat.Div0.mul_div_le (length audio_data - 1024) 512).
    lia. }
  set (cut := firstn (1024 + 512 * q) audio_data).
  assert (Hcut : length cut = (1024 + 512 * q)%nat)
    by (subst cut; rewrite length_firstn; lia).
  rewrite !plot_spectrogram_eq by exact Hs.
  assert (Hp1 : Mlab.zero_pad audio_data 1024 = audio_data).
  { unfold Mlab.zero_pad.
    destruct (Nat.ltb_spec (length audio_data) 1024); [lia | reflexivity]. }
  assert (Hp2 : Mlab.zero_pad cut 1024 = cut).
  { unfold Mlab.zero_pad.
    destruct (Nat.ltb_spec (length cut) 1024); [lia | reflexivity]. }
  rewrite Hp1, Hp2.
  rewrite !(windows_closed_form _ 1024 511) by lia.
  rewrite !time_stamps_closed_form by lia.
  assert (Hn : ((length cut - 1024) / 512 = q)%nat).
  { rewrite Hcut. replace (1024 + 512 * q - 1024)%nat with (q * 512)%nat by lia.
    apply Nat.div_mul. discriminate. }
  rewrite Hn. fold q. do 2 f_equal.
  rewrite !map_map. apply map_ext_in. intros j Hj. apply in_seq in Hj.
  f_equal. subst cut. symmetry. apply firstn_skipn_firstn. nia.
Qed.

End SpectrogramWindows.

(** ** The first tab: everything or only the error *)

Lemma plot_spectrum_ok (frequencies magnitude : list Q) :
  length frequencies = length magnitude ->
  Exists (fun f => f <= 3000) frequencies ->
  exists fig, plot_spectrum frequencies magnitude = inr fig.
Proof.
  intros Hl Hex. unfold plot_spectrum. rewrite getitem_mask_map.
  rewrite shown_magnitudes by exact Hl. cbn [Py.bind].
  destruct (filter _ (combine frequencies magnitude)) as [| p l] eqn:E.
  - exfalso. apply (shown_empty_iff frequencies magnitude Hl) in E.
    apply Exists_exists in Hex. destruct Hex as [f [Hin Hf]].
    exact (Qlt_not_le _ _ (proj1 (Forall_forall _ _) E f Hin) Hf).
  - cbn [map np_max Py.bind Py.ret]. eexists. reflexivity.
Qed.

Lemma float_ratios_ok (fmt : Ieee.format)
  (np_sum : list Np.float -> Np.float)
  (frequencies : list Q) (magnitude : list Np.float) :
  length frequencies = length magnitude ->
  exists low_ratio high_ratio,
    MainFloat.ratios fmt np_sum frequencies magnitude
    = inr (low_ratio, high_ratio).
Proof.
  intros Hl. unfold MainFloat.ratios.
  destruct (band_power_ok np_sum magnitude (Main.low_freq_mask frequencies))
    as [lp El]; [unfold Main.low_freq_mask; rewrite length_map; auto |].
  destruct (band_power_ok np_sum magnitude (Main.high_freq_mask frequencies))
    as [hp Eh]; [unfold Main.high_freq_mask; rewrite length_map; auto |].
  unfold MainFloat.low_power, MainFloat.high_power. rewrite El, Eh.
  cbn [Py.bind Py.ret].
  destruct (MainFloat.ratios_of_powers fmt lp hp) as [lr hr].
  exists lr, hr. reflexivity.
Qed.

Section TabFacts.

Variable np_fft : list Q -> list (Q * Q).
Variable np_abs : Q * Q -> Q.
Variable psd : Z -> list Q -> list Q.
Variable fmt : Ieee.format.
Variable np_sum : list Np.float -> Np.float.
Hypothesis np_fft_length : forall a, length (np_fft a) = length a.

(** The analysis tab shows either the error alone or the whole analysis,
    never a part of it.  For a sample rate that is not negative: an
    empty clip gives only [st.error] with a [ValueError], a zero rate
    only [st.error] with a [ZeroDivisionError], and every other clip
    gives, in this order, the spectrum figure, the two metrics (floats:
    a metric can be nan), the verdict message for them, the rule, the
    subheader, the caption and the spectrogram figure. *)
Theorem frequency_tab_all_or_error
  (sample_rate : Z) (audio_data : Np.ndarray) :
  (0 <= sample_rate)%Z ->
  (samples (snd (load_audio_data (sample_rate, audio_data))) = [] ->
   frequency_tab np_fft np_abs psd fmt np_sum (sample_rate, audio_data)
   = [Error Py.ValueError])
  /\ (samples (snd (load_audio_data (sample_rate, audio_data))) <> [] ->
      sample_rate = 0%Z ->
      frequency_tab np_fft np_abs psd fmt np_sum (sample_rate, audio_data)
      = [Error Py.ZeroDivisionError])
  /\ (samples (snd (load_audio_data (sample_rate, audio_data))) <> [] ->
      sample_rate <> 0%Z ->
      exists fig (low_ratio high_ratio : Np.float) fig_spec,
        frequency_tab np_fft np_abs psd fmt np_sum (sample_rate, audio_data)
        = [Pyplot_spectrum fig;
           Metric_low low_ratio;
           Metric_high high_ratio;
           Message (Main.judge low_ratio high_ratio);
           Markdown_rule; Subheader_spectrogram; Caption_spectrogram;
           Pyplot_spectrogram fig_spec]).
Proof.
  intros Hs. unfold frequency_tab.
  change (load_audio_data (sample_rate, audio_data))
    with (sample_rate, normalize (Np.mean_axis1_if_2d audio_data)).
  cbn [snd].
  set (waveform := samples (normalize (Np.mean_axis1_if_2d audio_data))).
  split; [| split].
  - intros ->. reflexivity.
  - intros Hne ->.
    destruct waveform as [| x l]; [contradiction | reflexivity].
  - intros Hne Hs0.
    rewrite (perform_fft_analysis_eq np_fft np_abs np_fft_length)
      by (try lia; exact Hne).
    set (frequencies := map _ (Np.arange 0 (retained (length waveform)))).
    set (magnitude := map np_abs _).
    assert (Hn : (0 < Z.of_nat (length waveform))%Z)
      by (destruct waveform; [contradiction | cbn; lia]).
    assert (Hr : (0 < retained (length waveform)
                  <= Z.of_nat (length waveform))%Z).
    { unfold retained. pose proof (half_split _ Hn).
      assert (0 <= (Z.of_nat (length waveform) - 1) / 2)%Z
        by (apply Z.div_pos; lia).
      assert (0 <= Z.of_nat (length waveform) / 2)%Z
        by (apply Z.div_pos; lia).
      lia. }
    assert (Hl : length frequencies = length magnitude).
    { subst frequencies magnitude.
      rewrite !length_map, arange_length, length_firstn, np_fft_length. lia. }
    assert (Hex : Exists (fun f => f <= 3000) frequencies).
    { apply Exists_exists.
      exists (inject_Z 0 * bin_width (Z.of_nat (length waveform)) sample_rate).
      split.
      - subst frequencies.
        apply (in_map (fun k => inject_Z k * bin_width _ sample_rate)).
        apply arange_In. lia.
      - change (inject_Z 0) with 0. rewrite Qmult_0_l. discriminate. }
    destruct (plot_spectrum_ok frequencies magnitude Hl Hex) as [fig ->].
    destruct (float_ratios_ok fmt np_sum frequencies (map Np.Fin magnitude))
      as [lr [hr ->]]; [rewrite length_map; exact Hl |].
    rewrite plot_spectrogram_eq by exact Hs0.
    do 4 eexists. reflexivity.
Qed.

End TabFacts.

(** ** get_api_key *)

Lemma secrets_have_priority (s : Key.sources) (k : string) :
  Key.from_secrets s = Some k -> Key.get_api_key s = Some k.
Proof.
  intros H. unfold Key.get_api_key. rewrite H. reflexivity.
Qed.

Lemma truthy_iff (k : string) : Key.truthy k = true <-> k <> EmptyString.
Proof.
  unfold Key.truthy. destruct (String.eqb_spec k EmptyString) as [E | E];
    cbn [negb]; split; intros H; try assumption; try reflexivity;
    try discriminate H; contradiction.
Qed.

Lemma fallback_key_nonempty (s : Key.sources) (k : string) :
  Key.from_secrets s = None ->
  Key.get_api_key s = Some k -> k <> EmptyString.
Proof.
  intros Hsec Hk. unfold Key.get_api_key in Hk. rewrite Hsec in Hk.
  unfold Key.from_environ, Key.from_session in Hk.
  destruct (Key.lookup Key.GOOGLE_API_KEY (Key.environ s)) as [e |].
  - destruct (Key.truthy e && negb (String.eqb e Key.DUMMY)) eqn:Et.
    + injection Hk as <-. apply andb_true_iff in Et.
      apply truthy_iff. exact (proj1 Et).
    + destruct (Key.lookup "user_api_key" (Key.session_state s)) as [u |];
        [| discriminate Hk].
      destruct (Key.truthy u) eqn:Hu; [| discriminate Hk].
      injection Hk as <-. apply truthy_iff. exact Hu.
  - destruct (Key.lookup "user_api_key" (Key.session_state s)) as [u |];
      [| discriminate Hk].
    destruct (Key.truthy u) eqn:Hu; [| discriminate Hk].
    injection Hk as <-. apply truthy_iff. exact Hu.
Qed.

(** Without a key in [st.secrets] (no secrets, or no such entry), the
    key that is returned is never empty, and it is the placeholder
    DUMMY_API_KEY_REPLACE_ME only if the user typed that into the
    session field: the environment never supplies the placeholder. *)
Theorem fallback_key_is_usable (s : Key.sources) (k : string) :
  Key.from_secrets s = None ->
  Key.get_api_key s = Some k ->
  k <> EmptyString
  /\ (k = Key.DUMMY ->
      Key.lookup "user_api_key" (Key.session_state s) = Some Key.DUMMY).
Proof.
  intros Hsec Hk. unfold Key.get_api_key in Hk. rewrite Hsec in Hk.
  unfold Key.from_environ, Key.from_session in Hk.
  destruct (Key.lookup Key.GOOGLE_API_KEY (Key.environ s)) as [e |] eqn:Ee.
  - destruct (Key.truthy e && negb (String.eqb e Key.DUMMY)) eqn:Et.
    + injection Hk as <-. apply andb_true_iff in Et. destruct Et as [Ht Hd].
      split; [apply truthy_iff; exact Ht |].
      intros ->. rewrite String.eqb_refl in Hd. discriminate Hd.
    + destruct (Key.lookup "user_api_key" (Key.session_state s)) as [u |];
        [| discriminate Hk].
      destruct (Key.truthy u) eqn:Hu; [| discriminate Hk].
      injection Hk as <-. split; [apply truthy_iff; exact Hu |].
      intros ->. reflexivity.
  - destruct (Key.lookup "user_api_key" (Key.session_state s)) as [u |];
      [| discriminate Hk].
    destruct (Key.truthy u) eqn:Hu; [| discriminate Hk].
    injection Hk as <-. split; [apply truthy_iff; exact Hu |].
    intros ->. reflexivity.
Qed.

(** [get_api_key] returns [None] exactly when [st.secrets] gives no
    key, the environment variable is unset, empty or the placeholder,
    and the session field is absent or empty. *)
Lemma no_key_iff (s : Key.sources) :
  Key.get_api_key s = None
  <-> Key.from_secrets s = None
      /\ (forall e, Key.lookup Key.GOOGLE_API_KEY (Key.environ s) = Some e ->
                    e = EmptyString \/ e = Key.DUMMY)
      /\ (forall u, Key.lookup "user_api_key" (Key.session_state s) = Some u ->
                    u = EmptyString).
Proof.
  unfold Key.get_api_key, Key.from_environ, Key.from_session.
  destruct (Key.from_secrets s) as [k |].
  { split; [discriminate | intros [H _]; discriminate H]. }
  destruct (Key.lookup Key.GOOGLE_API_KEY (Key.environ s)) as [e |].
  - unfold Key.truthy at 1.
    destruct (String.eqb_spec e EmptyString) as [E1 | E1];
      destruct (String.eqb_spec e Key.DUMMY) as [E2 | E2]; cbn [negb andb].
    4:{ split; [discriminate |]. intros [_ [H _]].
        destruct (H e eq_refl); contradiction. }
    all: destruct (Key.lookup "user_api_key" (Key.session_state s)) as [u |].
    all: try (unfold Key.truthy;
              destruct (String.eqb_spec u EmptyString) as [E3 | E3];
              cbn [negb]).
    all: split;
      [ intros H; try discriminate H;
        (split; [reflexivity |]);
        (split; [intros e' He'; injection He' as <-; auto |]);
        intros u' Hu'; try discriminate Hu'; injection Hu' as <-; assumption
      | intros [_ [_ H]]; try reflexivity;
        exfalso; apply E3; apply H; reflexivity ].
  - destruct (Key.lookup "user_api_key" (Key.session_state s)) as [u |].
    + unfold Key.truthy.
      destruct (String.eqb_spec u EmptyString) as [E3 | E3]; cbn [negb].
      * split; [| reflexivity]. intros _. split; [reflexivity |].
        split; [intros e He; discriminate He |].
        intros u' Hu'. injection Hu' as <-. exact E3.
      * split; [discriminate |]. intros [_ [_ H]].
        exfalso. apply E3. apply H. reflexivity.
    + split; [| reflexivity]. intros _. split; [reflexivity |].
      split; intros x Hx; discriminate Hx.
Qed.

(** An entry of [st.secrets] decides alone whether the AI tab calls
    [analyze_with_gemini], whatever the environment and the session
    hold: an entry that is not empty is the key of the call (even the
    placeholder), and an empty entry shows the warning, although a
    usable key may be set elsewhere. *)
Theorem secret_entry_decides (s : Key.sources) (k : string) :
  Key.from_secrets s = Some k ->
  Key.gemini_key (Key.get_api_key s)
  = if String.eqb k EmptyString then None else Some k.
Proof.
  intros H. rewrite (secrets_have_priority s k H).
  unfold Key.gemini_key, Key.truthy.
  destruct (String.eqb k EmptyString); reflexivity.
Qed.

(** The AI tab shows the warning instead of calling
    [analyze_with_gemini] exactly when the entry of [st.secrets] is
    empty, or there is none and neither the environment (unset, empty or
    the placeholder) nor the session field (absent or empty) gives a
    key. *)
Theorem ai_warning_iff (s : Key.sources) :
  Key.gemini_key (Key.get_api_key s) = None
  <-> Key.from_secrets s = Some EmptyString
      \/ (Key.from_secrets s = None
          /\ (forall e,
                Key.lookup Key.GOOGLE_API_KEY (Key.environ s) = Some e ->
                e = EmptyString \/ e = Key.DUMMY)
          /\ (forall u,
                Key.lookup "user_api_key" (Key.session_state s) = Some u ->
                u = EmptyString)).
Proof.
  destruct (Key.from_secrets s) as [k |] eqn:Hsec.
  - rewrite (secrets_have_priority s k Hsec).
    unfold Key.gemini_key, Key.truthy.
    destruct (String.eqb_spec k EmptyString) as [-> | Hk]; cbn [negb].
    + split; [intros _; left; reflexivity | reflexivity].
    + split; [discriminate |].
      intros [H | [H _]]; [injection H as ->; contradiction | discriminate H].
  - destruct (Key.get_api_key s) as [k |] eqn:Hk.
    + pose proof (fallback_key_nonempty s k Hsec Hk) as Hne.
      unfold Key.gemini_key. rewrite (proj2 (truthy_iff k) Hne).
      split; [discriminate |].
      intros [H | [_ H]]; [discriminate H |].
      assert (Hn : Key.get_api_key s = None)
        by (apply no_key_iff; split; [exact Hsec | exact H]).
      congruence.
    + split; [| reflexivity]. intros _. right.
      apply no_key_iff in Hk. destruct Hk as [_ Hk].
      split; [reflexivity | exact Hk].
Qed.

(** ** load_audio_data: shape of the result *)

(** Whatever the encoding and the number of channels, the loader keeps
    the sample rate and returns an array of one axis with one sample per
    time index.  The result is a float array, except for a mono clip of
    8-bit or of 64-bit integers: only the dtypes [int16] and [int32] are
    tested, so these two come back as they are, on the integer scale. *)
Theorem load_one_sample_per_frame (sample_rate : Z) (a : Np.ndarray) :
  fst (load_audio_data (sample_rate, a)) = sample_rate
  /\ length (samples (snd (load_audio_data (sample_rate, a)))) = frames a
  /\ ((exists dt ys, snd (load_audio_data (sample_rate, a)) = Np.FVec dt ys)
      \/ (exists dt xs,
             (dt = Np.uint8 \/ dt = Np.int64)
             /\ a = Np.IVec dt xs
             /\ snd (load_audio_data (sample_rate, a)) = a)).
Proof.
  split; [reflexivity |].
  destruct a as [dt xs | dt xs | dt rows | dt rows];
    try destruct dt;
    cbn [load_audio_data Np.mean_axis1_if_2d normalize snd samples frames];
    rewrite ?length_map; (split; [reflexivity |]);
    try (left; do 2 eexists; reflexivity).
  - right. do 2 eexists. split; [left; reflexivity |]. split; reflexivity.
  - right. do 2 eexists. split; [right; reflexivity |]. split; reflexivity.
Qed.

(** ** The further properties on concrete input *)

Lemma mono_int16_exact_witness :
  Forall (fun x => (- 32768 <= x <= 32767)%Z) [16384; -32768; 32767]%Z
  /\ load_audio_data (44100%Z, Np.IVec Np.int16 [16384; -32768; 32767]%Z)
     = (44100%Z,
        Np.FVec Np.float32
          (map (fun x => inject_Z x / 32768) [16384; -32768; 32767]%Z))
  /\ Forall (fun s => - (1) <= s /\ s < 1)
       (samples (snd (load_audio_data
                        (44100%Z,
                         Np.IVec Np.int16 [16384; -32768; 32767]%Z)))).
Proof.
  assert (H : Forall (fun x => (- 32768 <= x <= 32767)%Z)
                [16384; -32768; 32767]%Z)
    by (repeat constructor; lia).
  split; [exact H |].
  apply (mono_int16_exact 44100 [16384; -32768; 32767]%Z H).
Defined.

Lemma mono_int32_close_witness :
  Forall (fun x => (- 2147483648 <= x <= 2147483647)%Z)
    [2147483647; 16777217; -5]%Z
  /\ exists ys,
      load_audio_data
        (44100%Z, Np.IVec Np.int32 [2147483647; 16777217; -5]%Z)
      = (44100%Z, Np.FVec Np.float32 ys)
      /\ Forall (fun s => - (1) <= s /\ s <= 1) ys
      /\ Forall2
           (fun s x => Qabs (s - inject_Z x / 2147483648) <= 1 # 33554432)
           ys [2147483647; 16777217; -5]%Z.
Proof.
  assert (H : Forall (fun x => (- 2147483648 <= x <= 2147483647)%Z)
                [2147483647; 16777217; -5]%Z)
    by (repeat constructor; lia).
  split; [exact H |].
  apply (mono_int32_close 44100 [2147483647; 16777217; -5]%Z H).
Defined.

Lemma plot_spectrum_normalized_witness :
  exists fig,
    Forall (fun m => 0 <= m) [1; 4; 9]
    /\ plot_spectrum [0; 100; 4000] [1; 4; 9] = inr fig
    /\ length (line_x fig) = length (line_y fig)
    /\ Forall (fun f => f <= 3000) (line_x fig)
    /\ Forall (fun y => exists q, y = Np.Fin q /\ 0 <= q /\ q <= 1)
         (line_y fig)
    /\ (Exists (fun p => fst p <= 3000 /\ 0 < snd p)
          (combine [0; 100; 4000] [1; 4; 9]) ->
        Exists (fun y => exists q, y = Np.Fin q /\ q == 1) (line_y fig)).
Proof.
  eexists.
  assert (H : Forall (fun m => 0 <= m) [1; 4; 9])
    by (repeat constructor; discriminate).
  split; [exact H |]. split; [reflexivity |].
  apply (plot_spectrum_normalized [0; 100; 4000] [1; 4; 9] _ H).
  reflexivity.
Defined.

Lemma float_ratios_are_percentages_witness :
  length [100; 2000] = length [Np.Fin 3; Np.Fin 1]
  /\ Forall (Ieee.nonneg_float Ieee.binary64) [Np.Fin 3; Np.Fin 1]
  /\ exists low_ratio high_ratio,
      MainFloat.ratios Ieee.binary64 (Ieee.sum_left Ieee.binary64)
        [100; 2000] [Np.Fin 3; Np.Fin 1]
      = inr (low_ratio, high_ratio)
      /\ (low_ratio = Np.NaN
          \/ exists q, low_ratio = Np.Fin q /\ 0 <= q /\ q <= 100)
      /\ (high_ratio = Np.NaN
          \/ exists q, high_ratio = Np.Fin q /\ 0 <= q /\ q <= 100).
Proof.
  assert (Hm : Forall (Ieee.nonneg_float Ieee.binary64) [Np.Fin 3; Np.Fin 1])
    by (repeat constructor; [apply (nonneg_float_Z 3) | apply (nonneg_float_Z 1)];
        lia).
  split; [reflexivity |]. split; [exact Hm |].
  apply (float_ratios_are_percentages Ieee.binary64 binary64_valid
           (Ieee.sum_left Ieee.binary64)
           (sum_left_nonneg Ieee.binary64 binary64_valid)
           [100; 2000] [Np.Fin 3; Np.Fin 1]); [reflexivity | exact Hm].
Defined.

Lemma bins_outside_bands_ignored_witness :
  length [100; 700; 2000] = length [3; 5; 1]
  /\ length [100; 700; 2000] = length [3; 9; 1]
  /\ (forall i f, nth_error [100; 700; 2000] i = Some f ->
                  (0 <= f /\ f <= 500) \/ (1000 <= f /\ f <= 3000) ->
                  nth_error [3; 5; 1] i = nth_error [3; 9; 1] i)
  /\ Main.classify [100; 700; 2000] [3; 5; 1]
     = Main.classify [100; 700; 2000] [3; 9; 1].
Proof.
  assert (H : forall i f, nth_error [100; 700; 2000] i = Some f ->
                (0 <= f /\ f <= 500) \/ (1000 <= f /\ f <= 3000) ->
                nth_error [3; 5; 1] i = nth_error [3; 9; 1] i).
  { intros i f Hi Hb. destruct i as [| [| [| i]]]; cbn in Hi |- *;
      try reflexivity.
    injection Hi as <-. exfalso.
    destruct Hb as [[_ Hb] | [Hb _]]; apply Hb; reflexivity. }
  split; [reflexivity |]. split; [reflexivity |]. split; [exact H |].
  apply (bins_outside_bands_ignored [100; 700; 2000] [3; 5; 1] [3; 9; 1]
           eq_refl eq_refl H).
Defined.

Lemma perform_fft_analysis_fails_iff_witness :
  (0 <= 8000)%Z
  /\ (perform_fft_analysis small_fft real_abs 8000 [1 # 2; - (1 # 4)]
      = inl Py.ValueError <-> [1 # 2; - (1 # 4)] = [])
  /\ (perform_fft_analysis small_fft real_abs 8000 [1 # 2; - (1 # 4)]
      = inl Py.ZeroDivisionError
      <-> [1 # 2; - (1 # 4)] <> [] /\ 8000%Z = 0%Z)
  /\ ((exists e, perform_fft_analysis small_fft real_abs 8000
                   [1 # 2; - (1 # 4)] = inl e)
      <-> [1 # 2; - (1 # 4)] = [] \/ 8000%Z = 0%Z).
Proof.
  split; [discriminate |].
  apply (perform_fft_analysis_fails_iff small_fft real_abs small_fft_length
           8000 [1 # 2; - (1 # 4)]).
  discriminate.
Defined.

(** 1100 samples, a ramp, at 8000 Hz: one time bin, 76 samples unused. *)
Lemma spectrogram_time_bins_witness :
  8000%Z <> 0%Z
  /\ exists fig,
      plot_spectrogram silent_psd 8000
        (map (fun i => inject_Z (Z.of_nat i)) (seq 0 1100)) = inr fig
      /\ spectrum fig
         = map (fun j =>
                  silent_psd 8000
                    (firstn 1024
                       (skipn (j * 512)
                          (Mlab.zero_pad
                             (map (fun i => inject_Z (Z.of_nat i))
                                  (seq 0 1100)) 1024))))
               (seq 0 ((Nat.max
                          (length (map (fun i => inject_Z (Z.of_nat i))
                                       (seq 0 1100))) 1024 - 1024)
                       / 512 + 1))
      /\ Forall2 Qeq (times fig)
           (map (fun j => inject_Z (Z.of_nat (512 * j + 512)) / inject_Z 8000)
                (seq 0 ((Nat.max
                           (length (map (fun i => inject_Z (Z.of_nat i))
                                        (seq 0 1100))) 1024 - 1024)
                        / 512 + 1))).
Proof.
  split; [discriminate |].
  apply (spectrogram_time_bins silent_psd 8000
           (map (fun i => inject_Z (Z.of_nat i)) (seq 0 1100))).
  discriminate.
Defined.

Lemma spectrogram_ignores_tail_witness :
  (1024 <= length (map (fun i => inject_Z (Z.of_nat i)) (seq 0 1100)))%nat
  /\ plot_spectrogram silent_psd 8000
       (map (fun i => inject_Z (Z.of_nat i)) (seq 0 1100))
     = plot_spectrogram silent_psd 8000
         (firstn
            (1024
             + 512 * ((length (map (fun i => inject_Z (Z.of_nat i))
                                   (seq 0 1100)) - 1024) / 512))
            (map (fun i => inject_Z (Z.of_nat i)) (seq 0 1100))).
Proof.
  assert (H : (1024 <= length (map (fun i => inject_Z (Z.of_nat i))
                                   (seq 0 1100)))%nat)
    by (rewrite length_map, length_seq; lia).
  split; [exact H |].
  apply (spectrogram_ignores_tail silent_psd 8000 _ H).
Defined.

Lemma frequency_tab_all_or_error_witness :
  (0 <= 8000)%Z
  /\ (samples (snd (load_audio_data
                      (8000%Z, Np.IVec Np.int16 [16384; -8192]%Z))) = [] ->
      frequency_tab small_fft real_abs silent_psd
        Ieee.binary64 (Ieee.sum_left Ieee.binary64)
        (8000%Z, Np.IVec Np.int16 [16384; -8192]%Z)
      = [Error Py.ValueError])
  /\ (samples (snd (load_audio_data
                      (8000%Z, Np.IVec Np.int16 [16384; -8192]%Z))) <> [] ->
      8000%Z = 0%Z ->
      frequency_tab small_fft real_abs silent_psd
        Ieee.binary64 (Ieee.sum_left Ieee.binary64)
        (8000%Z, Np.IVec Np.int16 [16384; -8192]%Z)
      = [Error Py.ZeroDivisionError])
  /\ (samples (snd (load_audio_data
                      (8000%Z, Np.IVec Np.int16 [16384; -8192]%Z))) <> [] ->
      8000%Z <> 0%Z ->
      exists fig (low_ratio high_ratio : Np.float) fig_spec,
        frequency_tab small_fft real_abs silent_psd
          Ieee.binary64 (Ieee.sum_left Ieee.binary64)
          (8000%Z, Np.IVec Np.int16 [16384; -8192]%Z)
        = [Pyplot_spectrum fig;
           Metric_low low_ratio;
           Metric_high high_ratio;
           Message (Main.judge low_ratio high_ratio);
           Markdown_rule; Subheader_spectrogram; Caption_spectrogram;
           Pyplot_spectrogram fig_spec]).
Proof.
  split; [discriminate |].
  apply (frequency_tab_all_or_error small_fft real_abs silent_psd
           Ieee.binary64 (Ieee.sum_left Ieee.binary64)
           small_fft_length 8000 (Np.IVec Np.int16 [16384; -8192]%Z)).
  discriminate.
Defined.

(** Secrets with an empty entry, a usable key in the environment. *)
Lemma secret_entry_decides_witness :
  Key.from_secrets
    {| Key.secrets := Some [(Key.GOOGLE_API_KEY, EmptyString)];
       Key.environ := [(Key.GOOGLE_API_KEY, "abc"%string)];
       Key.session_state := [] |} = Some EmptyString
  /\ Key.gemini_key
       (Key.get_api_key
          {| Key.secrets := Some [(Key.GOOGLE_API_KEY, EmptyString)];
             Key.environ := [(Key.GOOGLE_API_KEY, "abc"%string)];
             Key.session_state := [] |})
     = if String.eqb EmptyString EmptyString then None else Some EmptyString.
Proof.
  split; [reflexivity |].
  apply (secret_entry_decides
           {| Key.secrets := Some [(Key.GOOGLE_API_KEY, EmptyString)];
              Key.environ := [(Key.GOOGLE_API_KEY, "abc"%string)];
              Key.session_state := [] |} EmptyString).
  reflexivity.
Defined.

(** No secrets, the placeholder in the environment, a key typed in. *)
Lemma fallback_key_is_usable_witness :
  Key.from_secrets
    {| Key.secrets := None;
       Key.environ := [(Key.GOOGLE_API_KEY, Key.DUMMY)];
       Key.session_state := [("user_api_key"%string, "abc"%string)] |} = None
  /\ Key.get_api_key
       {| Key.secrets := None;
          Key.environ := [(Key.GOOGLE_API_KEY, Key.DUMMY)];
          Key.session_state := [("user_api_key"%string, "abc"%string)] |}
     = Some "abc"%string
  /\ "abc"%string <> EmptyString
  /\ ("abc"%string = Key.DUMMY ->
      Key.lookup "user_api_key"
        (Key.session_state
           {| Key.secrets := None;
              Key.environ := [(Key.GOOGLE_API_KEY, Key.DUMMY)];
              Key.session_state := [("user_api_key"%string, "abc"%string)] |})
      = Some Key.DUMMY).
Proof.
  split; [reflexivity |]. split; [reflexivity |].
  apply (fallback_key_is_usable
           {| Key.secrets := None;
              Key.environ := [(Key.GOOGLE_API_KEY, Key.DUMMY)];
              Key.session_state := [("user_api_key"%string, "abc"%string)] |}
           "abc"%string); reflexivity.
Defined.
